(** * A shallow embedding of the ZebraSign core (zebra_crypto, spartacus_storage)

    Conventions of the embedding.
    - Rust [Vec<u8>], [[u8; N]], [&str] and [String] are [list byte]; a [&str] is the
      list of its UTF-8 bytes.
    - The Ristretto group has prime order [ell] and is generated by the base point [B]; a
      [RistrettoPoint] is represented by its discrete logarithm with respect to [B], an
      integer in [0, ell).  A [Scalar] is its canonical representative in [0, ell).  Under
      this isomorphism [mul_base], point addition and scalar multiplication are the
      arithmetic of Z/ell.  The byte encoding of a point ([compress]/[decompress]) is not
      computable from the discrete logarithm, so it is a parameter ([Primitives]), as are
      SHA3-512, SHA3-256 and the [z85] crate.
    - A SHA3 hashing state is the list of bytes absorbed so far.
    - Randomness ([Scalar::random], the keychain passphrase) is an explicit argument.
    - A panic ([expect], an index out of range) is [None] (or [Panic]). *)

From Stdlib Require Import String Strings.Byte.
From Stdlib Require Import ZArith List Lia Bool PeanoNat Sorted Permutation.
Import ListNotations.

Definition bytes := list byte.

(** [s.as_bytes()] of a string literal. *)
Definition bs (s : string) : bytes := list_byte_of_string s.

(** ** Bytes and little-endian integers *)

Definition Z_of_byte (b : byte) : Z := Z.of_N (Byte.to_N b).

Definition byte_of_Z (z : Z) : byte :=
  match Byte.of_N (Z.to_N (z mod 256)%Z) with
  | Some b => b
  | None => Byte.x00
  end.

(** [n] little-endian bytes of [z] ([u32::to_le_bytes], [Scalar::as_bytes]). *)
Fixpoint le_bytes (n : nat) (z : Z) : bytes :=
  match n with
  | O => []
  | S n' => byte_of_Z z :: le_bytes n' (z / 256)%Z
  end.

(** The little-endian value of a byte string. *)
Fixpoint le_value (b : bytes) : Z :=
  match b with
  | [] => 0%Z
  | x :: b' => (Z_of_byte x + 256 * le_value b')%Z
  end.

(** The order of Rust's [Ord] on byte arrays and slices: lexicographic. *)
Definition byte_cmp (x y : byte) : comparison := N.compare (Byte.to_N x) (Byte.to_N y).

Definition bytes_cmp (a b : bytes) : comparison := list_compare byte_cmp a b.

(** ** Curve25519 scalars and Ristretto points (discrete-logarithm representation) *)

Definition ell : Z := (2 ^ 252 + 27742317777372353535851937790883648493)%Z.

Abbreviation Scalar := Z (only parsing).
Abbreviation RistrettoPoint := Z (only parsing).

Definition scalar_ZERO : Scalar := 0%Z.
Definition scalar_sub (a b : Scalar) : Scalar := ((a - b) mod ell)%Z.
Definition scalar_mul (a b : Scalar) : Scalar := ((a * b) mod ell)%Z.
(** [RistrettoPoint::mul_base] *)
Definition mul_base (s : Scalar) : RistrettoPoint := (s mod ell)%Z.
(** [impl Add for RistrettoPoint] *)
Definition point_add (p q : RistrettoPoint) : RistrettoPoint := ((p + q) mod ell)%Z.
(** [impl Mul<&RistrettoPoint> for Scalar] *)
Definition scalar_mul_point (s : Scalar) (p : RistrettoPoint) : RistrettoPoint :=
  ((s * p) mod ell)%Z.

(** [Scalar::as_bytes]: the canonical 32 little-endian bytes. *)
Definition scalar_as_bytes (s : Scalar) : bytes := le_bytes 32 s.

(** [Scalar::from_canonical_bytes] *)
Definition scalar_from_canonical_bytes (b : bytes) : option Scalar :=
  if (length b =? 32)%nat && (le_value b <? ell)%Z then Some (le_value b) else None.

(** [Scalar::random]: 64 bytes from the OS generator, reduced modulo [ell]; the bytes are
    given as their little-endian value. *)
Definition scalar_random (raw : Z) : Scalar := (raw mod ell)%Z.

(** The primitives the crate takes from its dependencies. *)
Class Primitives := {
  compress : RistrettoPoint -> bytes;          (** [RistrettoPoint::compress] *)
  decompress : bytes -> option RistrettoPoint; (** [CompressedRistretto::decompress] *)
  sha3_512 : bytes -> bytes;
  sha3_256 : bytes -> bytes;
  z85_encode : bytes -> bytes;                 (** [z85::encode] *)
  z85_decode : bytes -> option bytes           (** [z85::decode] *)
}.

(** ** The data model *)

Record Signature := {
  challenge : Scalar;
  ring_responses : list (RistrettoPoint * Scalar)
}.

(** [Identity]: a name (UTF-8 without control characters) and a [BoringAscii] email. *)
Record Identity := {
  name : bytes;
  email : bytes
}.

Inductive ZebraVersion := ZebraOneBeta.

Record PublicKey := {
  holder : Identity;
  version : ZebraVersion;
  keypoint : RistrettoPoint;
  holder_attestation : Signature
}.

Module PrivateKey.
Record t := {
  holder : Identity;
  key : Scalar;
  holder_attestation : Signature
}.
End PrivateKey.

Module SignedMessage.
Record t := {
  message : bytes;
  challenge : Scalar;
  ring : list (PublicKey * Scalar)
}.
End SignedMessage.

(** The derived [PartialEq] instances: structural equality. *)
Definition Signature_eq_dec (a b : Signature) : {a = b} + {a <> b}.
Proof. decide equality; [apply list_eq_dec; decide equality; apply Z.eq_dec | apply Z.eq_dec]. Defined.

Definition Identity_eq_dec (a b : Identity) : {a = b} + {a <> b}.
Proof. decide equality; apply list_eq_dec, Byte.byte_eq_dec. Defined.

Definition PublicKey_eq_dec (a b : PublicKey) : {a = b} + {a <> b}.
Proof.
  decide equality; [apply Signature_eq_dec | apply Z.eq_dec | decide equality
                    | apply Identity_eq_dec].
Defined.

Definition PublicKey_eqb (a b : PublicKey) : bool :=
  if PublicKey_eq_dec a b then true else false.

(** [char::is_control] holds for U+0000..U+001F and U+007F..U+009F; in UTF-8 the last
    ones are the pairs C2 80 .. C2 9F (a C2 byte is always a leading byte). *)
Fixpoint contains_control (s : bytes) : bool :=
  match s with
  | [] => false
  | b :: rest =>
      let v := Byte.to_N b in
      if ((v <? 32) || (v =? 127))%N then true
      else if (v =? 194)%N then
        match rest with
        | c :: _ =>
            if ((128 <=? Byte.to_N c) && (Byte.to_N c <=? 159))%N then true
            else contains_control rest
        | [] => false
        end
      else contains_control rest
  end.

(** [BoringAscii::from_bytes] *)
Definition boring_byte (b : byte) : bool :=
  negb ((Byte.to_N b <? 33)%N || (126 <? Byte.to_N b)%N).

Definition boring_from_bytes (b : bytes) : option bytes :=
  if forallb boring_byte b then Some b else None.

(** [Identity::new] *)
Definition identity_new (name : bytes) (email : bytes) : option Identity :=
  if contains_control name then None
  else match boring_from_bytes email with
       | Some e => Some {| name := name; email := e |}
       | None => None
       end.

Definition ZEBRA_ONE_BETA : bytes := bs "ZebraSign 1.0 Beta".

Definition attestation_banner : bytes :=
  bs "!!!DO NOT SIGN THE FOLLOWING MESSAGE. DOING SO IS A SECURITY RISK. SOMEONE IS PROBABLY TRYING TO TRICK YOU!!!".

(** ** Text *)

(** [str::split(c)] for an ASCII [c]: the pieces between the occurrences of [c]; the empty
    string has one (empty) piece. *)
Fixpoint split_on (sep : byte) (s : bytes) : list bytes :=
  match s with
  | [] => [[]]
  | c :: rest =>
      if Byte.eqb c sep then [] :: split_on sep rest
      else match split_on sep rest with
           | p :: ps => (c :: p) :: ps
           | [] => [[c]]
           end
  end.

(** [[T]::join(sep)] *)
Fixpoint join (sep : bytes) (l : list bytes) : bytes :=
  match l with
  | [] => []
  | [x] => x
  | x :: rest => x ++ sep ++ join sep rest
  end.

(** The UTF-8 encodings of the characters with [char::is_whitespace]: U+0009..U+000D, U+0020,
    U+0085, U+00A0, U+1680, U+2000..U+200A, U+2028, U+2029, U+202F, U+205F, U+3000. *)
Definition is_ws_char (c : bytes) : bool :=
  match c with
  | [Byte.x09] | [Byte.x0a] | [Byte.x0b] | [Byte.x0c] | [Byte.x0d] | [Byte.x20] => true
  | [Byte.xc2; Byte.x85] | [Byte.xc2; Byte.xa0] => true
  | [Byte.xe1; Byte.x9a; Byte.x80] => true
  | [Byte.xe2; Byte.x80; z] =>
      let v := Byte.to_N z in ((128 <=? v) && (v <=? 138) || (v =? 168) || (v =? 169) || (v =? 175))%N
  | [Byte.xe2; Byte.x81; Byte.x9f] => true
  | [Byte.xe3; Byte.x80; Byte.x80] => true
  | _ => false
  end.

(** The length of the whitespace character [s] starts with (0 if none). *)
Definition ws_prefix_len (s : bytes) : nat :=
  if is_ws_char (firstn 1 s) then 1
  else if is_ws_char (firstn 2 s) then 2
  else if is_ws_char (firstn 3 s) then 3
  else 0.

(** The last [k] bytes of [s] (all of [s] if shorter). *)
Definition lastn {A} (k : nat) (l : list A) : list A := skipn (length l - k) l.

(** The length of the whitespace character [s] ends with (0 if none); on UTF-8 text the
    trailing bytes matched here are the last character, since 0xC2, 0xE1, 0xE2 and 0xE3 are
    lead bytes. *)
Definition ws_suffix_len (s : bytes) : nat :=
  if is_ws_char (lastn 1 s) then 1
  else if is_ws_char (lastn 2 s) then 2
  else if is_ws_char (lastn 3 s) then 3
  else 0.

Fixpoint trim_start_fuel (fuel : nat) (s : bytes) : bytes :=
  match fuel with
  | O => s
  | S f =>
      match ws_prefix_len s with
      | O => s
      | k => trim_start_fuel f (skipn k s)
      end
  end.

Fixpoint trim_end_fuel (fuel : nat) (s : bytes) : bytes :=
  match fuel with
  | O => s
  | S f =>
      match ws_suffix_len s with
      | O => s
      | k => trim_end_fuel f (firstn (length s - k) s)
      end
  end.

(** [str::trim_start], [str::trim_end] and [str::trim]: each step removes at least one byte,
    so [length s] steps suffice. *)
Definition trim_start (s : bytes) : bytes := trim_start_fuel (length s) s.
Definition trim_end (s : bytes) : bytes := trim_end_fuel (length s) s.
Definition trim (s : bytes) : bytes := trim_end (trim_start s).

(** [hex::encode_upper] *)
Definition hex_digit_upper (n : N) : byte :=
  match Byte.of_N (if (n <? 10)%N then 48 + n else 55 + n)%N with
  | Some b => b
  | None => Byte.x00
  end.

Definition hex_encode_upper (b : bytes) : bytes :=
  flat_map (fun x => [hex_digit_upper (Byte.to_N x / 16); hex_digit_upper (Byte.to_N x mod 16)]) b.

(** The value of a hex digit ([0-9], [a-f], [A-F]). *)
Definition hex_val (c : byte) : option N :=
  let v := Byte.to_N c in
  if ((48 <=? v) && (v <=? 57))%N then Some (v - 48)%N
  else if ((65 <=? v) && (v <=? 70))%N then Some (v - 55)%N
  else if ((97 <=? v) && (v <=? 102))%N then Some (v - 87)%N
  else None.

(** [hex::decode]: [None] on an odd length or a non-hex character. *)
Fixpoint hex_decode (s : bytes) : option bytes :=
  match s with
  | [] => Some []
  | [_] => None
  | h :: l :: rest =>
      match hex_val h, hex_val l, hex_decode rest with
      | Some vh, Some vl, Some r =>
          match Byte.of_N (16 * vh + vl) with
          | Some x => Some (x :: r)
          | None => None
          end
      | _, _, _ => None
      end
  end.

(** [Vec::insert]: panics ([None]) when the index is past the end. *)
Definition vec_insert {A} (i : nat) (x : A) (l : list A) : option (list A) :=
  if (i <=? length l)%nat then Some (firstn i l ++ x :: skipn i l) else None.

Section Crypto.
Context `{Primitives}.

(** [Scalar::from_hash]: the 64-byte SHA3-512 digest, little endian, reduced modulo [ell]. *)
Definition scalar_from_hash (state : bytes) : Scalar :=
  (le_value (sha3_512 state) mod ell)%Z.

(** ** Rings *)

(** A stable insertion: [x] goes before the first element whose key is not smaller. *)
Fixpoint insert_by_key {T} (key : T -> bytes) (x : T) (l : list T) : list T :=
  match l with
  | [] => [x]
  | y :: l' =>
      match bytes_cmp (key x) (key y) with
      | Gt => y :: insert_by_key key x l'
      | _ => x :: l
      end
  end.

(** [slice::sort_by_key]: a stable sort.  All stable sorts by the same key give the same
    list, so insertion sort stands for the standard library's merge sort. *)
Definition sort_by_key {T} (key : T -> bytes) (l : list T) : list T :=
  fold_right (insert_by_key key) [] l.

(** [make_ring] *)
Definition make_ring {T} (my_key : T) (other_keys : list T)
  (key_extractor : T -> RistrettoPoint) : list T :=
  sort_by_key (fun k => compress (key_extractor k)) (other_keys ++ [my_key]).

(** [slice::binary_search_by] (the standard library loop of Rust 1.52 to 1.81), with the
    comparison [f(elem).cmp(target)]; [inl] is [Ok], [inr] is [Err].  [keys] are the
    already extracted keys [f(elem)]. *)
Fixpoint binary_search_loop (fuel : nat) (keys : list bytes) (target : bytes)
  (left right : nat) : nat + nat :=
  match fuel with
  | O => inr left
  | S fuel' =>
      if left <? right then
        let mid := left + (right - left) / 2 in
        match bytes_cmp (nth mid keys []) target with
        | Lt => binary_search_loop fuel' keys target (mid + 1) right
        | Gt => binary_search_loop fuel' keys target left mid
        | Eq => inl mid
        end
      else inr left
  end.

Definition binary_search_by_key (keys : list bytes) (target : bytes) : nat + nat :=
  binary_search_loop (S (length keys)) keys target 0 (length keys).

(** [hash_message_and_ring] *)
Definition hash_message_and_ring (message : bytes) (keys : list RistrettoPoint) : bytes :=
  message ++ concat (map compress keys).

(** [v[i] = x] for [i] in range. *)
Fixpoint set_nth {A} (i : nat) (x : A) (l : list A) : list A :=
  match l, i with
  | [], _ => []
  | _ :: l', O => x :: l'
  | y :: l', S i' => y :: set_nth i' x l'
  end.

(** One round of the loop of [Signature::sign]. *)
Definition sign_round (initial_hash : bytes) (ring : list RistrettoPoint)
  (responses : list Scalar) (n my_key_index : nat)
  (st : list Scalar * RistrettoPoint) (offset_from_my_key : nat)
  : list Scalar * RistrettoPoint :=
  let '(cs, next_hash_update) := st in
  let index := (my_key_index + offset_from_my_key) mod n in
  let cs := set_nth index (scalar_from_hash (initial_hash ++ compress next_hash_update)) cs in
  (cs, point_add (mul_base (nth index responses 0%Z))
                 (scalar_mul_point (nth index cs 0%Z) (nth index ring 0%Z))).

(** [Signature::sign].  [rng i] are the raw draws of the generator, in the order the code
    makes them: the [n] fake responses, then [a]. *)
Definition signature_sign (message : bytes) (my_private_value : Scalar)
  (other_public_keypoints : list RistrettoPoint) (rng : nat -> Z) : option Signature :=
  let my_public_keypoint := mul_base my_private_value in
  let ring_size := (length other_public_keypoints + 1)%nat in
  let ring := make_ring my_public_keypoint other_public_keypoints (fun k => k) in
  match binary_search_by_key (map compress ring) (compress my_public_keypoint) with
  | inr _ => None
  | inl my_key_index =>
      let responses := map (fun i => scalar_random (rng i)) (seq 0 ring_size) in
      let cs := repeat scalar_ZERO ring_size in
      let a := scalar_random (rng ring_size) in
      let initial_hash := hash_message_and_ring message ring in
      let '(cs, _) :=
        fold_left (sign_round initial_hash ring responses ring_size my_key_index)
          (seq 1 ring_size) (cs, mul_base a) in
      let responses :=
        set_nth my_key_index
          (scalar_sub a (scalar_mul (nth my_key_index cs 0%Z) my_private_value)) responses in
      Some {| challenge := nth 0 cs 0%Z; ring_responses := combine ring responses |}
  end.

(** One round of the loop of [Signature::verify]. *)
Definition verify_round (initial_hash : bytes) (reconstructed_challenge : Scalar)
  (kr : RistrettoPoint * Scalar) : Scalar :=
  let '(keypoint, response) := kr in
  scalar_from_hash (initial_hash ++ compress (point_add (mul_base response)
                                        (scalar_mul_point reconstructed_challenge keypoint))).

(** [Signature::verify] *)
Definition signature_verify (s : Signature) (message : bytes) : bool :=
  let initial_hash := hash_message_and_ring message (map fst (ring_responses s)) in
  let reconstructed_challenge :=
    fold_left (verify_round initial_hash) (ring_responses s) (challenge s) in
  Z.eqb (challenge s) reconstructed_challenge.

(** The points a run of [Signature::sign] hashes, as a sequence: [sag_point 0] is [a G],
    and round [s] (at index [(my_key_index + s) mod n]) turns [sag_point (s-1)] into the
    challenge [sag_challenge s] and then into [sag_point s]. *)
Fixpoint sag_point (initial_hash : bytes) (ring : list RistrettoPoint)
  (responses : list Scalar) (n my_key_index : nat) (a : Scalar) (s : nat) : RistrettoPoint :=
  match s with
  | O => mul_base a
  | S s' =>
      let index := (my_key_index + s) mod n in
      let c := scalar_from_hash
                 (initial_hash ++ compress (sag_point initial_hash ring responses n my_key_index a s')) in
      point_add (mul_base (nth index responses 0%Z)) (scalar_mul_point c (nth index ring 0%Z))
  end.

End Crypto.

Section Keys.
Context `{Primitives}.

(** [Identity::bytes_for_attestation] *)
Definition bytes_for_attestation (id : Identity) (kp : RistrettoPoint) : bytes :=
  attestation_banner ++ name id ++ [Byte.xff] ++ email id ++ compress kp.

(** [PublicKey::validate_attestation] *)
Definition validate_attestation (k : PublicKey) : bool :=
  match ring_responses (holder_attestation k) with
  | [(p, _)] =>
      Z.eqb p (keypoint k)
      && signature_verify (holder_attestation k) (bytes_for_attestation (holder k) (keypoint k))
  | _ => false
  end.

(** [PrivateKey::new]: the first draw is the key, the following ones feed the attestation. *)
Definition private_key_new (holder : Identity) (rng : nat -> Z) : option PrivateKey.t :=
  let key := scalar_random (rng O) in
  match signature_sign (bytes_for_attestation holder (mul_base key)) key []
          (fun i => rng (S i)) with
  | Some att => Some {| PrivateKey.holder := holder; PrivateKey.key := key;
                        PrivateKey.holder_attestation := att |}
  | None => None
  end.

(** [PrivateKey::public] ([PublicKey::from]) *)
Definition public (k : PrivateKey.t) : PublicKey :=
  {| holder := PrivateKey.holder k; version := ZebraOneBeta;
     keypoint := mul_base (PrivateKey.key k);
     holder_attestation := PrivateKey.holder_attestation k |}.

(** [SignedMessage::sign] *)
Definition signed_message_sign (message : bytes) (my_key : PrivateKey.t)
  (other_keys : list PublicKey) (rng : nat -> Z) : option SignedMessage.t :=
  let my_public_key := public my_key in
  let other_keys := filter (fun k => negb (PublicKey_eqb k my_public_key)) other_keys in
  match signature_sign message (PrivateKey.key my_key) (map keypoint other_keys) rng with
  | None => None
  | Some sig =>
      let ring := make_ring my_public_key other_keys keypoint in
      Some {| SignedMessage.message := message;
              SignedMessage.challenge := challenge sig;
              SignedMessage.ring :=
                map (fun '((_, s), p) => (p, s)) (combine (ring_responses sig) ring) |}
  end.

(** [SignedMessage::signature] *)
Definition signed_message_signature (m : SignedMessage.t) : Signature :=
  {| challenge := SignedMessage.challenge m;
     ring_responses := map (fun '(k, s) => (keypoint k, s)) (SignedMessage.ring m) |}.

(** [SignedMessage::verify] *)
Definition signed_message_verify (m : SignedMessage.t) : bool :=
  forallb (fun '(k, _) => validate_attestation k) (SignedMessage.ring m)
  && signature_verify (signed_message_signature m) (SignedMessage.message m).

End Keys.

(** ** Borsh *)

(** [String::from_utf8]: well-formed UTF-8 (no overlong forms, no surrogates, nothing past
    U+10FFFF). *)
Fixpoint utf8_valid (s : bytes) : bool :=
  let cont (b : byte) := ((128 <=? Byte.to_N b) && (Byte.to_N b <=? 191))%N in
  let within (b : byte) (lo hi : N) := ((lo <=? Byte.to_N b) && (Byte.to_N b <=? hi))%N in
  match s with
  | [] => true
  | a :: rest =>
      let v := Byte.to_N a in
      if (v <? 128)%N then utf8_valid rest
      else if ((194 <=? v) && (v <=? 223))%N then
        match rest with b :: r => cont b && utf8_valid r | _ => false end
      else if ((224 <=? v) && (v <=? 239))%N then
        match rest with
        | b :: c :: r =>
            (if (v =? 224)%N then within b 160%N 191%N
             else if (v =? 237)%N then within b 128%N 159%N else cont b)
            && cont c && utf8_valid r
        | _ => false
        end
      else if ((240 <=? v) && (v <=? 244))%N then
        match rest with
        | b :: c :: d :: r =>
            (if (v =? 240)%N then within b 144%N 191%N
             else if (v =? 244)%N then within b 128%N 143%N else cont b)
            && cont c && cont d && utf8_valid r
        | _ => false
        end
      else false
  end.

(** Serialization writes into a growing buffer and stops at the first error (a length that
    does not fit in a [u32]); a [Write] is the bytes written and whether it succeeded. *)
Definition Write : Type := (bytes * bool)%type.

Definition w_ok (b : bytes) : Write := (b, true).

Definition w_fail : Write := ([], false).

Definition w_then (w : Write) (k : Write) : Write :=
  let '(b, ok) := w in
  if ok then let '(b', ok') := k in (b ++ b', ok') else (b, false).

Infix ">>>" := w_then (at level 51, right associativity).

Definition U32_MAX : Z := (2 ^ 32 - 1)%Z.

(** The [u32] length prefix of a slice. *)
Definition ser_len (n : nat) : Write :=
  if (Z.of_nat n <=? U32_MAX)%Z then w_ok (le_bytes 4 (Z.of_nat n)) else w_fail.

(** [Vec<u8>], [String], [BoringAscii] *)
Definition ser_bytes (b : bytes) : Write := ser_len (length b) >>> w_ok b.

Definition ser_vec {A} (f : A -> Write) (l : list A) : Write :=
  ser_len (length l) >>> fold_right (fun x acc => f x >>> acc) (w_ok []) l.

(** Reading: a parser takes the remaining input; [None] is an [io::Error]. *)
Definition Parser (A : Type) : Type := bytes -> option (A * bytes).

Definition p_ret {A} (x : A) : Parser A := fun inp => Some (x, inp).

Definition p_fail {A} : Parser A := fun _ => None.

Definition p_bind {A B} (p : Parser A) (k : A -> Parser B) : Parser B :=
  fun inp => match p inp with Some (x, rest) => k x rest | None => None end.

Notation "x <-- p ;; k" := (p_bind p (fun x => k)) (at level 61, p at next level, right associativity).

Definition p_lift {A} (o : option A) : Parser A :=
  fun inp => match o with Some x => Some (x, inp) | None => None end.

Definition p_take (n : nat) : Parser bytes :=
  fun inp => if (n <=? length inp)%nat then Some (firstn n inp, skipn n inp) else None.

Definition p_u32 : Parser Z := b <-- p_take 4 ;; p_ret (le_value b).

Fixpoint p_repeat {A} (n : nat) (p : Parser A) : Parser (list A) :=
  match n with
  | O => p_ret []
  | S n' => x <-- p ;; xs <-- p_repeat n' p ;; p_ret (x :: xs)
  end.

Definition p_vec {A} (p : Parser A) : Parser (list A) :=
  len <-- p_u32 ;; p_repeat (Z.to_nat len) p.

Definition p_bytes : Parser bytes := len <-- p_u32 ;; p_take (Z.to_nat len).

Definition p_string : Parser bytes :=
  b <-- p_bytes ;; if utf8_valid b then p_ret b else p_fail.

Definition p_boring : Parser bytes := b <-- p_bytes ;; p_lift (boring_from_bytes b).

Section Borsh.
Context `{Primitives}.

Definition ser_point (p : RistrettoPoint) : Write := w_ok (compress p).
Definition ser_scalar (s : Scalar) : Write := w_ok (scalar_as_bytes s).

Definition ser_signature (s : Signature) : Write :=
  ser_scalar (challenge s)
  >>> ser_vec (fun '(p, r) => ser_point p >>> ser_scalar r) (ring_responses s).

Definition ser_identity (id : Identity) : Write := ser_bytes (name id) >>> ser_bytes (email id).

(** [#[borsh(use_discriminant = true)]]: [ZebraOneBeta] is the byte 0. *)
Definition ser_version (v : ZebraVersion) : Write := w_ok [Byte.x00].

(** The derived [BorshSerialize] of [PublicKey]: its fields in declaration order. *)
Definition ser_public_key (k : PublicKey) : Write :=
  ser_identity (holder k) >>> ser_version (version k) >>> ser_point (keypoint k)
  >>> ser_signature (holder_attestation k).

(** [(Scalar, Vec<(PublicKey, Scalar)>)] *)
Definition ser_signed_payload (c : Scalar) (ring : list (PublicKey * Scalar)) : Write :=
  ser_scalar c >>> ser_vec (fun '(k, s) => ser_public_key k >>> ser_scalar s) ring.

Definition p_point : Parser RistrettoPoint := b <-- p_take 32 ;; p_lift (decompress b).
Definition p_scalar : Parser Scalar := b <-- p_take 32 ;; p_lift (scalar_from_canonical_bytes b).

Definition p_signature : Parser Signature :=
  c <-- p_scalar ;;
  rr <-- p_vec (p <-- p_point ;; r <-- p_scalar ;; p_ret (p, r)) ;;
  p_ret {| challenge := c; ring_responses := rr |}.

(** The hand-written [BorshDeserialize] of [Identity]: [Identity::new] checks the fields. *)
Definition p_identity : Parser Identity :=
  n <-- p_string ;; e <-- p_boring ;; p_lift (identity_new n e).

Definition p_version : Parser ZebraVersion :=
  b <-- p_take 1 ;; if list_eq_dec Byte.byte_eq_dec b [Byte.x00] then p_ret ZebraOneBeta else p_fail.

Definition p_public_key : Parser PublicKey :=
  id <-- p_identity ;; v <-- p_version ;; kp <-- p_point ;; att <-- p_signature ;;
  p_ret {| holder := id; version := v; keypoint := kp; holder_attestation := att |}.

Definition p_signed_payload : Parser (Scalar * list (PublicKey * Scalar)) :=
  c <-- p_scalar ;; ring <-- p_vec (k <-- p_public_key ;; s <-- p_scalar ;; p_ret (k, s)) ;;
  p_ret (c, ring).

End Borsh.

(** ** The ASCII formats *)

Definition bytes_eqb (a b : bytes) : bool :=
  if list_eq_dec Byte.byte_eq_dec a b then true else false.

(** A panic, an [Err] or a value. *)
Inductive outcome (A : Type) : Type :=
| ok (a : A)
| parse_error
| panic.
Arguments ok {A} a.
Arguments parse_error {A}.
Arguments panic {A}.

Definition quote : byte := Byte.x22.
Definition newline : byte := Byte.x0a.
Definition space : byte := Byte.x20.

Definition SIGNED_MESSAGE_FIRST_LINE : bytes :=
  bs "The following message has been signed using ZebraSign 1.0 Beta:".
Definition SIGNED_MESSAGE_SECOND_LINE : bytes := [quote; quote; quote].
Definition SIGNED_MESSAGE_INFIX_FIRST_LINE : bytes := [quote; quote; quote].
Definition SIGNED_MESSAGE_INFIX_SECOND_LINE : bytes := [].
Definition SIGNED_MESSAGE_INFIX_THIRD_LINE : bytes :=
  bs "It was signed by someone with a private key corresponding to one of these fingerprints:".
Definition SIGNED_MESSAGE_INFIX_FOURTH_LINE : bytes := [].
Definition SIGNED_MESSAGE_SUFFIX_FIRST_LINE : bytes := [].
Definition SIGNED_MESSAGE_SUFFIX_SECOND_LINE : bytes :=
  bs "To verify this signature, paste this entire message into the ZebraSign app (starting with "
  ++ [quote] ++ bs "The following message" ++ [quote] ++ bs " and ending with this line).".

Section Ascii.
Context `{Primitives}.

(** [PublicKey::fingerprint].  The serialization error is ignored ([let _ =]), so the
    buffer is whatever was written.  The z85 alphabet is ASCII, so the [char]s of the encoded
    string are its bytes. *)
Definition fingerprint (k : PublicKey) : option bytes :=
  let buffer := fst (ser_public_key k) in
  let res := z85_encode (sha3_256 buffer) in
  match vec_insert 30 space res with
  | None => None
  | Some res =>
      match vec_insert 20 space res with
      | None => None
      | Some res => vec_insert 10 space res
      end
  end.

(** [impl From<PublicKey> for String]; the [expect] is a panic ([None]). *)
Definition public_key_to_string (k : PublicKey) : option bytes :=
  let '(buffer, success) := ser_signature (holder_attestation k) in
  if success then
    Some (bs "[" ++ name (holder k) ++ bs " <" ++ email (holder k) ++ bs "> <" ++ ZEBRA_ONE_BETA
          ++ bs "> " ++ hex_encode_upper (compress (keypoint k)) ++ bs " "
          ++ hex_encode_upper buffer ++ bs "]")
  else None.

(** The regex of [FromStr], built by [format!] from [ZEBRA_ONE_BETA]: a ['['], the name
    (characters other than a newline, greedy), [" <"], the email (bytes 33 to 126), the
    banner ["> <ZebraSign 1.0 Beta> "] in which the unescaped [.] matches any one character
    other than a newline, 64 upper-case hex digits, a space, 200 upper-case hex digits and
    [']'], anchored at both ends.  Everything after the email has a fixed length once the
    length [L] of the character matched by [.] is known (288 + [L] bytes), so the email ends
    there; the greedy name is the longest prefix that leaves [" <"] and an email of printable
    bytes. *)
Definition is_upper_hex (c : byte) : bool :=
  let v := Byte.to_N c in ((48 <=? v) && (v <=? 57) || (65 <=? v) && (v <=? 70))%N.

Definition is_printable (c : byte) : bool :=
  let v := Byte.to_N c in ((33 <=? v) && (v <=? 126))%N.

(** The length of the UTF-8 sequence a byte leads (0 for a byte that leads none). *)
Definition utf8_char_len (b : byte) : nat :=
  let v := Byte.to_N b in
  if (v <? 128)%N then 1
  else if ((194 <=? v) && (v <=? 223))%N then 2
  else if ((224 <=? v) && (v <=? 239))%N then 3
  else if ((240 <=? v) && (v <=? 244))%N then 4
  else 0.

(** The regex [.]: one character, not a newline. *)
Definition regex_any_char (c : bytes) : bool :=
  match c with
  | [] => false
  | b :: _ => (length c =? utf8_char_len b)%nat && utf8_valid c && negb (bytes_eqb c [newline])
  end.

(** The 274 bytes after the [.]: ["0 Beta> "], the two hex captures, the space and [']']. *)
Definition pk_regex_tail (t : bytes) : option (bytes * bytes) :=
  let kh := firstn 64 (skipn 8 t) in
  let ah := firstn 200 (skipn 73 t) in
  if (length t =? 274)%nat
     && bytes_eqb (firstn 8 t) (bs "0 Beta> ")
     && forallb is_upper_hex kh
     && bytes_eqb (firstn 1 (skipn 72 t)) (bs " ")
     && forallb is_upper_hex ah
     && bytes_eqb (skipn 273 t) (bs "]")
  then Some (kh, ah) else None.

Definition pk_regex_split (core : bytes) (i : nat) : option (bytes * bytes) :=
  let nm := firstn i core in
  match skipn i core with
  | c1 :: c2 :: em =>
      if Byte.eqb c1 space && Byte.eqb c2 (Byte.x3c)
         && forallb (fun b => negb (Byte.eqb b newline)) nm && forallb is_printable em
      then Some (nm, em) else None
  | _ => None
  end.

(** The name lengths [i], [i - 1], ..., [0], longest first. *)
Fixpoint pk_regex_first_split (core : bytes) (i : nat) : option (bytes * bytes) :=
  match pk_regex_split core i with
  | Some r => Some r
  | None => match i with O => None | S j => pk_regex_first_split core j end
  end.

(** A match of everything after the ['['] in which [.] matches [L] bytes. *)
Definition pk_regex_with (L : nat) (body : bytes) : option (bytes * bytes * bytes * bytes) :=
  let n := length body in
  if (288 + L <=? n)%nat then
    let core := firstn (n - (288 + L)) body in
    let banner := firstn 14 (skipn (n - (288 + L)) body) in
    let c := firstn L (skipn (n - (274 + L)) body) in
    if bytes_eqb banner (bs "> <ZebraSign 1") && regex_any_char c then
      match pk_regex_tail (skipn (n - 274) body), pk_regex_first_split core (length core) with
      | Some (kh, ah), Some (nm, em) => Some (nm, em, kh, ah)
      | _, _ => None
      end
    else None
  else None.

Fixpoint first_some {A} (l : list (option A)) : option A :=
  match l with
  | [] => None
  | Some x :: _ => Some x
  | None :: rest => first_some rest
  end.

(** The captures (name, email, keypoint hex, attestation hex) of the anchored match.  On a
    [&str] (UTF-8) at most one [L] leaves a whole character before the tail. *)
Definition pk_regex (s : bytes) : option (bytes * bytes * bytes * bytes) :=
  match s with
  | c :: body =>
      if Byte.eqb c (Byte.x5b) then first_some (map (fun L => pk_regex_with L body) [1; 2; 3; 4])
      else None
  | [] => None
  end.

(** [impl FromStr for PublicKey]; [Err(())] is [None].  The regex is a constant that
    compiles, and an anchored match spans the whole input, so the length check after
    [captures_iter] always passes. *)
Definition public_key_from_str (s : bytes) : option PublicKey :=
  match pk_regex s with
  | None => None
  | Some (nm, em, kh, ah) =>
      match identity_new nm em, hex_decode kh, hex_decode ah with
      | Some id, Some kp, Some att =>
          if (length kp =? 32)%nat then
            match decompress kp, p_signature att with
            | Some kp, Some (att, _) =>
                let res := {| holder := id; version := ZebraOneBeta; keypoint := kp;
                              holder_attestation := att |} in
                if validate_attestation res then Some res else None
            | _, _ => None
            end
          else None
      | _, _, _ => None
      end
  end.

(** The identity line of a ring member: ["{} <{}> {}"] with name, email and fingerprint. *)
Definition ring_line (k : PublicKey) : option bytes :=
  match fingerprint k with
  | Some fp => Some (name (holder k) ++ bs " <" ++ email (holder k) ++ bs "> " ++ fp)
  | None => None
  end.

Fixpoint ring_lines (ring : list (PublicKey * Scalar)) : option (list bytes) :=
  match ring with
  | [] => Some []
  | (k, _) :: rest =>
      match ring_line k, ring_lines rest with
      | Some l, Some ls => Some (l :: ls)
      | _, _ => None
      end
  end.

(** [impl From<&SignedMessage> for String]; the [expect]s and a panicking fingerprint are
    [None]. *)
Definition signed_message_to_string (m : SignedMessage.t) : option bytes :=
  match ring_lines (SignedMessage.ring m),
        ser_signed_payload (SignedMessage.challenge m) (SignedMessage.ring m) with
  | Some ids, (signature_bytes, true) =>
      Some (join [newline]
              ([SIGNED_MESSAGE_FIRST_LINE; SIGNED_MESSAGE_SECOND_LINE; SignedMessage.message m;
                SIGNED_MESSAGE_INFIX_FIRST_LINE; SIGNED_MESSAGE_INFIX_SECOND_LINE;
                SIGNED_MESSAGE_INFIX_THIRD_LINE; SIGNED_MESSAGE_INFIX_FOURTH_LINE]
               ++ ids
               ++ [[]; z85_encode signature_bytes; SIGNED_MESSAGE_SUFFIX_FIRST_LINE;
                   SIGNED_MESSAGE_SUFFIX_SECOND_LINE]))
  | _, _ => None
  end.

(** The loop over [ring.iter().rev().enumerate()]: signer [i] from the end is compared with
    line [len - 5 - i]; an index below 0 panics. *)
Fixpoint check_ring_lines (lines : list bytes) (i : nat) (signers : list PublicKey)
  : outcome unit :=
  match signers with
  | [] => ok tt
  | k :: rest =>
      if (length lines <? 5 + i)%nat then panic
      else match ring_line k with
           | None => panic
           | Some l =>
               if bytes_eqb (nth (length lines - 5 - i) lines []) l
               then check_ring_lines lines (S i) rest
               else parse_error
           end
  end.

(** [impl FromStr for SignedMessage].  The four infix comparisons are evaluated left to
    right and stop at the first mismatch; each index [len - 5 - N - j] panics below 0, and
    so does the slice [2..len - 5 - N - 3] when its end is below 2. *)
Definition signed_message_from_str (s : bytes) : outcome SignedMessage.t :=
  let lines := split_on newline (trim s) in
  let len := length lines in
  let line i := nth i lines [] in
  if (len <? 12)%nat then parse_error
  else if negb (bytes_eqb (line 0%nat) SIGNED_MESSAGE_FIRST_LINE)
          || negb (bytes_eqb (line 1%nat) SIGNED_MESSAGE_SECOND_LINE) then parse_error
  else if negb (bytes_eqb (line (len - 1)%nat) SIGNED_MESSAGE_SUFFIX_SECOND_LINE)
          || negb (bytes_eqb (line (len - 2)%nat) SIGNED_MESSAGE_SUFFIX_FIRST_LINE)
          || negb (bytes_eqb (line (len - 4)%nat) []) then parse_error
  else match z85_decode (line (len - 3)%nat) with
  | None => parse_error
  | Some signature_bytes =>
      match p_signed_payload signature_bytes with
      | None => parse_error
      | Some ((challenge, ring), _) =>
          match check_ring_lines lines 0 (rev (map fst ring)) with
          | panic => panic
          | parse_error => parse_error
          | ok _ =>
              let n := length ring in
              if (len <? 5 + n)%nat then panic
              else let base := (len - 5 - n)%nat in
              if negb (bytes_eqb (line base) SIGNED_MESSAGE_INFIX_FOURTH_LINE) then parse_error
              else if (base <? 1)%nat then panic
              else if negb (bytes_eqb (line (base - 1)%nat) SIGNED_MESSAGE_INFIX_THIRD_LINE)
              then parse_error
              else if (base <? 2)%nat then panic
              else if negb (bytes_eqb (line (base - 2)%nat) SIGNED_MESSAGE_INFIX_SECOND_LINE)
              then parse_error
              else if (base <? 3)%nat then panic
              else if negb (bytes_eqb (line (base - 3)%nat) SIGNED_MESSAGE_INFIX_FIRST_LINE)
              then parse_error
              else if (base - 3 <? 2)%nat then panic
              else ok {| SignedMessage.message :=
                           join [newline] (firstn (base - 3 - 2) (skipn 2 lines));
                         SignedMessage.challenge := challenge;
                         SignedMessage.ring := ring |}
          end
      end
  end.

End Ascii.

(** ** The storage ([spartacus_storage]; [zebra_storage]'s [dbfile_utils] is the same code) *)

(** A [PathBuf] as the list of its components, all of them normal file names: the
    operations below only look at the last one. *)
Definition Path := list bytes.

Definition dot : byte := Byte.x2e.

Definition path_eqb (p q : Path) : bool :=
  if list_eq_dec (list_eq_dec Byte.byte_eq_dec) p q then true else false.

(** [s.rsplitn(2, |b| *b == b'.')]: the bytes before the last dot and those after it. *)
Fixpoint split_last_dot (s : bytes) : option (bytes * bytes) :=
  match s with
  | [] => None
  | c :: s' =>
      match split_last_dot s' with
      | Some (before, after) => Some (c :: before, after)
      | None => if Byte.eqb c dot then Some ([], s') else None
      end
  end.

(** [rsplit_file_at_dot] of the standard library: [..] has no extension, nor has a name whose
    only dot is its first byte. *)
Definition rsplit_file_at_dot (file : bytes) : option bytes * option bytes :=
  if bytes_eqb file [dot; dot] then (Some file, None)
  else match split_last_dot file with
       | None => (None, Some file)
       | Some (before, after) =>
           if bytes_eqb before [] then (Some file, None) else (Some before, Some after)
       end.

(** [Path::file_name] *)
Definition file_name (p : Path) : option bytes :=
  match rev p with
  | [] => None
  | file :: _ => Some file
  end.

(** [Path::file_stem]: [before.or(after)]. *)
Definition file_stem (p : Path) : option bytes :=
  match file_name p with
  | None => None
  | Some file =>
      match rsplit_file_at_dot file with
      | (Some before, _) => Some before
      | (None, after) => after
      end
  end.

(** [Path::with_extension] ([PathBuf::set_extension]): the path is cut right after the stem of
    its file name, then [.extension] is added unless the extension is empty; without a file
    name the path is unchanged. *)
Definition with_extension (p : Path) (extension : bytes) : Path :=
  match file_stem p with
  | None => p
  | Some stem =>
      removelast p ++ [stem ++ (if bytes_eqb extension [] then [] else dot :: extension)]
  end.

(** [lockfile_path] *)
Definition lockfile_path (p : Path) : Path := with_extension p (bs "lock").

(** [default_db_path] of [zebra_storage], under the application directory [app_dir]. *)
Definition default_db_path (app_dir : Path) : Path := app_dir ++ [bs "zebra_db.age"].

(** [VerificationInfo]: the unix time of the verification, [None] if unverified. *)
Record VerificationInfo := { verified_date : option Z }.

(** [VerificationInfo::unverified] *)
Definition verification_unverified : VerificationInfo := {| verified_date := None |}.

(** A [BTreeMap<PublicKey, V>] as an association list with distinct keys; only its lookups
    are observed. *)
Definition map_remove {V} (k : PublicKey) (m : list (PublicKey * V)) : list (PublicKey * V) :=
  filter (fun kv => negb (PublicKey_eqb (fst kv) k)) m.

Definition map_insert {V} (k : PublicKey) (v : V) (m : list (PublicKey * V))
  : list (PublicKey * V) :=
  (k, v) :: map_remove k m.

Definition map_get {V} (k : PublicKey) (m : list (PublicKey * V)) : option V :=
  option_map snd (find (fun kv => PublicKey_eqb (fst kv) k) m).

(** [BTreeMap::extend]: the pairs are inserted in order. *)
Definition map_extend {V} (m : list (PublicKey * V)) (kvs : list (PublicKey * V))
  : list (PublicKey * V) :=
  fold_left (fun m kv => map_insert (fst kv) (snd kv) m) kvs m.

Record DatabaseContentsV0 := {
  private_keys : list (PublicKey * PrivateKey.t);
  public_keys : list (PublicKey * VerificationInfo)
}.

Definition contents_default : DatabaseContentsV0 := {| private_keys := []; public_keys := [] |}.

Record VisibleDatabaseContents := {
  my_public_keys : list PublicKey;
  their_public_keys : list (PublicKey * VerificationInfo)
}.

(** [DatabaseContentsV0::get_visible] *)
Definition get_visible (c : DatabaseContentsV0) : VisibleDatabaseContents :=
  {| my_public_keys := map fst (private_keys c); their_public_keys := public_keys c |}.

(** [Database]; the lock it holds through [_lockedfile] is recorded in the world. *)
Record Database := {
  db_path : Path;
  visible_contents : VisibleDatabaseContents
}.

(** The world outside a database handle: the database file (the contents it encrypts, [None]
    while it is empty), the lock files held, the passphrase in the keychain, the clock, and an
    oracle [io_fails n] telling whether the [n]-th fallible system call fails; [io_calls]
    counts the calls made. *)
Record World := {
  db_file : option DatabaseContentsV0;
  locked : list Path;
  keychain : bytes;
  clock : Z;
  io_fails : nat -> bool;
  io_calls : nat
}.

(** [std::io::Result], and a panic. *)
Inductive result (A : Type) := Ok (a : A) | Err | Panic.
Arguments Ok {A} a.
Arguments Err {A}.
Arguments Panic {A}.

Definition IO (A : Type) : Type := World -> result A * World.

Definition io_ret {A} (a : A) : IO A := fun w => (Ok a, w).

(** The [?] operator. *)
Definition io_bind {A B} (m : IO A) (k : A -> IO B) : IO B :=
  fun w => match m w with
           | (Ok a, w') => k a w'
           | (Err, w') => (Err, w')
           | (Panic, w') => (Panic, w')
           end.

Notation "x <~ m ;; k" := (io_bind m (fun x => k)) (at level 61, m at next level, right associativity).

(** A fallible system call. *)
Definition syscall : IO unit :=
  fun w =>
    let w' := {| db_file := db_file w; locked := locked w; keychain := keychain w;
                 clock := clock w; io_fails := io_fails w; io_calls := S (io_calls w) |} in
    if io_fails w (io_calls w) then (Err, w') else (Ok tt, w').

Definition read_db_file : IO (option DatabaseContentsV0) := fun w => (Ok (db_file w), w).

Definition write_db_file (c : option DatabaseContentsV0) : IO unit :=
  fun w => (Ok tt, {| db_file := c; locked := locked w; keychain := keychain w;
                      clock := clock w; io_fails := io_fails w; io_calls := io_calls w |}).

(** [File::try_lock_exclusive]: it fails if the lock is held. *)
Definition try_lock_exclusive (p : Path) : IO unit :=
  _ <~ syscall ;;
  fun w =>
    if existsb (path_eqb p) (locked w) then (Err, w)
    else (Ok tt, {| db_file := db_file w; locked := p :: locked w; keychain := keychain w;
                    clock := clock w; io_fails := io_fails w; io_calls := io_calls w |}).

(** [OffsetDateTime::now_utc().unix_timestamp()] *)
Definition now : IO Z := fun w => (Ok (clock w), w).

(** [get_or_create_db_key]: the keychain entry (created on first use). *)
Definition get_or_create_db_key : IO bytes :=
  _ <~ syscall ;; fun w => (Ok (keychain w), w).

(** [Database::get_contents]: an empty file reads as the default contents; decryption,
    reading and deserialization are fallible calls. *)
Definition get_contents : IO (DatabaseContentsV0 * bytes) :=
  pw <~ get_or_create_db_key ;;
  _ <~ syscall (* OpenOptions::open *) ;;
  _ <~ syscall (* File::metadata *) ;;
  f <~ read_db_file ;;
  match f with
  | None => io_ret (contents_default, pw)
  | Some c =>
      _ <~ syscall (* age::Decryptor::new, decrypt *) ;;
      _ <~ syscall (* read_to_end *) ;;
      _ <~ syscall (* BorshDeserialize::deserialize *) ;;
      io_ret (c, pw)
  end.

(** [Database::new] *)
Definition database_new (path : Path) : IO Database :=
  _ <~ (match path with [] => io_ret tt | _ => syscall (* create_dir_all of the parent *) end) ;;
  _ <~ syscall (* OpenOptions::open of the lock file *) ;;
  _ <~ try_lock_exclusive (lockfile_path path) ;;
  c <~ get_contents ;;
  io_ret {| db_path := path; visible_contents := get_visible (fst c) |}.

(** The methods taking [&mut self]: the handle and the world are threaded together. *)
Definition St (A : Type) : Type := Database * World -> result A * (Database * World).

Definition st_bind {A B} (m : St A) (k : A -> St B) : St B :=
  fun s => match m s with
           | (Ok a, s') => k a s'
           | (Err, s') => (Err, s')
           | (Panic, s') => (Panic, s')
           end.

Notation "x <- m ;; k" := (st_bind m (fun x => k)) (at level 61, m at next level, right associativity).

Definition lift {A} (m : IO A) : St A :=
  fun s => let '(r, w') := m (snd s) in (r, (fst s, w')).

Definition st_err {A} : St A := fun s => (Err, s).
Definition st_panic {A} : St A := fun s => (Panic, s).

(** [self.visible_contents = v] *)
Definition set_visible (v : VisibleDatabaseContents) : St unit :=
  fun s => (Ok tt, ({| db_path := db_path (fst s); visible_contents := v |}, snd s)).

(** [NamedTempFile::persist]: the temporary file replaces the database file. *)
Definition persist (c : DatabaseContentsV0) : IO unit :=
  _ <~ syscall ;; write_db_file (Some c).

(** [Database::write_contents]; the encryption under [pw] is not modelled. *)
Definition write_contents (db : DatabaseContentsV0) (pw : bytes) : St unit :=
  let result_vis := get_visible db in
  _ <- lift syscall (* serialize *) ;;
  _ <- lift syscall (* NamedTempFile::new *) ;;
  _ <- lift syscall (* Encryptor::wrap_output *) ;;
  _ <- lift syscall (* write_all *) ;;
  _ <- lift syscall (* finish *) ;;
  _ <- lift (persist db) ;;
  _ <- lift syscall (* sync_all *) ;;
  set_visible result_vis.

Section Methods.
Context `{Primitives}.

Definition set_verified (public_key : PublicKey) : St unit :=
  cp <- lift get_contents ;;
  t <- lift now ;;
  let '(c, pw) := cp in
  write_contents {| private_keys := private_keys c;
                    public_keys := map_insert public_key {| verified_date := Some t |}
                                     (public_keys c) |} pw.

Definition set_unverified (public_key : PublicKey) : St unit :=
  cp <- lift get_contents ;;
  let '(c, pw) := cp in
  write_contents {| private_keys := private_keys c;
                    public_keys := map_insert public_key verification_unverified
                                     (public_keys c) |} pw.

Definition add_public_keys (ks : list PublicKey) : St unit :=
  cp <- lift get_contents ;;
  let '(c, pw) := cp in
  write_contents {| private_keys := private_keys c;
                    public_keys := map_extend (public_keys c)
                                     (map (fun k => (k, verification_unverified)) ks) |} pw.

Definition delete_public_key (key : PublicKey) : St unit :=
  cp <- lift get_contents ;;
  let '(c, pw) := cp in
  write_contents {| private_keys := private_keys c;
                    public_keys := map_remove key (public_keys c) |} pw.

Definition import_private_key (key : PrivateKey.t) : St unit :=
  cp <- lift get_contents ;;
  let '(c, pw) := cp in
  write_contents {| private_keys := map_insert (public key) key (private_keys c);
                    public_keys := public_keys c |} pw.

(** [new_private_key]; [rng] are the draws of [PrivateKey::new]. *)
Definition new_private_key (name email : bytes) (rng : nat -> Z) : St unit :=
  match identity_new name email with
  | None => st_err
  | Some identity =>
      match private_key_new identity rng with
      | None => st_panic
      | Some key => import_private_key key
      end
  end.

Definition delete_private_key (public_key : PublicKey) : St unit :=
  cp <- lift get_contents ;;
  let '(c, pw) := cp in
  write_contents {| private_keys := map_remove public_key (private_keys c);
                    public_keys := public_keys c |} pw.

End Methods.

(** The seven mutations of a database. *)
Inductive Mutation :=
| NewPrivateKey (name email : bytes) (rng : nat -> Z)
| ImportPrivateKey (key : PrivateKey.t)
| DeletePrivateKey (public_key : PublicKey)
| AddPublicKeys (public_keys : list PublicKey)
| DeletePublicKey (key : PublicKey)
| SetVerified (public_key : PublicKey)
| SetUnverified (public_key : PublicKey).

Definition mutate `{Primitives} (m : Mutation) : St unit :=
  match m with
  | NewPrivateKey n e rng => new_private_key n e rng
  | ImportPrivateKey key => import_private_key key
  | DeletePrivateKey k => delete_private_key k
  | AddPublicKeys ks => add_public_keys ks
  | DeletePublicKey k => delete_public_key k
  | SetVerified k => set_verified k
  | SetUnverified k => set_unverified k
  end.

(** [VerificationInfo::is_verified] *)
Definition is_verified (v : VerificationInfo) : bool :=
  match verified_date v with
  | Some _ => true
  | None => false
  end.

Definition st_ret {A} (a : A) : St A := fun s => (Ok a, s).

(** [Database::export_private_key]: the key stored under [public_key]; a missing key is an
    error. *)
Definition export_private_key (public_key : PublicKey) : St PrivateKey.t :=
  cp <- lift get_contents ;;
  let '(contents, _) := cp in
  match map_get public_key (private_keys contents) with
  | None => st_err
  | Some k => st_ret k
  end.

(** [Database::sign]: the private key stored under [my_key_index] signs the message; a missing
    key is an error.  [rng] are the draws of [SignedMessage::sign]. *)
Definition database_sign `{Primitives} (message : bytes) (my_key_index : PublicKey)
  (other_keys : list PublicKey) (rng : nat -> Z) : St SignedMessage.t :=
  cp <- lift get_contents ;;
  let '(contents, _) := cp in
  match map_get my_key_index (private_keys contents) with
  | None => st_err
  | Some my_key =>
      match signed_message_sign message my_key other_keys rng with
      | Some m => st_ret m
      | None => st_panic
      end
  end.

(** ** A reference instance of the primitives, used to run the model on concrete inputs.
    Points are encoded as 32 little-endian bytes of their discrete logarithm; the digests
    are stand-ins of the right length. *)
Definition ref_decompress (b : bytes) : option RistrettoPoint :=
  if (length b =? 32)%nat && (le_value b <? ell)%Z then Some (le_value b) else None.

(** A base-85 stand-in for z85: each 4-byte group (read little-endian) becomes 5 digits, a
    final group of [n < 4] bytes becomes [n + 1] digits, and digit [d] is the byte [35 + d]. *)
Fixpoint digits85 (k : nat) (v : Z) : list Z :=
  match k with
  | O => []
  | S k' => (v mod 85)%Z :: digits85 k' (v / 85)%Z
  end.

Fixpoint undigits85 (l : list Z) : Z :=
  match l with
  | [] => 0%Z
  | d :: r => (d + 85 * undigits85 r)%Z
  end.

Definition digit_chars (k : nat) (v : Z) : bytes :=
  map (fun d => byte_of_Z (35 + d)) (digits85 k v).

Fixpoint ref_z85_encode (b : bytes) : bytes :=
  match b with
  | x1 :: x2 :: x3 :: x4 :: rest =>
      digit_chars 5 (le_value [x1; x2; x3; x4]) ++ ref_z85_encode rest
  | [] => []
  | tail => digit_chars (S (length tail)) (le_value tail)
  end.

Definition char_digit (c : byte) : option Z :=
  let d := (Z_of_byte c - 35)%Z in
  if (0 <=? d)%Z && (d <? 85)%Z then Some d else None.

Fixpoint char_digits (cs : bytes) : option (list Z) :=
  match cs with
  | [] => Some []
  | c :: r =>
      match char_digit c, char_digits r with
      | Some d, Some ds => Some (d :: ds)
      | _, _ => None
      end
  end.

(** The [n] bytes of a group of [n + 1] digits. *)
Definition decode_group (cs : bytes) (n : nat) : option bytes :=
  match char_digits cs with
  | Some ds =>
      let v := undigits85 ds in
      if (v <? 256 ^ Z.of_nat n)%Z then Some (le_bytes n v) else None
  | None => None
  end.

Fixpoint ref_z85_decode (s : bytes) : option bytes :=
  match s with
  | c1 :: c2 :: c3 :: c4 :: c5 :: rest =>
      match decode_group [c1; c2; c3; c4; c5] 4, ref_z85_decode rest with
      | Some g, Some r => Some (g ++ r)
      | _, _ => None
      end
  | [] => Some []
  | [_] => None
  | tail => decode_group tail (pred (length tail))
  end.

#[local] Instance ref_primitives : Primitives := {|
  compress := le_bytes 32;
  decompress := ref_decompress;
  sha3_512 := fun b => le_bytes 64 (le_value b * 7919 + 17)%Z;
  sha3_256 := fun b => le_bytes 32 (le_value b * 104729 + 5)%Z;
  z85_encode := ref_z85_encode;
  z85_decode := ref_z85_decode
|}.

(** Sample inputs for running the model. *)
Definition sample_identity (n e : string) : Identity := {| name := bs n; email := bs e |}.

Definition sample_private_key (holder : Identity) (seed : Z) : PrivateKey.t :=
  match @private_key_new ref_primitives holder (fun i => (seed * 1000003 + Z.of_nat i)%Z) with
  | Some pk => pk
  | None => {| PrivateKey.holder := holder; PrivateKey.key := 0%Z;
               PrivateKey.holder_attestation := {| challenge := 0%Z; ring_responses := [] |} |}
  end.

(** A world where no system call fails, holding the given database file. *)
Definition sample_world (file : option DatabaseContentsV0) : World :=
  {| db_file := file; locked := []; keychain := bs "passphrase"; clock := 9%Z;
     io_fails := fun _ => false; io_calls := 0 |}.

(** A handle on [zebra_db.age] with an empty view. *)
Definition sample_database : Database :=
  {| db_path := [bs "zebra_db.age"];
     visible_contents := {| my_public_keys := []; their_public_keys := [] |} |}.

(** * Laws of the primitives *)

(** [decompress] inverts [compress] on the group, and encodings have 32 bytes. *)
Class RistrettoLaws `{Primitives} : Prop := {
  decompress_compress : forall p, (0 <= p < ell)%Z -> decompress (compress p) = Some p;
  compress_length : forall p, length (compress p) = 32%nat
}.

(** SHA3-256 digests have 32 bytes; z85 turns every 4 bytes into 5 printable characters,
    and decoding inverts encoding. *)
Class CodecLaws `{Primitives} : Prop := {
  sha3_256_length : forall b, length (sha3_256 b) = 32%nat;
  z85_encode_length : forall b, (length b mod 4 = 0)%nat ->
    length (z85_encode b) = (5 * (length b / 4))%nat;
  z85_decode_encode : forall b, z85_decode (z85_encode b) = Some b;
  z85_encode_printable : forall b, forallb is_printable (z85_encode b) = true
}.

(** The fingerprint as the specification describes its preimage: the version first, then
    the identity, the keypoint and the attestation. *)
Definition fingerprint_preimage_spec_order `{Primitives} (k : PublicKey) : Write :=
  ser_version (version k) >>> ser_identity (holder k) >>> ser_point (keypoint k)
  >>> ser_signature (holder_attestation k).

Definition fingerprint_spec_order `{Primitives} (k : PublicKey) : option bytes :=
  let res := z85_encode (sha3_256 (fst (fingerprint_preimage_spec_order k))) in
  match vec_insert 30 space res with
  | None => None
  | Some res =>
      match vec_insert 20 space res with
      | None => None
      | Some res => vec_insert 10 space res
      end
  end.

(** The values of [Scalar] and [RistrettoPoint] are the residues modulo [ell]: a Rust scalar
    is canonical, and a point is a group element. *)
Definition signature_in_range (s : Signature) : Prop :=
  (0 <= challenge s < ell)%Z
  /\ Forall (fun pr => (0 <= fst pr < ell)%Z /\ (0 <= snd pr < ell)%Z) (ring_responses s).

(** The bytes of a serialized signature. *)
Definition signature_bytes `{Primitives} (s : Signature) : bytes :=
  scalar_as_bytes (challenge s) ++ le_bytes 4 (Z.of_nat (length (ring_responses s)))
  ++ flat_map (fun pr => compress (fst pr) ++ scalar_as_bytes (snd pr)) (ring_responses s).

(** A valid [Identity]: as [Identity::new] makes it, its name a UTF-8 [String], and both
    fields short enough for their [u32] length prefixes. *)
Definition identity_wf (id : Identity) : Prop :=
  identity_new (name id) (email id) = Some id /\ utf8_valid (name id) = true
  /\ (Z.of_nat (length (name id)) <= U32_MAX)%Z /\ (Z.of_nat (length (email id)) <= U32_MAX)%Z.

(** A valid [PublicKey]: a valid holder, and values of their types. *)
Definition public_key_wf (k : PublicKey) : Prop :=
  identity_wf (holder k) /\ (0 <= keypoint k < ell)%Z /\ signature_in_range (holder_attestation k)
  /\ (Z.of_nat (length (ring_responses (holder_attestation k))) <= U32_MAX)%Z.

(** The bytes of a serialized public key, and of the payload of a signed message. *)
Definition public_key_bytes `{Primitives} (k : PublicKey) : bytes :=
  le_bytes 4 (Z.of_nat (length (name (holder k)))) ++ name (holder k)
  ++ le_bytes 4 (Z.of_nat (length (email (holder k)))) ++ email (holder k)
  ++ [Byte.x00] ++ compress (keypoint k) ++ signature_bytes (holder_attestation k).

Definition signed_payload_bytes `{Primitives} (c : Scalar) (ring : list (PublicKey * Scalar))
  : bytes :=
  scalar_as_bytes c ++ le_bytes 4 (Z.of_nat (length ring))
  ++ flat_map (fun ks => public_key_bytes (fst ks) ++ scalar_as_bytes (snd ks)) ring.

(** The lock file as the specification places it: [<db_path>.lock], the path with [.lock]
    appended to its file name. *)
Definition lockfile_path_spec (p : Path) : Path :=
  match rev p with
  | [] => [bs ".lock"]
  | file :: rest => rev rest ++ [file ++ bs ".lock"]
  end.

(** The contents the database file holds, as [get_contents] reads them. *)
Definition stored_contents (w : World) : DatabaseContentsV0 :=
  match db_file w with
  | Some c => c
  | None => contents_default
  end.

(** Non-strict order on ring keys, as [sort_by_key] arranges them. *)
Definition key_le (a b : bytes) : Prop := bytes_cmp a b <> Gt.

(** * Proofs *)

(** ** Orders on bytes *)

Lemma byte_to_N_inj (x y : byte) : Byte.to_N x = Byte.to_N y -> x = y.
Proof.
  intros E. pose proof (Byte.of_to_N x) as Hx. pose proof (Byte.of_to_N y) as Hy.
  rewrite E in Hx. congruence.
Qed.

Lemma byte_cmp_eq (x y : byte) : byte_cmp x y = Eq <-> x = y.
Proof.
  unfold byte_cmp. rewrite N.compare_eq_iff. split; [apply byte_to_N_inj | intros ->; reflexivity].
Qed.

Lemma byte_cmp_opp (x y : byte) : byte_cmp y x = CompOpp (byte_cmp x y).
Proof. unfold byte_cmp. apply N.compare_antisym. Qed.

Lemma byte_cmp_trans (x y z : byte) (c : comparison) :
  byte_cmp x y = c -> byte_cmp y z = c -> byte_cmp x z = c.
Proof.
  unfold byte_cmp. destruct c.
  - rewrite !N.compare_eq_iff. lia.
  - rewrite !N.compare_lt_iff. lia.
  - rewrite !N.compare_gt_iff. lia.
Qed.

Lemma bytes_cmp_eq (a b : bytes) : bytes_cmp a b = Eq <-> a = b.
Proof. apply list_compare_refl, byte_cmp_eq. Qed.

Lemma bytes_cmp_refl (a : bytes) : bytes_cmp a a = Eq.
Proof. apply bytes_cmp_eq. reflexivity. Qed.

Lemma bytes_cmp_opp (a b : bytes) : bytes_cmp b a = CompOpp (bytes_cmp a b).
Proof. apply list_compare_antisym; [apply byte_cmp_eq | apply byte_cmp_opp]. Qed.

Lemma bytes_cmp_trans (a b c : bytes) (o : comparison) :
  bytes_cmp a b = o -> bytes_cmp b c = o -> bytes_cmp a c = o.
Proof.
  apply list_compare_trans; [apply byte_cmp_eq | apply byte_cmp_trans | apply byte_cmp_opp].
Qed.

(** [a <= b] in the order of [Ord for [u8; 32]]. *)

Lemma key_le_cases (a b : bytes) : key_le a b <-> bytes_cmp a b = Lt \/ a = b.
Proof.
  unfold key_le. rewrite <- bytes_cmp_eq.
  destruct (bytes_cmp a b); intuition congruence.
Qed.

Lemma key_le_trans (a b c : bytes) : key_le a b -> key_le b c -> key_le a c.
Proof.
  rewrite !key_le_cases. intros [Hab | ->] [Hbc | ->]; auto.
  left. eapply bytes_cmp_trans; eauto.
Qed.

Lemma key_lt_le_false (a b : bytes) : bytes_cmp a b = Lt -> key_le b a -> False.
Proof.
  intros H1 H2. apply H2. rewrite bytes_cmp_opp, H1. reflexivity.
Qed.

(** ** The stable sort *)

Section Sorting.
Context {T : Type} (key : T -> bytes).

Local Abbreviation key_rel := (fun x y => key_le (key x) (key y)).

Lemma insert_by_key_perm x l : Permutation (insert_by_key key x l) (x :: l).
Proof.
  induction l as [|y l IH]; simpl; [auto|].
  destruct (bytes_cmp (key x) (key y)); auto.
  rewrite IH. apply perm_swap.
Qed.

Lemma sort_by_key_perm l : Permutation (sort_by_key key l) l.
Proof.
  unfold sort_by_key. induction l as [|x l IH]; simpl; [auto|].
  rewrite insert_by_key_perm. auto.
Qed.

Lemma gt_key_rel x y : bytes_cmp (key x) (key y) = Gt -> key_rel y x.
Proof.
  intros E. unfold key_le. rewrite bytes_cmp_opp, E. discriminate.
Qed.

Lemma insert_by_key_hd y x l :
  HdRel key_rel y l -> key_rel y x -> HdRel key_rel y (insert_by_key key x l).
Proof.
  intros Hhd Hyx. destruct l as [|z l]; simpl; [constructor; auto|].
  destruct (bytes_cmp (key x) (key z)); constructor; auto; inversion Hhd; auto.
Qed.

Lemma insert_by_key_sorted x l :
  Sorted key_rel l -> Sorted key_rel (insert_by_key key x l).
Proof.
  induction 1 as [|y l Hs IH Hhd]; simpl; [repeat constructor|].
  destruct (bytes_cmp (key x) (key y)) eqn:E.
  - constructor; [constructor; auto | constructor; unfold key_le; rewrite E; discriminate].
  - constructor; [constructor; auto | constructor; unfold key_le; rewrite E; discriminate].
  - constructor; [exact IH|]. apply insert_by_key_hd; [exact Hhd | apply gt_key_rel, E].
Qed.

Lemma sort_by_key_sorted l : Sorted key_rel (sort_by_key key l).
Proof.
  unfold sort_by_key. induction l as [|x l IH]; simpl; [constructor|].
  apply insert_by_key_sorted, IH.
Qed.

Lemma sort_by_key_strongly_sorted l : StronglySorted key_rel (sort_by_key key l).
Proof.
  apply Sorted_StronglySorted; [|apply sort_by_key_sorted].
  intros x y z. apply key_le_trans.
Qed.

Lemma insert_by_key_map {U} (f : U -> T) x l :
  map f (insert_by_key (fun u => key (f u)) x l) = insert_by_key key (f x) (map f l).
Proof.
  induction l as [|y l IH]; simpl; [reflexivity|].
  destruct (bytes_cmp (key (f x)) (key (f y))); simpl; congruence.
Qed.

Lemma sort_by_key_map {U} (f : U -> T) l :
  map f (sort_by_key (fun u => key (f u)) l) = sort_by_key key (map f l).
Proof.
  unfold sort_by_key. induction l as [|x l IH]; simpl; [reflexivity|].
  rewrite insert_by_key_map. f_equal. exact IH.
Qed.

End Sorting.

Lemma StronglySorted_nth {A} (R : A -> A -> Prop) (l : list A) d :
  StronglySorted R l -> forall i j, (i < j < length l)%nat -> R (nth i l d) (nth j l d).
Proof.
  induction 1 as [|x l Hs IH Hall]; simpl; intros i j Hij; [lia|].
  destruct i as [|i], j as [|j]; try lia.
  - rewrite Forall_forall in Hall. apply Hall, nth_In. lia.
  - apply IH. lia.
Qed.

(** ** The binary search *)

Lemma binary_search_loop_complete (keys : list bytes) (target : bytes) (p : nat) :
  (p < length keys)%nat -> nth p keys [] = target ->
  (forall i j, (i < j < length keys)%nat -> key_le (nth i keys []) (nth j keys [])) ->
  forall fuel left right, (right - left < fuel)%nat -> (left <= p < right)%nat ->
  (right <= length keys)%nat ->
  exists i, binary_search_loop fuel keys target left right = inl i
            /\ nth i keys [] = target /\ (i < length keys)%nat.
Proof.
  intros Hp Hpt Hsorted fuel. induction fuel as [|fuel IH]; intros left right Hfuel Hlr Hr;
    [lia|].
  cbn [binary_search_loop]. destruct (Nat.ltb_spec left right) as [Hlt|]; [|lia].
  cbv zeta. set (mid := (left + (right - left) / 2)%nat).
  assert (Hdiv : ((right - left) / 2 < right - left)%nat) by (apply Nat.div_lt; lia).
  assert (Hmid : (left <= mid < right)%nat) by (unfold mid; lia).
  destruct (bytes_cmp (nth mid keys []) target) eqn:E.
  - exists mid. split; [reflexivity|]. split; [apply bytes_cmp_eq, E | lia].
  - apply IH; try lia.
    destruct (Nat.lt_ge_cases mid p) as [|Hle]; [lia|]. exfalso.
    destruct (Nat.eq_dec p mid) as [->|Hne].
    + rewrite Hpt, bytes_cmp_refl in E. discriminate.
    + apply (key_lt_le_false _ _ E). rewrite <- Hpt. apply Hsorted. lia.
  - apply IH; try lia.
    destruct (Nat.lt_ge_cases p mid) as [|Hle]; [lia|]. exfalso.
    destruct (Nat.eq_dec p mid) as [->|Hne].
    + rewrite Hpt, bytes_cmp_refl in E. discriminate.
    + assert (Hlt' : bytes_cmp target (nth mid keys []) = Lt)
        by (rewrite bytes_cmp_opp, E; reflexivity).
      apply (key_lt_le_false _ _ Hlt'). rewrite <- Hpt. apply Hsorted. lia.
Qed.

Lemma binary_search_by_key_complete (keys : list bytes) (target : bytes) :
  StronglySorted key_le keys -> In target keys ->
  exists i, binary_search_by_key keys target = inl i
            /\ nth i keys [] = target /\ (i < length keys)%nat.
Proof.
  intros Hs Hin. destruct (In_nth keys target [] Hin) as [p [Hp Hpt]].
  unfold binary_search_by_key.
  apply (binary_search_loop_complete keys target p Hp Hpt); try lia.
  intros i j Hij. apply (StronglySorted_nth key_le keys [] Hs i j Hij).
Qed.

(** ** Arithmetic of the ring indices and of the group *)

Lemma mod_wrap (x n : nat) : (n <= x < 2 * n)%nat -> (x mod n = x - n)%nat.
Proof.
  intros Hx. replace x with ((x - n) + 1 * n)%nat at 1 by lia.
  rewrite Nat.Div0.mod_add. apply Nat.mod_small. lia.
Qed.

Lemma ring_index_cases (p s n : nat) : (p < n)%nat -> (s <= n)%nat ->
  ((p + s) mod n = if (p + s <? n)%nat then p + s else p + s - n)%nat.
Proof.
  intros Hp Hs. destruct (Nat.ltb_spec (p + s) n).
  - apply Nat.mod_small. lia.
  - apply mod_wrap. lia.
Qed.

Lemma ring_index_inj (p s s' n : nat) : (p < n)%nat -> (s <= n)%nat -> (s' <= n)%nat ->
  (1 <= s)%nat -> (1 <= s')%nat -> ((p + s) mod n = (p + s') mod n)%nat -> s = s'.
Proof.
  intros Hp Hs Hs' H1 H1' E.
  rewrite (ring_index_cases p s n), (ring_index_cases p s' n) in E by lia.
  destruct (Nat.ltb_spec (p + s) n), (Nat.ltb_spec (p + s') n); lia.
Qed.

Lemma ell_pos : (0 < ell)%Z.
Proof. unfold ell. lia. Qed.

Lemma mul_base_range k : (0 <= mul_base k < ell)%Z.
Proof. unfold mul_base. apply Z.mod_pos_bound, ell_pos. Qed.

(** The closing equation of the ring: [(a - c k) G + c (k G) = a G]. *)
Lemma sag_close a c k :
  point_add (mul_base (scalar_sub a (scalar_mul c k))) (scalar_mul_point c (mul_base k))
  = mul_base a.
Proof.
  pose proof ell_pos as Hl.
  unfold point_add, mul_base, scalar_sub, scalar_mul, scalar_mul_point.
  rewrite Z.mod_mod by lia. rewrite Z.mul_mod_idemp_r by lia.
  rewrite Zminus_mod_idemp_r. rewrite Z.add_mod_idemp_l by lia.
  rewrite Z.add_mod_idemp_r by lia. f_equal. ring.
Qed.

(** ** Lists *)

Lemma length_set_nth {A} i (x : A) l : length (set_nth i x l) = length l.
Proof.
  revert i; induction l as [|y l IH]; intros [|i]; simpl; auto.
Qed.

Lemma nth_set_nth_same {A} i (x d : A) l : (i < length l)%nat -> nth i (set_nth i x l) d = x.
Proof.
  revert i; induction l as [|y l IH]; intros [|i] Hi; simpl in *; try lia; auto.
  apply IH. lia.
Qed.

Lemma nth_set_nth_other {A} i j (x d : A) l : i <> j -> nth j (set_nth i x l) d = nth j l d.
Proof.
  revert i j; induction l as [|y l IH]; intros [|i] [|j] Hij; simpl; auto; try congruence.
Qed.

Lemma map_fst_combine {A B} (l1 : list A) (l2 : list B) :
  length l1 <= length l2 -> map fst (combine l1 l2) = l1.
Proof.
  revert l2; induction l1 as [|x l1 IH]; intros [|y l2] Hl; simpl in *; try lia; auto.
  f_equal. apply IH. lia.
Qed.

Lemma StronglySorted_map {A B} (R : B -> B -> Prop) (f : A -> B) l :
  StronglySorted (fun x y => R (f x) (f y)) l -> StronglySorted R (map f l).
Proof.
  induction 1 as [|x l Hs IH Hall]; simpl; constructor; auto.
  rewrite Forall_forall in *. intros y Hy. apply in_map_iff in Hy as [z [<- Hz]]. auto.
Qed.

(** ** Binary search: soundness *)

Lemma binary_search_loop_sound keys target fuel left right i :
  binary_search_loop fuel keys target left right = inl i ->
  nth i keys [] = target /\ (left <= i < right)%nat.
Proof.
  revert left right. induction fuel as [|fuel IH]; intros left right; cbn [binary_search_loop];
    [discriminate|].
  destruct (Nat.ltb_spec left right) as [Hlt|]; [|discriminate]. cbv zeta.
  assert (Hdiv : ((right - left) / 2 < right - left)%nat) by (apply Nat.div_lt; lia).
  set (mid := (left + (right - left) / 2)%nat).
  assert (Hmid : (left <= mid < right)%nat) by (unfold mid; lia). clearbody mid.
  destruct (bytes_cmp (nth mid keys []) target) eqn:E; intros Hr.
  - assert (i = mid) as -> by congruence. split; [apply bytes_cmp_eq, E | lia].
  - apply IH in Hr. destruct Hr. split; [assumption | lia].
  - apply IH in Hr. destruct Hr. split; [assumption | lia].
Qed.

Lemma binary_search_by_key_sound keys target i :
  binary_search_by_key keys target = inl i -> nth i keys [] = target /\ (i < length keys)%nat.
Proof.
  unfold binary_search_by_key. intros Hr. apply binary_search_loop_sound in Hr.
  destruct Hr. split; [assumption | lia].
Qed.

(** ** The ring signature: a signature made by [signature_sign] passes [signature_verify] *)

Section SagRun.
Context `{Primitives}.
Variables (h0 : bytes) (ring : list RistrettoPoint) (responses : list Scalar).

Lemma fold_verify_chain (L : list (RistrettoPoint * Scalar)) (g : nat -> Scalar) :
  (forall j, (j < length L)%nat -> verify_round h0 (g j) (nth j L (0%Z, 0%Z)) = g (S j)) ->
  fold_left (verify_round h0) L (g 0%nat) = g (length L).
Proof.
  revert g. induction L as [|x L IH]; intros g Hg; simpl; [reflexivity|].
  assert (E := Hg 0%nat ltac:(simpl; lia)). cbn [nth] in E. rewrite E.
  apply (IH (fun j => g (S j))). intros j Hj. apply (Hg (S j)). simpl. lia.
Qed.

Variables (n pi : nat) (a : Scalar).
Hypothesis Hpi : (pi < n)%nat.

Lemma sign_rounds_inv t cs U : (t <= n)%nat ->
  fold_left (sign_round h0 ring responses n pi) (seq 1 t) (repeat scalar_ZERO n, mul_base a)
  = (cs, U) ->
  length cs = n /\ U = sag_point h0 ring responses n pi a t
  /\ forall s, (1 <= s <= t)%nat ->
       nth ((pi + s) mod n) cs 0%Z
       = scalar_from_hash (h0 ++ compress (sag_point h0 ring responses n pi a (s - 1))).
Proof.
  revert cs U. induction t as [|t IH]; intros cs U Ht Hf.
  - simpl in Hf. injection Hf as <- <-. rewrite repeat_length. split; [reflexivity|].
    split; [reflexivity | lia].
  - rewrite seq_S, fold_left_app in Hf.
    destruct (fold_left (sign_round h0 ring responses n pi) (seq 1 t)
                (repeat scalar_ZERO n, mul_base a)) as [cs0 U0] eqn:Hf0.
    destruct (IH cs0 U0 ltac:(lia) eq_refl) as [Hlen [HU Hcs]].
    simpl in Hf. injection Hf as <- <-.
    assert (Hidx : ((pi + S t) mod n < length cs0)%nat) by (rewrite Hlen; apply Nat.mod_upper_bound; lia).
    rewrite length_set_nth. split; [exact Hlen|].
    split.
    + rewrite nth_set_nth_same by exact Hidx. subst U0. reflexivity.
    + intros s Hs. destruct (Nat.eq_dec s (S t)) as [->|Hne].
      * rewrite nth_set_nth_same by exact Hidx. subst U0. simpl. rewrite Nat.sub_0_r. reflexivity.
      * rewrite nth_set_nth_other.
        -- apply Hcs. lia.
        -- intros E. apply Hne. symmetry. apply (ring_index_inj pi (S t) s n); lia.
Qed.

Variables (k : Scalar) (cs : list Scalar) (U : RistrettoPoint).
Hypothesis Hring_len : length ring = n.
Hypothesis Hresp_len : length responses = n.
Hypothesis Hmine : nth pi ring 0%Z = mul_base k.
Hypothesis Hrun :
  fold_left (sign_round h0 ring responses n pi) (seq 1 n) (repeat scalar_ZERO n, mul_base a)
  = (cs, U).

Lemma sign_chain j : (j < n)%nat ->
  let responses' := set_nth pi (scalar_sub a (scalar_mul (nth pi cs 0%Z) k)) responses in
  verify_round h0 (nth j cs 0%Z) (nth j (combine ring responses') (0%Z, 0%Z))
  = nth (S j mod n) cs 0%Z.
Proof.
  intros Hj responses'.
  destruct (sign_rounds_inv n cs U ltac:(lia) Hrun) as [Hlen [_ Hcs]].
  rewrite combine_nth
    by (unfold responses'; rewrite length_set_nth; lia).
  set (s := if (pi <? j)%nat then (j - pi)%nat else (j + n - pi)%nat).
  assert (Hs : (1 <= s <= n)%nat /\ (pi + s) mod n = j).
  { unfold s. destruct (Nat.ltb_spec pi j).
    - split; [lia|]. rewrite ring_index_cases by lia.
      destruct (Nat.ltb_spec (pi + (j - pi)) n); lia.
    - split; [lia|]. rewrite ring_index_cases by lia.
      destruct (Nat.ltb_spec (pi + (j + n - pi)) n); lia. }
  destruct Hs as [Hs Hsj]. clearbody s.
  assert (Hcj := Hcs s Hs). rewrite Hsj in Hcj.
  assert (Hnext : forall m, (pi + (m + 1)) mod n = S ((pi + m) mod n) mod n).
  { intros m. replace (S ((pi + m) mod n)) with ((pi + m) mod n + 1)%nat by lia.
    rewrite Nat.Div0.add_mod_idemp_l. f_equal. lia. }
  unfold verify_round. rewrite Hcj.
  destruct (Nat.eq_dec s n) as [Hsn|Hsn].
  - assert (Hjpi : j = pi).
    { rewrite Hsn, ring_index_cases in Hsj by lia.
      destruct (Nat.ltb_spec (pi + n) n); lia. }
    rewrite Hjpi in Hcj |- *. unfold responses'.
    rewrite nth_set_nth_same by lia.
    rewrite Hmine, <- Hcj, sag_close.
    replace (S pi) with (pi + 1)%nat by lia. rewrite (Hcs 1%nat) by lia. reflexivity.
  - unfold responses'. rewrite nth_set_nth_other.
    2:{ intros E. rewrite <- E in Hsj. apply Hsn.
        apply (ring_index_inj pi s n n); try lia.
        rewrite Hsj, ring_index_cases by lia.
        destruct (Nat.ltb_spec (pi + n) n); lia. }
    replace (point_add _ _) with (sag_point h0 ring responses n pi a s).
    + rewrite <- Hsj, <- Hnext, (Hcs (s + 1)%nat) by lia. do 4 f_equal. lia.
    + destruct s as [|s']; [lia|]. simpl sag_point. rewrite Hsj.
      rewrite Nat.sub_0_r. reflexivity.
Qed.

End SagRun.

Section SignCorrect.
Context `{Primitives}.

Lemma make_ring_perm {T} (my : T) others ext :
  Permutation (make_ring my others ext) (others ++ [my]).
Proof. apply sort_by_key_perm. Qed.

Lemma make_ring_length {T} (my : T) others ext :
  length (make_ring my others ext) = (length others + 1)%nat.
Proof. rewrite (Permutation_length (make_ring_perm my others ext)), length_app. reflexivity. Qed.

Lemma make_ring_sorted {T} (my : T) others ext :
  StronglySorted key_le (map (fun k => compress (ext k)) (make_ring my others ext)).
Proof.
  apply (StronglySorted_map key_le (fun k => compress (ext k))).
  apply (sort_by_key_strongly_sorted (fun k => compress (ext k))).
Qed.

Lemma make_ring_map {T} (my : T) others (ext : T -> RistrettoPoint) :
  map ext (make_ring my others ext) = make_ring (ext my) (map ext others) (fun p => p).
Proof.
  unfold make_ring. rewrite (sort_by_key_map (fun p => compress p) ext), map_app. reflexivity.
Qed.

(** [Signature::sign] never reaches its [expect]: the signer's key is always found. *)
Lemma signature_sign_some msg k others rng :
  exists s, signature_sign msg k others rng = Some s
            /\ map fst (ring_responses s) = make_ring (mul_base k) others (fun p => p).
Proof.
  unfold signature_sign.
  set (ring := make_ring (mul_base k) others (fun p => p)).
  destruct (binary_search_by_key_complete (map compress ring) (compress (mul_base k)))
    as [i [Hi _]].
  - apply (make_ring_sorted (mul_base k) others (fun p => p)).
  - apply in_map, (Permutation_in _ (Permutation_sym (make_ring_perm _ _ _))).
    apply in_or_app. right. left. reflexivity.
  - rewrite Hi.
    destruct (fold_left _ _ _) as [cs U]. eexists. split; [reflexivity|]. simpl.
    apply map_fst_combine. rewrite length_set_nth, length_map, length_seq.
    unfold ring. rewrite make_ring_length. lia.
Qed.

Context `{!RistrettoLaws}.

Lemma signature_sign_verify msg k others rng s :
  Forall (fun p => (0 <= p < ell)%Z) others ->
  signature_sign msg k others rng = Some s -> signature_verify s msg = true.
Proof.
  intros Hrange. unfold signature_sign. cbv zeta.
  set (ring := make_ring (mul_base k) others (fun p => p)).
  set (n := (length others + 1)%nat).
  assert (Hring_len : length ring = n) by apply make_ring_length.
  destruct (binary_search_by_key (map compress ring) (compress (mul_base k))) as [pi|] eqn:Hbs;
    [|intros Hs; discriminate].
  apply binary_search_by_key_sound in Hbs as [Hnth Hpi]. rewrite length_map in Hpi.
  set (responses := map (fun i => scalar_random (rng i)) (seq 0 n)).
  set (a := scalar_random (rng n)).
  set (h0 := hash_message_and_ring msg ring).
  destruct (fold_left (sign_round h0 ring responses n pi) (seq 1 n) (repeat scalar_ZERO n, mul_base a))
    as [cs U] eqn:Hrun.
  intros Hs. cbv beta iota zeta in Hs. injection Hs as <-.
  assert (Hresp_len : length responses = n) by (unfold responses; rewrite length_map, length_seq; reflexivity).
  assert (Hmine : nth pi ring 0%Z = mul_base k).
  { rewrite (nth_indep _ _ (compress 0%Z)) in Hnth by (rewrite length_map; lia).
    rewrite map_nth in Hnth.
    assert (Hin : In (nth pi ring 0%Z) (others ++ [mul_base k])).
    { apply (Permutation_in _ (make_ring_perm (mul_base k) others (fun p => p))).
      apply nth_In. exact Hpi. }
    assert (Hr : (0 <= nth pi ring 0%Z < ell)%Z).
    { apply in_app_or in Hin as [Hin | [<- | []]].
      - rewrite Forall_forall in Hrange. apply Hrange, Hin.
      - apply mul_base_range. }
    assert (E := decompress_compress _ Hr). rewrite Hnth, decompress_compress in E
      by apply mul_base_range.
    congruence. }
  unfold signature_verify. cbn [challenge ring_responses].
  rewrite map_fst_combine
    by (rewrite length_set_nth; lia).
  fold h0.
  set (L := combine ring _).
  assert (HL : length L = n)
    by (unfold L; rewrite length_combine, length_set_nth; lia).
  assert (Hf : fold_left (verify_round h0) L (nth (0 mod n) cs 0%Z) = nth (length L mod n) cs 0%Z).
  { apply (fold_verify_chain h0 L (fun j => nth (j mod n) cs 0%Z)).
    intros j Hj. rewrite HL in Hj. rewrite (Nat.mod_small j n) by lia.
    apply (sign_chain h0 ring responses n pi a ltac:(lia) k cs U); auto;
      lia. }
  rewrite HL, Nat.Div0.mod_0_l, Nat.Div0.mod_same in Hf. rewrite Hf. apply Z.eqb_refl.
Qed.

End SignCorrect.

(** ** Little-endian encodings *)

Lemma Z_of_byte_range b : (0 <= Z_of_byte b < 256)%Z.
Proof. unfold Z_of_byte. pose proof (Byte.to_N_bounded b). lia. Qed.

Lemma Z_of_byte_of_Z z : Z_of_byte (byte_of_Z z) = (z mod 256)%Z.
Proof.
  unfold byte_of_Z, Z_of_byte. pose proof (Z.mod_pos_bound z 256 ltac:(lia)).
  destruct (Byte.of_N (Z.to_N (z mod 256))) as [b|] eqn:E.
  - apply Byte.to_of_N in E. rewrite E. apply Z2N.id. lia.
  - apply Byte.of_N_None_iff in E. lia.
Qed.

Lemma byte_of_Z_of_byte b : byte_of_Z (Z_of_byte b) = b.
Proof.
  unfold byte_of_Z. rewrite Z.mod_small by apply Z_of_byte_range.
  unfold Z_of_byte. rewrite N2Z.id. rewrite Byte.of_to_N. reflexivity.
Qed.

Lemma byte_of_Z_mod z : byte_of_Z (z mod 256) = byte_of_Z z.
Proof. unfold byte_of_Z. rewrite Z.mod_mod by lia. reflexivity. Qed.

Lemma length_le_bytes n z : length (le_bytes n z) = n.
Proof. revert z; induction n; intros z; simpl; auto. Qed.

Lemma mod_mul_split z m : (0 < m)%Z -> (z mod (256 * m) = z mod 256 + 256 * ((z / 256) mod m))%Z.
Proof.
  intros Hm. symmetry. apply (Z.mod_unique z (256 * m) (z / 256 / m)).
  - pose proof (Z.mod_pos_bound z 256 ltac:(lia)).
    pose proof (Z.mod_pos_bound (z / 256) m Hm). left. nia.
  - pose proof (Z.div_mod z 256 ltac:(lia)).
    pose proof (Z.div_mod (z / 256) m ltac:(lia)). nia.
Qed.

Lemma le_value_le_bytes n z : le_value (le_bytes n z) = (z mod 256 ^ Z.of_nat n)%Z.
Proof.
  revert z; induction n as [|n IH]; intros z; simpl le_bytes; simpl le_value.
  - rewrite Z.mod_1_r. reflexivity.
  - rewrite IH, Z_of_byte_of_Z. rewrite Nat2Z.inj_succ, Z.pow_succ_r by lia.
    rewrite mod_mul_split; [reflexivity|]. apply Z.pow_pos_nonneg; lia.
Qed.

Lemma le_value_range b : (0 <= le_value b < 256 ^ Z.of_nat (length b))%Z.
Proof.
  induction b as [|x b IH]; [simpl; lia|]. cbn [le_value length].
  pose proof (Z_of_byte_range x). rewrite Nat2Z.inj_succ, Z.pow_succ_r by lia. nia.
Qed.

Lemma le_bytes_le_value b : le_bytes (length b) (le_value b) = b.
Proof.
  induction b as [|x b IH]; [reflexivity|]. cbn [le_value length le_bytes]. f_equal.
  - rewrite <- byte_of_Z_mod, Z.mul_comm, Z.mod_add, Z.mod_small
      by (try apply Z_of_byte_range; lia).
    apply byte_of_Z_of_byte.
  - rewrite Z.mul_comm, Z.div_add, Z.div_small, Z.add_0_l by (try apply Z_of_byte_range; lia).
    exact IH.
Qed.

Lemma ell_lt_pow : (ell < 256 ^ 32)%Z.
Proof. unfold ell. lia. Qed.

(** The reference primitives satisfy the laws. *)
Lemma ref_ristretto_laws : @RistrettoLaws ref_primitives.
Proof.
  constructor.
  - intros p Hp. cbn [compress decompress ref_primitives]. unfold ref_decompress.
    rewrite length_le_bytes, le_value_le_bytes, Z.mod_small
      by (pose proof ell_lt_pow; simpl Z.of_nat; lia).
    destruct (Z.ltb_spec p ell); [reflexivity | lia].
  - intros p. apply length_le_bytes.
Qed.

(** ** [SignedMessage::sign] *)

Lemma map_snd_combine {A B} (l1 : list A) (l2 : list B) :
  length l2 <= length l1 -> map snd (combine l1 l2) = l2.
Proof.
  revert l2; induction l1 as [|x l1 IH]; intros [|y l2] Hl; simpl in *; try lia; auto.
  f_equal. apply IH. lia.
Qed.

Lemma signed_ring_keys (rr : list (RistrettoPoint * Scalar)) (ring : list PublicKey) :
  map fst rr = map keypoint ring ->
  map fst (map (fun '((_, s), p) => (p, s)) (combine rr ring)) = ring.
Proof.
  revert ring; induction rr as [|[p s] rr IH]; intros [|k ring] E; simpl in *;
    try discriminate; auto.
  injection E as _ E. f_equal. apply IH, E.
Qed.

Lemma signed_ring_signature (rr : list (RistrettoPoint * Scalar)) (ring : list PublicKey) :
  map fst rr = map keypoint ring ->
  map (fun '(k, s) => (keypoint k, s)) (map (fun '((_, s), p) => (p, s)) (combine rr ring))
  = rr.
Proof.
  revert ring; induction rr as [|[p s] rr IH]; intros [|k ring] E; simpl in *;
    try discriminate; auto.
  injection E as -> E. f_equal. apply IH, E.
Qed.

Section SignedSign.
Context `{Primitives}.

Lemma signed_message_sign_spec m pk others rng :
  let others' := filter (fun k => negb (PublicKey_eqb k (public pk))) others in
  exists sig,
    signature_sign m (PrivateKey.key pk) (map keypoint others') rng = Some sig
    /\ map fst (ring_responses sig) = map keypoint (make_ring (public pk) others' keypoint)
    /\ signed_message_sign m pk others rng
       = Some {| SignedMessage.message := m;
                 SignedMessage.challenge := challenge sig;
                 SignedMessage.ring :=
                   map (fun '((_, s), p) => (p, s))
                     (combine (ring_responses sig) (make_ring (public pk) others' keypoint)) |}.
Proof.
  intros others'.
  destruct (signature_sign_some m (PrivateKey.key pk) (map keypoint others') rng)
    as [sig [Hs Hfst]].
  exists sig. split; [exact Hs|]. split.
  - rewrite Hfst, make_ring_map. reflexivity.
  - unfold signed_message_sign. fold others'. rewrite Hs. reflexivity.
Qed.

Lemma count_occ_filter_self (l : list PublicKey) x :
  count_occ PublicKey_eq_dec (filter (fun k => negb (PublicKey_eqb k x)) l) x = 0%nat.
Proof.
  induction l as [|y l IH]; simpl; [reflexivity|].
  unfold PublicKey_eqb. destruct (PublicKey_eq_dec y x) as [->|Hne]; simpl; [exact IH|].
  destruct (PublicKey_eq_dec y x); [contradiction | exact IH].
Qed.

End SignedSign.

Section OwnKey.
Context `{Primitives} `{!RistrettoLaws}.

(** A key made by [PrivateKey::new] carries a valid attestation. *)
Lemma private_key_new_valid id rng pk :
  private_key_new id rng = Some pk -> validate_attestation (public pk) = true.
Proof.
  unfold private_key_new. set (key := scalar_random (rng O)).
  destruct (signature_sign_some (bytes_for_attestation id (mul_base key)) key []
              (fun i => rng (S i))) as [att [Hs Hfst]].
  rewrite Hs. intros Hpk. injection Hpk as <-.
  unfold validate_attestation, public. cbn [PrivateKey.holder PrivateKey.key
    PrivateKey.holder_attestation holder keypoint holder_attestation].
  assert (Hsingle : exists r, ring_responses att = [(mul_base key, r)]).
  { change (make_ring (mul_base key) [] (fun p => p)) with [mul_base key] in Hfst.
    destruct (ring_responses att) as [|[p r] [|x rr]]; simpl in Hfst; try discriminate.
    injection Hfst as ->. exists r. reflexivity. }
  destruct Hsingle as [r Hr]. rewrite Hr, Z.eqb_refl. simpl andb.
  apply (signature_sign_verify _ key [] (fun i => rng (S i))); [constructor | exact Hs].
Qed.

End OwnKey.

(** ** Codec laws of the reference instance *)

Lemma undigits85_digits85 k v : undigits85 (digits85 k v) = (v mod 85 ^ Z.of_nat k)%Z.
Proof.
  revert v; induction k as [|k IH]; intros v; cbn [digits85 undigits85].
  - rewrite Z.mod_1_r. reflexivity.
  - rewrite IH. rewrite Nat2Z.inj_succ, Z.pow_succ_r by lia.
    rewrite Z.rem_mul_r by (try apply Z.pow_pos_nonneg; lia). lia.
Qed.

Lemma length_digits85 k v : length (digits85 k v) = k.
Proof. revert v; induction k; intros v; simpl; auto. Qed.

Lemma char_digits_digit_chars k v : char_digits (digit_chars k v) = Some (digits85 k v).
Proof.
  revert v; induction k as [|k IH]; intros v; [reflexivity|].
  unfold digit_chars in *. cbn [digits85 map char_digits]. rewrite IH.
  unfold char_digit. rewrite Z_of_byte_of_Z.
  pose proof (Z.mod_pos_bound v 85 ltac:(lia)).
  rewrite (Z.mod_small (35 + v mod 85) 256) by lia.
  replace (35 + v mod 85 - 35)%Z with (v mod 85)%Z by lia.
  replace ((0 <=? v mod 85)%Z && (v mod 85 <? 85)%Z) with true
    by (symmetry; apply andb_true_iff; split; [apply Z.leb_le | apply Z.ltb_lt]; lia).
  reflexivity.
Qed.

Lemma length_digit_chars k v : length (digit_chars k v) = k.
Proof. unfold digit_chars. rewrite length_map. apply length_digits85. Qed.

Lemma decode_group_digit_chars n v :
  (n <= 4)%nat -> (0 <= v < 256 ^ Z.of_nat n)%Z ->
  decode_group (digit_chars (S n) v) n = Some (le_bytes n v).
Proof.
  intros Hn Hv. unfold decode_group. rewrite char_digits_digit_chars, undigits85_digits85.
  assert (Hb : (256 ^ Z.of_nat n <= 85 ^ Z.of_nat (S n))%Z)
    by (destruct n as [|[|[|[|[|n]]]]]; simpl; lia).
  rewrite Z.mod_small by lia.
  replace (v <? 256 ^ Z.of_nat n)%Z with true by (symmetry; apply Z.ltb_lt; lia).
  reflexivity.
Qed.

Lemma ref_z85_decode_group5 g r :
  length g = 5%nat ->
  ref_z85_decode (g ++ r) =
  match decode_group g 4, ref_z85_decode r with
  | Some g', Some r' => Some (g' ++ r')
  | _, _ => None
  end.
Proof.
  intros Hg. destruct g as [|c1 [|c2 [|c3 [|c4 [|c5 [|c6 g]]]]]]; try discriminate.
  reflexivity.
Qed.

Lemma ref_z85_decode_tail g :
  (2 <= length g <= 4)%nat -> ref_z85_decode g = decode_group g (pred (length g)).
Proof.
  intros Hg. destruct g as [|c1 [|c2 [|c3 [|c4 [|c5 g]]]]]; simpl in Hg; try lia; reflexivity.
Qed.

Lemma ref_z85_decode_encode b : ref_z85_decode (ref_z85_encode b) = Some b.
Proof.
  remember (length b) as n eqn:Hn. revert b Hn.
  induction n as [n IH] using (well_founded_induction lt_wf). intros b Hn.
  destruct b as [|x1 [|x2 [|x3 [|x4 rest]]]].
  - reflexivity.
  - cbn [ref_z85_encode]. rewrite ref_z85_decode_tail by (rewrite length_digit_chars; simpl; lia).
    rewrite length_digit_chars. cbn [length pred].
    rewrite (decode_group_digit_chars 1) by (try apply le_value_range; lia).
    apply (f_equal Some), (le_bytes_le_value [x1]).
  - cbn [ref_z85_encode]. rewrite ref_z85_decode_tail by (rewrite length_digit_chars; simpl; lia).
    rewrite length_digit_chars. cbn [length pred].
    rewrite (decode_group_digit_chars 2) by (try apply le_value_range; lia).
    apply (f_equal Some), (le_bytes_le_value [x1; x2]).
  - cbn [ref_z85_encode]. rewrite ref_z85_decode_tail by (rewrite length_digit_chars; simpl; lia).
    rewrite length_digit_chars. cbn [length pred].
    rewrite (decode_group_digit_chars 3) by (try apply le_value_range; lia).
    apply (f_equal Some), (le_bytes_le_value [x1; x2; x3]).
  - cbn [ref_z85_encode]. rewrite ref_z85_decode_group5 by apply length_digit_chars.
    rewrite (decode_group_digit_chars 4) by (try apply le_value_range; lia).
    rewrite (IH (length rest)) by (simpl in Hn; lia).
    exact (f_equal (fun g => Some (g ++ rest)) (le_bytes_le_value [x1; x2; x3; x4])).
Qed.

Lemma ref_z85_encode_length b :
  (length b mod 4 = 0)%nat -> length (ref_z85_encode b) = (5 * (length b / 4))%nat.
Proof.
  remember (length b) as n eqn:Hn. revert b Hn.
  induction n as [n IH] using (well_founded_induction lt_wf). intros b Hn Hm.
  destruct b as [|x1 [|x2 [|x3 [|x4 rest]]]]; subst n; cbn [length] in *; try discriminate.
  - reflexivity.
  - cbn [ref_z85_encode]. rewrite length_app, length_digit_chars.
    replace (S (S (S (S (length rest))))) with (length rest + 1 * 4)%nat in * by lia.
    rewrite Nat.Div0.mod_add in Hm. rewrite Nat.div_add by lia.
    rewrite (IH (length rest)) by (auto; lia). lia.
Qed.

Lemma is_printable_spec c : is_printable c = true <-> (33 <= Z_of_byte c <= 126)%Z.
Proof.
  unfold is_printable, Z_of_byte. rewrite andb_true_iff, !N.leb_le. lia.
Qed.

Lemma digit_chars_printable k v : forallb is_printable (digit_chars k v) = true.
Proof.
  revert v; induction k as [|k IH]; intros v; [reflexivity|].
  unfold digit_chars in *. cbn [digits85 map forallb]. rewrite IH, andb_true_r.
  apply is_printable_spec. rewrite Z_of_byte_of_Z.
  pose proof (Z.mod_pos_bound v 85 ltac:(lia)). rewrite Z.mod_small; lia.
Qed.

Lemma ref_z85_encode_printable b : forallb is_printable (ref_z85_encode b) = true.
Proof.
  remember (length b) as n eqn:Hn. revert b Hn.
  induction n as [n IH] using (well_founded_induction lt_wf). intros b Hn.
  destruct b as [|x1 [|x2 [|x3 [|x4 rest]]]]; cbn [ref_z85_encode];
    try apply digit_chars_printable; [reflexivity|].
  rewrite forallb_app, digit_chars_printable. apply (IH (length rest)); [|reflexivity].
  subst n; simpl; lia.
Qed.

#[local] Instance ref_codec_laws : @CodecLaws ref_primitives.
Proof.
  split.
  - intros b. apply length_le_bytes.
  - apply ref_z85_encode_length.
  - apply ref_z85_decode_encode.
  - apply ref_z85_encode_printable.
Qed.

(** ** Inserting into a vector *)

Lemma vec_insert_app {A} (i : nat) (x : A) (a b : list A) :
  length a = i -> vec_insert i x (a ++ b) = Some (a ++ x :: b).
Proof.
  intros <-. unfold vec_insert. rewrite length_app.
  replace (length a <=? length a + length b) with true by (symmetry; apply Nat.leb_le; lia).
  rewrite firstn_app, skipn_app, firstn_all, skipn_all, Nat.sub_diag, app_nil_r. reflexivity.
Qed.

Lemma split_four_tens {A} (e : list A) :
  length e = 40%nat ->
  exists g1 g2 g3 g4, e = g1 ++ g2 ++ g3 ++ g4 /\ length g1 = 10%nat /\ length g2 = 10%nat
                      /\ length g3 = 10%nat /\ length g4 = 10%nat.
Proof.
  intros He. exists (firstn 10 e), (firstn 10 (skipn 10 e)), (firstn 10 (skipn 20 e)), (skipn 30 e).
  rewrite !length_firstn, !length_skipn, He. repeat split; try reflexivity.
  rewrite <- (firstn_skipn 10 e) at 1. f_equal.
  rewrite <- (firstn_skipn 10 (skipn 10 e)) at 1. f_equal.
  rewrite !skipn_skipn. rewrite <- (firstn_skipn 10 (skipn (10 + 10) e)) at 1.
  rewrite skipn_skipn. reflexivity.
Qed.

(** ** Trimming *)

Lemma ws_prefix_len_le s : (ws_prefix_len s <= length s)%nat.
Proof.
  unfold ws_prefix_len.
  destruct s as [|a [|b [|c s]]]; cbn [firstn length]; [cbn; lia|..];
    repeat match goal with |- context [if ?b then _ else _] => destruct b end; lia.
Qed.

Lemma lastn_all {A} (k : nat) (l : list A) : (length l <= k)%nat -> lastn k l = l.
Proof. intros Hk. unfold lastn. replace (length l - k)%nat with 0%nat by lia. reflexivity. Qed.

Lemma ws_suffix_len_le s : (ws_suffix_len s <= length s)%nat.
Proof.
  unfold ws_suffix_len.
  destruct (length s) as [|[|[|n]]] eqn:Hl.
  - rewrite !lastn_all by lia. destruct s; [reflexivity | discriminate].
  - rewrite !lastn_all by lia.
    repeat match goal with |- context [if ?b then _ else _] => destruct b end; lia.
  - rewrite (lastn_all 2), (lastn_all 3) by lia.
    repeat match goal with |- context [if ?b then _ else _] => destruct b end; lia.
  - repeat match goal with |- context [if ?b then _ else _] => destruct b end; lia.
Qed.

Lemma ws_prefix_len_nil : ws_prefix_len [] = 0%nat.
Proof. reflexivity. Qed.

Lemma ws_suffix_len_nil : ws_suffix_len [] = 0%nat.
Proof. reflexivity. Qed.

Lemma trim_start_fuel_done f s : (length s <= f)%nat -> ws_prefix_len (trim_start_fuel f s) = 0%nat.
Proof.
  revert s; induction f as [|f IH]; intros s Hs.
  - destruct s; [reflexivity | simpl in Hs; lia].
  - cbn [trim_start_fuel]. pose proof (ws_prefix_len_le s).
    destruct (ws_prefix_len s) as [|k] eqn:Hk; [exact Hk|].
    apply IH. rewrite length_skipn. lia.
Qed.

Lemma trim_end_fuel_done f s : (length s <= f)%nat -> ws_suffix_len (trim_end_fuel f s) = 0%nat.
Proof.
  revert s; induction f as [|f IH]; intros s Hs.
  - destruct s; [reflexivity | simpl in Hs; lia].
  - cbn [trim_end_fuel]. pose proof (ws_suffix_len_le s).
    destruct (ws_suffix_len s) as [|k] eqn:Hk; [exact Hk|].
    apply IH. rewrite length_firstn. lia.
Qed.

Lemma trim_end_fuel_prefix f s : exists m, trim_end_fuel f s = firstn m s.
Proof.
  revert s; induction f as [|f IH]; intros s.
  - exists (length s). rewrite firstn_all. reflexivity.
  - cbn [trim_end_fuel]. destruct (ws_suffix_len s) as [|k].
    + exists (length s). rewrite firstn_all. reflexivity.
    + destruct (IH (firstn (length s - S k) s)) as [m Hm]. rewrite Hm, firstn_firstn.
      eexists. reflexivity.
Qed.

Lemma ws_prefix_len_zero s :
  ws_prefix_len s = 0%nat <-> forall j, (j <= 3)%nat -> is_ws_char (firstn j s) = false.
Proof.
  unfold ws_prefix_len. split.
  - intros H0 j Hj.
    destruct (is_ws_char (firstn 1 s)) eqn:E1; [discriminate|].
    destruct (is_ws_char (firstn 2 s)) eqn:E2; [discriminate|].
    destruct (is_ws_char (firstn 3 s)) eqn:E3; [discriminate|].
    destruct j as [|[|[|[|j]]]]; auto; lia.
  - intros H. rewrite !H by lia. reflexivity.
Qed.

Lemma ws_prefix_len_firstn m s : ws_prefix_len s = 0%nat -> ws_prefix_len (firstn m s) = 0%nat.
Proof.
  rewrite !ws_prefix_len_zero. intros H j Hj. rewrite firstn_firstn. apply H. lia.
Qed.

Lemma trim_start_fuel_id f s : ws_prefix_len s = 0%nat -> trim_start_fuel f s = s.
Proof. intros H. destruct f; cbn [trim_start_fuel]; [|rewrite H]; reflexivity. Qed.

Lemma trim_end_fuel_id f s : ws_suffix_len s = 0%nat -> trim_end_fuel f s = s.
Proof. intros H. destruct f; cbn [trim_end_fuel]; [|rewrite H]; reflexivity. Qed.

(** [str::trim] is idempotent. *)
Lemma trim_idem s : trim (trim s) = trim s.
Proof.
  unfold trim at 2. set (u := trim_start s).
  assert (Hu : ws_prefix_len u = 0%nat) by (apply trim_start_fuel_done; lia).
  unfold trim_end. destruct (trim_end_fuel_prefix (length u) u) as [m Hm].
  assert (Hv : ws_suffix_len (trim_end_fuel (length u) u) = 0%nat)
    by (apply trim_end_fuel_done; lia).
  set (v := trim_end_fuel (length u) u) in *.
  assert (Hpv : ws_prefix_len v = 0%nat) by (rewrite Hm; apply ws_prefix_len_firstn, Hu).
  unfold trim, trim_start, trim_end.
  rewrite (trim_start_fuel_id _ v Hpv), (trim_end_fuel_id _ v Hv). reflexivity.
Qed.

(** ** Borsh round trips *)

Lemma w_then_ok a b : w_ok a >>> w_ok b = w_ok (a ++ b).
Proof. reflexivity. Qed.

Lemma p_bind_some {A B} (p : Parser A) (k : A -> Parser B) inp x r :
  p inp = Some (x, r) -> p_bind p k inp = k x r.
Proof. unfold p_bind. intros ->. reflexivity. Qed.

Lemma p_take_app n a rest : length a = n -> p_take n (a ++ rest) = Some (a, rest).
Proof.
  intros <-. unfold p_take. rewrite length_app.
  replace (length a <=? length a + length rest) with true by (symmetry; apply Nat.leb_le; lia).
  rewrite firstn_app, skipn_app, firstn_all, skipn_all, Nat.sub_diag, app_nil_r. reflexivity.
Qed.

Lemma le_bytes_small n z : (0 <= z < 256 ^ Z.of_nat n)%Z -> le_value (le_bytes n z) = z.
Proof. intros Hz. rewrite le_value_le_bytes. apply Z.mod_small. exact Hz. Qed.

Lemma p_u32_le_bytes n rest : (0 <= n <= U32_MAX)%Z -> p_u32 (le_bytes 4 n ++ rest) = Some (n, rest).
Proof.
  intros Hn. unfold p_u32. rewrite (p_bind_some _ _ _ (le_bytes 4 n) rest)
    by (apply p_take_app, length_le_bytes).
  unfold p_ret. rewrite le_bytes_small by (unfold U32_MAX in Hn; simpl; lia). reflexivity.
Qed.

Lemma ser_vec_ok {A} (f : A -> Write) (g : A -> bytes) (l : list A) :
  (forall x, In x l -> f x = w_ok (g x)) -> (Z.of_nat (length l) <= U32_MAX)%Z ->
  ser_vec f l = w_ok (le_bytes 4 (Z.of_nat (length l)) ++ flat_map g l).
Proof.
  intros Hf Hl. unfold ser_vec, ser_len.
  replace (Z.of_nat (length l) <=? U32_MAX)%Z with true by (symmetry; apply Z.leb_le; lia).
  rewrite <- w_then_ok. f_equal. clear Hl. induction l as [|x l IH]; [reflexivity|].
  cbn [fold_right flat_map]. rewrite IH by (intros y Hy; apply Hf; right; exact Hy).
  rewrite Hf by (left; reflexivity). apply w_then_ok.
Qed.

Lemma p_repeat_ok {A} (p : Parser A) (g : A -> bytes) (l : list A) rest :
  (forall x, In x l -> forall r, p (g x ++ r) = Some (x, r)) ->
  p_repeat (length l) p (flat_map g l ++ rest) = Some (l, rest).
Proof.
  revert rest. induction l as [|x l IH]; intros rest Hp; [reflexivity|].
  cbn [length p_repeat flat_map]. rewrite <- app_assoc.
  rewrite (p_bind_some _ _ _ x (flat_map g l ++ rest)) by (apply Hp; left; reflexivity).
  rewrite (p_bind_some _ _ _ l rest) by (apply IH; intros y Hy; apply Hp; right; exact Hy).
  reflexivity.
Qed.

Lemma p_vec_ok {A} (p : Parser A) (g : A -> bytes) (l : list A) rest :
  (forall x, In x l -> forall r, p (g x ++ r) = Some (x, r)) ->
  (Z.of_nat (length l) <= U32_MAX)%Z ->
  p_vec p (le_bytes 4 (Z.of_nat (length l)) ++ flat_map g l ++ rest) = Some (l, rest).
Proof.
  intros Hp Hl. unfold p_vec.
  rewrite (p_bind_some _ _ _ (Z.of_nat (length l)) (flat_map g l ++ rest))
    by (apply p_u32_le_bytes; lia).
  rewrite Nat2Z.id. apply p_repeat_ok, Hp.
Qed.

Lemma p_bytes_ok b rest :
  (Z.of_nat (length b) <= U32_MAX)%Z ->
  p_bytes (le_bytes 4 (Z.of_nat (length b)) ++ b ++ rest) = Some (b, rest).
Proof.
  intros Hl. unfold p_bytes.
  rewrite (p_bind_some _ _ _ (Z.of_nat (length b)) (b ++ rest)) by (apply p_u32_le_bytes; lia).
  rewrite Nat2Z.id. apply p_take_app. reflexivity.
Qed.

Lemma ser_bytes_ok b :
  (Z.of_nat (length b) <= U32_MAX)%Z -> ser_bytes b = w_ok (le_bytes 4 (Z.of_nat (length b)) ++ b).
Proof.
  intros Hl. unfold ser_bytes, ser_len.
  replace (Z.of_nat (length b) <=? U32_MAX)%Z with true by (symmetry; apply Z.leb_le; lia).
  apply w_then_ok.
Qed.

Section BorshRoundTrip.
Context `{Primitives} `{!RistrettoLaws}.

Lemma p_scalar_ok s rest : (0 <= s < ell)%Z -> p_scalar (scalar_as_bytes s ++ rest) = Some (s, rest).
Proof.
  intros Hs. pose proof ell_lt_pow. unfold p_scalar, scalar_as_bytes.
  rewrite (p_bind_some _ _ _ (le_bytes 32 s) rest) by (apply p_take_app, length_le_bytes).
  unfold p_lift, scalar_from_canonical_bytes. rewrite length_le_bytes.
  rewrite le_bytes_small by (simpl; lia).
  replace (s <? ell)%Z with true by (symmetry; apply Z.ltb_lt; lia). reflexivity.
Qed.

Lemma p_point_ok p rest : (0 <= p < ell)%Z -> p_point (compress p ++ rest) = Some (p, rest).
Proof.
  intros Hp. unfold p_point.
  rewrite (p_bind_some _ _ _ (compress p) rest) by (apply p_take_app, compress_length).
  unfold p_lift. rewrite decompress_compress by exact Hp. reflexivity.
Qed.

Lemma ser_signature_ok s :
  (Z.of_nat (length (ring_responses s)) <= U32_MAX)%Z -> ser_signature s = w_ok (signature_bytes s).
Proof.
  intros Hl. unfold ser_signature, signature_bytes.
  rewrite (ser_vec_ok _ (fun pr => compress (fst pr) ++ scalar_as_bytes (snd pr))) by
    (try (intros [p r] _; reflexivity); exact Hl).
  apply w_then_ok.
Qed.

Lemma p_signature_ok s rest :
  signature_in_range s -> (Z.of_nat (length (ring_responses s)) <= U32_MAX)%Z ->
  p_signature (signature_bytes s ++ rest) = Some (s, rest).
Proof.
  intros [Hc Hrr] Hl. unfold p_signature, signature_bytes. rewrite <- !app_assoc.
  rewrite (p_bind_some _ _ _ (challenge s) _) by (apply p_scalar_ok, Hc).
  rewrite (p_bind_some _ _ _ (ring_responses s) rest).
  - destruct s; reflexivity.
  - apply p_vec_ok; [|exact Hl]. intros [p r] Hin r'.
    rewrite Forall_forall in Hrr. destruct (Hrr _ Hin) as [Hp Hr]. cbn [fst snd] in *.
    rewrite <- app_assoc.
    rewrite (p_bind_some _ _ _ p _) by (apply p_point_ok, Hp).
    rewrite (p_bind_some _ _ _ r _) by (apply p_scalar_ok, Hr). reflexivity.
Qed.

End BorshRoundTrip.

(** ** Hex *)

Lemma hex_byte x :
  exists vh vl, hex_val (hex_digit_upper (Byte.to_N x / 16)) = Some vh
                /\ hex_val (hex_digit_upper (Byte.to_N x mod 16)) = Some vl
                /\ Byte.of_N (16 * vh + vl) = Some x
                /\ is_upper_hex (hex_digit_upper (Byte.to_N x / 16)) = true
                /\ is_upper_hex (hex_digit_upper (Byte.to_N x mod 16)) = true.
Proof. destruct x; do 2 eexists; repeat split; reflexivity. Qed.

Lemma hex_decode_encode_upper b : hex_decode (hex_encode_upper b) = Some b.
Proof.
  induction b as [|x b IH]; [reflexivity|].
  unfold hex_encode_upper in *. cbn [flat_map app hex_decode]. rewrite IH.
  destruct (hex_byte x) as (vh & vl & Hh & Hl & Hx & _). rewrite Hh, Hl, Hx. reflexivity.
Qed.

Lemma hex_encode_upper_upper b : forallb is_upper_hex (hex_encode_upper b) = true.
Proof.
  induction b as [|x b IH]; [reflexivity|].
  unfold hex_encode_upper in *. cbn [flat_map app forallb]. rewrite IH.
  destruct (hex_byte x) as (vh & vl & _ & _ & _ & Hu1 & Hu2). rewrite Hu1, Hu2. reflexivity.
Qed.

Lemma length_hex_encode_upper b : length (hex_encode_upper b) = (2 * length b)%nat.
Proof.
  induction b as [|x b IH]; [reflexivity|].
  unfold hex_encode_upper in *. cbn [flat_map app length]. rewrite IH. lia.
Qed.

(** ** The public-key line *)

(** Replaces [bs] of a literal by its bytes. *)
Ltac bs_lit := repeat match goal with |- context [bs ?s] =>
  let v := eval vm_compute in (bs s) in change (bs s) with v end.

Lemma bytes_eqb_refl a : bytes_eqb a a = true.
Proof. unfold bytes_eqb. destruct (list_eq_dec Byte.byte_eq_dec a a); congruence. Qed.

Lemma firstn_app_length {A} n (a b : list A) : n = length a -> firstn n (a ++ b) = a.
Proof. intros ->. rewrite firstn_app, firstn_all, Nat.sub_diag, app_nil_r. reflexivity. Qed.

Lemma skipn_app_ge {A} n (a b : list A) :
  (length a <= n)%nat -> skipn n (a ++ b) = skipn (n - length a) b.
Proof. intros Hn. rewrite skipn_app, skipn_all2 by exact Hn. reflexivity. Qed.

Lemma in_skipn_in {A} n (l : list A) x : In x (skipn n l) -> In x l.
Proof. intros Hx. rewrite <- (firstn_skipn n l). apply in_or_app. right. exact Hx. Qed.

Lemma contains_control_no_newline s :
  contains_control s = false -> forallb (fun b => negb (Byte.eqb b newline)) s = true.
Proof.
  induction s as [|b s IH]; [reflexivity|]. cbn [contains_control forallb].
  destruct ((Byte.to_N b <? 32)%N || (Byte.to_N b =? 127)%N) eqn:Ec; [discriminate|].
  intros Hs. apply andb_true_intro. split.
  - destruct (Byte.eqb b newline) eqn:En; [|reflexivity].
    apply Byte.byte_dec_bl in En. subst b. discriminate.
  - apply IH. destruct (Byte.to_N b =? 194)%N; [|exact Hs].
    destruct s as [|c s']; [reflexivity|].
    destruct ((128 <=? Byte.to_N c)%N && (Byte.to_N c <=? 159)%N); [discriminate | exact Hs].
Qed.

Lemma boring_byte_printable b : boring_byte b = is_printable b.
Proof.
  unfold boring_byte, is_printable.
  destruct (N.ltb_spec (Byte.to_N b) 33), (N.ltb_spec 126 (Byte.to_N b)),
    (N.leb_spec 33 (Byte.to_N b)), (N.leb_spec (Byte.to_N b) 126); try reflexivity; lia.
Qed.

Lemma identity_new_inv nm em id :
  identity_new nm em = Some id ->
  id = {| name := nm; email := em |} /\ contains_control nm = false
  /\ forallb is_printable em = true.
Proof.
  unfold identity_new, boring_from_bytes. destruct (contains_control nm); [discriminate|].
  destruct (forallb boring_byte em) eqn:Eb; [|discriminate]. intros Hid. injection Hid as <-.
  repeat split. rewrite <- Eb. clear Eb. induction em as [|b em IH]; [reflexivity|].
  cbn [forallb]. rewrite IH, boring_byte_printable. reflexivity.
Qed.

Lemma printable_not_space b : is_printable b = true -> Byte.eqb b space = false.
Proof.
  intros Hb. destruct (Byte.eqb b space) eqn:E; [|reflexivity].
  apply Byte.byte_dec_bl in E. subst b. discriminate.
Qed.

Lemma pk_regex_first_split_ok nm em :
  forallb (fun b => negb (Byte.eqb b newline)) nm = true -> forallb is_printable em = true ->
  pk_regex_first_split (nm ++ space :: Byte.x3c :: em) (length (nm ++ space :: Byte.x3c :: em))
  = Some (nm, em).
Proof.
  intros Hnm Hem. set (core := nm ++ space :: Byte.x3c :: em).
  assert (Hd : forall d, (d <= 2 + length em)%nat ->
                 pk_regex_first_split core (length nm + d) = Some (nm, em)).
  { induction d as [|d IH]; intros Hd.
    - rewrite Nat.add_0_r. destruct (length nm) eqn:Hl; cbn [pk_regex_first_split];
        unfold pk_regex_split; unfold core; rewrite <- Hl, firstn_app_length, skipn_app_ge,
        Nat.sub_diag by lia; cbn [skipn]; rewrite Hnm, Hem; reflexivity.
    - rewrite Nat.add_succ_r. cbn [pk_regex_first_split].
      replace (pk_regex_split core (S (length nm + d))) with (@None (bytes * bytes)).
      { apply IH. lia. }
      unfold pk_regex_split, core. rewrite skipn_app_ge by lia.
      replace (S (length nm + d) - length nm)%nat with (S d) by lia. cbn [skipn].
      destruct d as [|d].
      + destruct em; reflexivity.
      + cbn [skipn]. destruct (skipn d em) as [|c1 [|c2 em']] eqn:Es; try reflexivity.
        assert (Hc : In c1 em) by (apply (in_skipn_in d); rewrite Es; left; reflexivity).
        rewrite forallb_forall in Hem. rewrite (printable_not_space c1 (Hem c1 Hc)).
        reflexivity. }
  replace (length core) with (length nm + (2 + length em))%nat
    by (unfold core; rewrite length_app; reflexivity).
  apply Hd. lia.
Qed.

Lemma skipn_app_length {A} n (a b : list A) : n = length a -> skipn n (a ++ b) = b.
Proof. intros ->. rewrite skipn_app_ge, Nat.sub_diag by lia. reflexivity. Qed.

Lemma skipn_app_plus {A} n k (a b : list A) : n = length a -> skipn (n + k) (a ++ b) = skipn k b.
Proof.
  intros ->. rewrite skipn_app_ge by lia. replace (length a + k - length a)%nat with k by lia.
  reflexivity.
Qed.

Lemma pk_regex_tail_ok hk ha :
  length hk = 64%nat -> length ha = 200%nat ->
  forallb is_upper_hex hk = true -> forallb is_upper_hex ha = true ->
  pk_regex_tail (bs "0 Beta> " ++ hk ++ bs " " ++ ha ++ bs "]") = Some (hk, ha).
Proof.
  intros Hk Ha Uk Ua. unfold pk_regex_tail. cbv zeta.
  set (t := bs "0 Beta> " ++ hk ++ bs " " ++ ha ++ bs "]").
  assert (F8 : firstn 8 t = bs "0 Beta> ") by (apply firstn_app_length; reflexivity).
  assert (S8 : skipn 8 t = hk ++ bs " " ++ ha ++ bs "]")
    by (apply (skipn_app_plus 8 0); reflexivity).
  assert (S72 : skipn 72 t = bs " " ++ ha ++ bs "]").
  { replace 72%nat with (8 + 64)%nat by reflexivity. unfold t.
    rewrite skipn_app_plus by reflexivity. apply (skipn_app_plus 64 0). lia. }
  assert (S73 : skipn 73 t = ha ++ bs "]").
  { replace 73%nat with (8 + (64 + (1 + 0)))%nat by reflexivity. unfold t.
    rewrite !skipn_app_plus by (try reflexivity; lia). reflexivity. }
  assert (S273 : skipn 273 t = bs "]").
  { replace 273%nat with (8 + (64 + (1 + (200 + 0))))%nat by reflexivity. unfold t.
    rewrite !skipn_app_plus by (try reflexivity; lia). reflexivity. }
  assert (L : length t = 274%nat) by (unfold t; rewrite !length_app, Hk, Ha; reflexivity).
  rewrite F8, S8, S72, S73, S273, L.
  rewrite (firstn_app_length 64 hk) by lia. rewrite (firstn_app_length 200 ha) by lia.
  rewrite (firstn_app_length 1 (bs " ")) by reflexivity.
  rewrite !bytes_eqb_refl, Uk, Ua. reflexivity.
Qed.

Lemma pk_regex_format nm em hk ha :
  forallb (fun b => negb (Byte.eqb b newline)) nm = true -> forallb is_printable em = true ->
  length hk = 64%nat -> length ha = 200%nat ->
  forallb is_upper_hex hk = true -> forallb is_upper_hex ha = true ->
  pk_regex (bs "[" ++ nm ++ bs " <" ++ em ++ bs "> <" ++ ZEBRA_ONE_BETA ++ bs "> " ++ hk
            ++ bs " " ++ ha ++ bs "]") = Some (nm, em, hk, ha).
Proof.
  intros Hnm Hem Hk Ha Uk Ua.
  set (core := nm ++ space :: Byte.x3c :: em).
  set (tail := bs "0 Beta> " ++ hk ++ bs " " ++ ha ++ bs "]").
  assert (Hb : nm ++ bs " <" ++ em ++ bs "> <" ++ ZEBRA_ONE_BETA ++ bs "> " ++ hk ++ bs " " ++ ha
               ++ bs "]" = core ++ bs "> <ZebraSign 1" ++ bs "." ++ tail)
    by (unfold core, tail; rewrite <- !app_assoc; reflexivity).
  assert (Ht : length tail = 274%nat)
    by (unfold tail; rewrite !length_app, Hk, Ha; reflexivity).
  change (bs "[") with [Byte.x5b]. cbn [app]. rewrite Hb. cbn [pk_regex Byte.eqb].
  cbn [map first_some].
  assert (Hw : pk_regex_with 1 (core ++ bs "> <ZebraSign 1" ++ bs "." ++ tail)
               = Some (nm, em, hk, ha)).
  { unfold pk_regex_with. rewrite !length_app, Ht. bs_lit. cbn [length].
    replace (288 + 1 <=? length core + (14 + (1 + 274)))%nat with true
      by (symmetry; apply Nat.leb_le; lia).
    replace (length core + (14 + (1 + 274)) - (288 + 1))%nat with (length core) by lia.
    replace (length core + (14 + (1 + 274)) - (274 + 1))%nat with (length core + 14)%nat by lia.
    replace (length core + (14 + (1 + 274)) - 274)%nat with (length core + 15)%nat by lia.
    rewrite (firstn_app_length (length core) core) by reflexivity.
    rewrite (skipn_app_length (length core) core) by reflexivity.
    rewrite (skipn_app_plus (length core) 14 core) by reflexivity.
    replace (length core + 15)%nat with (length core + (14 + 1))%nat by lia.
    rewrite (skipn_app_plus (length core) (14 + 1) core) by reflexivity.
    rewrite (skipn_app_plus 14 1) by reflexivity.
    rewrite (skipn_app_length 14) by reflexivity.
    rewrite (skipn_app_length 1) by reflexivity.
    rewrite (firstn_app_length 14) by reflexivity.
    rewrite (firstn_app_length 1) by reflexivity.
    cbn [regex_any_char].
    rewrite bytes_eqb_refl. cbn [andb].
    unfold tail. rewrite pk_regex_tail_ok by assumption.
    unfold core. rewrite pk_regex_first_split_ok by assumption. reflexivity. }
  rewrite Hw. reflexivity.
Qed.

Lemma p_signature_all `{Primitives} `{!RistrettoLaws} s :
  signature_in_range s -> (Z.of_nat (length (ring_responses s)) <= U32_MAX)%Z ->
  p_signature (signature_bytes s) = Some (s, []).
Proof.
  intros Hs Hl. rewrite <- (app_nil_r (signature_bytes s)). apply p_signature_ok; assumption.
Qed.

Lemma length_signature_bytes `{Primitives} `{!RistrettoLaws} s :
  length (signature_bytes s) = (36 + 64 * length (ring_responses s))%nat.
Proof.
  unfold signature_bytes, scalar_as_bytes. rewrite !length_app, !length_le_bytes.
  induction (ring_responses s) as [|[p r] rr IH]; [reflexivity|].
  cbn [flat_map length fst snd]. rewrite length_app, length_app, compress_length, length_le_bytes.
  lia.
Qed.

(** ** Ranges of the values [Signature::sign] computes *)

Lemma Forall_set_nth {A} (P : A -> Prop) i x l : Forall P l -> P x -> Forall P (set_nth i x l).
Proof.
  intros Hl Hx. revert i. induction Hl as [|y l Hy Hl IH]; intros [|i]; simpl; constructor; auto.
Qed.

Lemma fold_left_inv {A B} (f : A -> B -> A) (P : A -> Prop) l a :
  P a -> (forall a b, P a -> P (f a b)) -> P (fold_left f l a).
Proof. revert a; induction l as [|b l IH]; intros a Ha Hf; simpl; auto. Qed.

Lemma nth_Forall_range i l : Forall (fun x => (0 <= x < ell)%Z) l -> (0 <= nth i l 0%Z < ell)%Z.
Proof.
  intros Hl. destruct (Nat.lt_ge_cases i (length l)) as [Hi|Hi].
  - rewrite Forall_forall in Hl. apply Hl, nth_In, Hi.
  - rewrite nth_overflow by exact Hi. pose proof ell_pos. lia.
Qed.

Lemma mod_ell_range z : (0 <= z mod ell < ell)%Z.
Proof. apply Z.mod_pos_bound, ell_pos. Qed.

Section SignRange.
Context `{Primitives}.

Lemma signature_sign_range msg k others rng s :
  Forall (fun p => (0 <= p < ell)%Z) others ->
  signature_sign msg k others rng = Some s -> signature_in_range s.
Proof.
  intros Ho. unfold signature_sign. cbv zeta.
  destruct (binary_search_by_key _ _) as [idx|]; [|discriminate].
  match goal with |- context [fold_left ?f ?l ?a] => destruct (fold_left f l a) as [cs U] eqn:Hf end.
  assert (Hcs : Forall (fun x => (0 <= x < ell)%Z) cs).
  { change cs with (fst (cs, U)). rewrite <- Hf.
    apply (fold_left_inv _ (fun st => Forall (fun x => (0 <= x < ell)%Z) (fst st))).
    - cbn [fst]. apply Forall_forall. intros x Hx. apply repeat_spec in Hx. subst x.
      unfold scalar_ZERO. pose proof ell_pos. lia.
    - intros [cs' U'] b Hcs'. unfold sign_round. cbn [fst].
      apply Forall_set_nth; [exact Hcs'|]. apply mod_ell_range. }
  intros E. injection E as <-. split; cbn [challenge ring_responses].
  - apply nth_Forall_range, Hcs.
  - apply Forall_forall. intros [p r] Hin. cbn [fst snd]. split.
    + apply in_combine_l in Hin.
      apply (Permutation_in _ (make_ring_perm _ _ _)) in Hin. apply in_app_or in Hin.
      destruct Hin as [Hin|[<-|[]]].
      * rewrite Forall_forall in Ho. apply Ho, Hin.
      * apply mul_base_range.
    + apply in_combine_r in Hin.
      assert (Hr : Forall (fun x => (0 <= x < ell)%Z)
                     (set_nth idx (scalar_sub (scalar_random (rng (length others + 1)%nat))
                                     (scalar_mul (nth idx cs 0%Z) k))
                        (map (fun i => scalar_random (rng i)) (seq 0 (length others + 1))))).
      { apply Forall_set_nth; [|apply mod_ell_range].
        apply Forall_forall. intros x Hx. apply in_map_iff in Hx. destruct Hx as [i [<- _]].
        apply mod_ell_range. }
      rewrite Forall_forall in Hr. apply Hr, Hin.
Qed.

End SignRange.

(** ** Borsh round trips of public keys and signed payloads *)

Lemma identity_new_boring nm em id :
  identity_new nm em = Some id -> boring_from_bytes em = Some em.
Proof.
  unfold identity_new, boring_from_bytes. destruct (contains_control nm); [discriminate|].
  destruct (forallb boring_byte em); [reflexivity | discriminate].
Qed.

Section PayloadRoundTrip.
Context `{Primitives} `{!RistrettoLaws}.

Lemma ser_public_key_ok k : public_key_wf k -> ser_public_key k = w_ok (public_key_bytes k).
Proof.
  intros (( _ & _ & Hn & He) & _ & _ & Hl).
  unfold ser_public_key, ser_identity, ser_version, ser_point.
  rewrite (ser_bytes_ok _ Hn), (ser_bytes_ok _ He), (ser_signature_ok _ Hl), !w_then_ok.
  unfold public_key_bytes. rewrite <- !app_assoc. reflexivity.
Qed.

Lemma p_identity_ok id rest : identity_wf id ->
  p_identity (le_bytes 4 (Z.of_nat (length (name id))) ++ name id
              ++ le_bytes 4 (Z.of_nat (length (email id))) ++ email id ++ rest) = Some (id, rest).
Proof.
  intros (Hid & Hu & Hn & He). unfold p_identity, p_string, p_boring.
  rewrite (p_bind_some _ _ _ (name id) (le_bytes 4 (Z.of_nat (length (email id))) ++ email id ++ rest)).
  2: { rewrite (p_bind_some _ _ _ (name id) _) by (apply p_bytes_ok, Hn).
       rewrite Hu. reflexivity. }
  rewrite (p_bind_some _ _ _ (email id) rest).
  2: { rewrite (p_bind_some _ _ _ (email id) _) by (apply p_bytes_ok, He).
       unfold p_lift. rewrite (identity_new_boring _ _ _ Hid). reflexivity. }
  unfold p_lift. rewrite Hid. reflexivity.
Qed.

Lemma p_version_ok rest : p_version ([Byte.x00] ++ rest) = Some (ZebraOneBeta, rest).
Proof.
  unfold p_version. rewrite (p_bind_some _ _ _ [Byte.x00] rest) by (apply p_take_app; reflexivity).
  reflexivity.
Qed.

Lemma p_public_key_ok k rest : public_key_wf k -> p_public_key (public_key_bytes k ++ rest) = Some (k, rest).
Proof.
  intros (Hid & Hkp & Hatt & Hl).
  unfold p_public_key, public_key_bytes. rewrite <- !app_assoc.
  rewrite (p_bind_some _ _ _ (holder k) _) by (apply p_identity_ok, Hid).
  rewrite (p_bind_some _ _ _ ZebraOneBeta _) by (apply p_version_ok).
  rewrite (p_bind_some _ _ _ (keypoint k) _) by (apply p_point_ok, Hkp).
  rewrite (p_bind_some _ _ _ (holder_attestation k) rest) by (apply p_signature_ok; assumption).
  destruct k as [h [] kp att]. reflexivity.
Qed.

Lemma ser_signed_payload_ok c ring :
  Forall (fun ks => public_key_wf (fst ks)) ring -> (Z.of_nat (length ring) <= U32_MAX)%Z ->
  ser_signed_payload c ring = w_ok (signed_payload_bytes c ring).
Proof.
  intros Hw Hl. unfold ser_signed_payload, signed_payload_bytes, ser_scalar.
  rewrite (ser_vec_ok _ (fun ks => public_key_bytes (fst ks) ++ scalar_as_bytes (snd ks))).
  - apply w_then_ok.
  - intros [k s] Hin. rewrite Forall_forall in Hw. cbn [fst snd].
    rewrite (ser_public_key_ok k (Hw _ Hin)). apply w_then_ok.
  - exact Hl.
Qed.

Lemma p_signed_payload_ok c ring rest :
  (0 <= c < ell)%Z ->
  Forall (fun ks => public_key_wf (fst ks) /\ (0 <= snd ks < ell)%Z) ring ->
  (Z.of_nat (length ring) <= U32_MAX)%Z ->
  p_signed_payload (signed_payload_bytes c ring ++ rest) = Some ((c, ring), rest).
Proof.
  intros Hc Hw Hl. unfold p_signed_payload, signed_payload_bytes. rewrite <- !app_assoc.
  rewrite (p_bind_some _ _ _ c _) by (apply p_scalar_ok, Hc).
  rewrite (p_bind_some _ _ _ ring rest); [reflexivity|].
  apply p_vec_ok; [|exact Hl]. intros [k s] Hin r. rewrite Forall_forall in Hw.
  destruct (Hw _ Hin) as [Hk Hs]. cbn [fst snd] in *. rewrite <- app_assoc.
  rewrite (p_bind_some _ _ _ k _) by (apply p_public_key_ok, Hk).
  rewrite (p_bind_some _ _ _ s r) by (apply p_scalar_ok, Hs). reflexivity.
Qed.

End PayloadRoundTrip.

(** ** The spaced fingerprint *)

Lemma fingerprint_groups `{Primitives} `{!CodecLaws} (k : PublicKey) :
  exists g1 g2 g3 g4,
    z85_encode (sha3_256 (fst (ser_public_key k))) = g1 ++ g2 ++ g3 ++ g4
    /\ length g1 = 10%nat /\ length g2 = 10%nat /\ length g3 = 10%nat /\ length g4 = 10%nat
    /\ fingerprint k = Some (g1 ++ space :: g2 ++ space :: g3 ++ space :: g4)
    /\ length (g1 ++ space :: g2 ++ space :: g3 ++ space :: g4) = 43%nat.
Proof.
  assert (Hl : length (z85_encode (sha3_256 (fst (ser_public_key k)))) = 40%nat)
    by (rewrite z85_encode_length; rewrite sha3_256_length; reflexivity).
  destruct (split_four_tens _ Hl) as (g1 & g2 & g3 & g4 & He & H1 & H2 & H3 & H4).
  exists g1, g2, g3, g4. repeat split; try assumption.
  - unfold fingerprint. rewrite He.
    rewrite (app_assoc g1), (app_assoc (g1 ++ g2)).
    rewrite vec_insert_app by (rewrite !length_app; lia).
    rewrite <- (app_assoc (g1 ++ g2)).
    rewrite vec_insert_app by (rewrite !length_app; lia).
    rewrite <- (app_assoc g1).
    rewrite vec_insert_app by lia. reflexivity.
  - repeat first [rewrite length_app | rewrite length_cons]. lia.
Qed.

(** ** Splitting and joining lines *)

Lemma split_on_nonempty sep x : split_on sep x <> [].
Proof.
  destruct x as [|c x]; cbn [split_on]; [discriminate|].
  destruct (Byte.eqb c sep); [discriminate|]. destruct (split_on sep x); discriminate.
Qed.

Lemma split_on_no_sep sep x :
  forallb (fun b => negb (Byte.eqb b sep)) x = true -> split_on sep x = [x].
Proof.
  induction x as [|c x IH]; [reflexivity|]. cbn [forallb split_on].
  intros Hx. apply andb_prop in Hx. destruct Hx as [Hc Hx].
  destruct (Byte.eqb c sep); [discriminate|]. rewrite (IH Hx). reflexivity.
Qed.

Lemma split_on_app_sep sep x y :
  split_on sep (x ++ sep :: y) = split_on sep x ++ split_on sep y.
Proof.
  induction x as [|c x IH].
  - cbn [app split_on]. rewrite (Byte.byte_dec_lb eq_refl). reflexivity.
  - cbn [app split_on]. destruct (Byte.eqb c sep); [rewrite IH; reflexivity|].
    rewrite IH. pose proof (split_on_nonempty sep x) as Hn.
    destruct (split_on sep x) as [|p ps]; [contradiction|]. reflexivity.
Qed.

Lemma split_on_join sep l :
  l <> [] -> split_on sep (join [sep] l) = flat_map (split_on sep) l.
Proof.
  induction l as [|x l IH]; intros Hl; [contradiction|].
  destruct l as [|y l].
  - cbn [join flat_map]. rewrite app_nil_r. reflexivity.
  - change (join [sep] (x :: y :: l)) with (x ++ [sep] ++ join [sep] (y :: l)).
    cbn [app]. rewrite split_on_app_sep, IH by discriminate. reflexivity.
Qed.

Lemma join_cons_head (sep : bytes) (c : byte) (p : bytes) (ps : list bytes) : join sep ((c :: p) :: ps) = c :: join sep (p :: ps).
Proof. destruct ps; reflexivity. Qed.

Lemma join_split sep x : join [sep] (split_on sep x) = x.
Proof.
  induction x as [|c x IH]; [reflexivity|]. cbn [split_on].
  destruct (Byte.eqb c sep) eqn:Ec.
  - apply Byte.byte_dec_bl in Ec. subst c. pose proof (split_on_nonempty sep x) as Hn.
    destruct (split_on sep x) as [|p ps] eqn:Es; [contradiction|]. cbv iota.
    change (join [sep] ([] :: p :: ps)) with ([] ++ [sep] ++ join [sep] (p :: ps)).
    rewrite IH. reflexivity.
  - pose proof (split_on_nonempty sep x) as Hn.
    destruct (split_on sep x) as [|p ps] eqn:Es; [contradiction|]. cbv iota.
    rewrite join_cons_head, IH. reflexivity.
Qed.

Lemma join_cons_cons (sep x y : bytes) (l : list bytes) :
  join sep (x :: y :: l) = x ++ sep ++ join sep (y :: l).
Proof. reflexivity. Qed.

Lemma join_cons_prefix (sep x : bytes) (l : list bytes) : exists r, join sep (x :: l) = x ++ r.
Proof.
  destruct l as [|y l]; [exists []; rewrite app_nil_r; reflexivity|].
  eexists. reflexivity.
Qed.

Lemma join_snoc_suffix (sep : bytes) (l : list bytes) (x : bytes) : exists r, join sep (l ++ [x]) = r ++ x.
Proof.
  induction l as [|y l IH]; [exists []; reflexivity|].
  destruct IH as [r Hr]. destruct l as [|z l].
  - exists (y ++ sep). cbn [app join]. rewrite <- app_assoc. reflexivity.
  - exists (y ++ sep ++ r). cbn [app] in *. rewrite join_cons_cons, Hr, !app_assoc.
    reflexivity.
Qed.

Lemma printable_no_newline x :
  forallb is_printable x = true -> forallb (fun b => negb (Byte.eqb b newline)) x = true.
Proof.
  induction x as [|b x IH]; [reflexivity|]. cbn [forallb]. intros Hx.
  apply andb_prop in Hx. destruct Hx as [Hb Hx]. rewrite (IH Hx), andb_true_r.
  destruct (Byte.eqb b newline) eqn:E; [|reflexivity].
  apply Byte.byte_dec_bl in E. subst b. discriminate.
Qed.

(** ** Trimming a formatted text *)

Lemma ws_prefix_len_app a b : (3 <= length a)%nat -> ws_prefix_len (a ++ b) = ws_prefix_len a.
Proof.
  intros Ha. unfold ws_prefix_len. rewrite !firstn_app.
  replace (1 - length a)%nat with O by lia. replace (2 - length a)%nat with O by lia.
  replace (3 - length a)%nat with O by lia. rewrite !app_nil_r. reflexivity.
Qed.

Lemma lastn_app {A} k (a b : list A) : (k <= length b)%nat -> lastn k (a ++ b) = lastn k b.
Proof.
  intros Hk. unfold lastn. rewrite length_app.
  replace (length a + length b - k)%nat with (length a + (length b - k))%nat by lia.
  apply skipn_app_plus. reflexivity.
Qed.

Lemma ws_suffix_len_app a b : (3 <= length b)%nat -> ws_suffix_len (a ++ b) = ws_suffix_len b.
Proof.
  intros Hb. unfold ws_suffix_len. rewrite !lastn_app by lia. reflexivity.
Qed.

Lemma trim_id s : ws_prefix_len s = 0%nat -> ws_suffix_len s = 0%nat -> trim s = s.
Proof.
  intros Hp Hs. unfold trim, trim_start, trim_end.
  rewrite (trim_start_fuel_id _ _ Hp). apply trim_end_fuel_id, Hs.
Qed.

(** ** The lines of a signed message *)

Lemma nth_app_plus {A} (a b : list A) n k d : n = (length a + k)%nat -> nth n (a ++ b) d = nth k b d.
Proof. intros ->. apply app_nth2_plus. Qed.

Lemma ring_line_ok `{Primitives} `{!CodecLaws} k :
  public_key_wf k ->
  exists l, ring_line k = Some l /\ forallb (fun b => negb (Byte.eqb b newline)) l = true.
Proof.
  intros ((Hid & _) & _).
  destruct (identity_new_inv _ _ _ Hid) as (_ & Hc & He).
  destruct (fingerprint_groups k) as (g1 & g2 & g3 & g4 & Hz & _ & _ & _ & _ & Hf & _).
  pose proof (z85_encode_printable (sha3_256 (fst (ser_public_key k)))) as Hp.
  rewrite Hz, !forallb_app in Hp.
  apply andb_prop in Hp. destruct Hp as [P1 Hp]. apply andb_prop in Hp. destruct Hp as [P2 Hp].
  apply andb_prop in Hp. destruct Hp as [P3 P4].
  unfold ring_line. rewrite Hf. eexists. split; [reflexivity|].
  repeat first [rewrite forallb_app | progress cbn [forallb]].
  rewrite (contains_control_no_newline _ Hc), (printable_no_newline _ He),
    (printable_no_newline _ P1), (printable_no_newline _ P2), (printable_no_newline _ P3),
    (printable_no_newline _ P4).
  reflexivity.
Qed.

Lemma ring_lines_map `{Primitives} (g : PublicKey -> bytes) (ring : list (PublicKey * Scalar)) :
  Forall (fun k => ring_line k = Some (g k)) (map fst ring) ->
  ring_lines ring = Some (map g (map fst ring)).
Proof.
  induction ring as [|[k s] ring IH]; intros Hr; [reflexivity|].
  inversion Hr as [|? ? Hk Hrest]. cbn [ring_lines map fst]. rewrite Hk, (IH Hrest).
  reflexivity.
Qed.

Lemma check_ring_lines_ok `{Primitives} (g : PublicKey -> bytes) (A : list bytes)
  (ks : list PublicKey) (ls2 B : list bytes) (i : nat) :
  length B = 4%nat -> length ls2 = i -> Forall (fun k => ring_line k = Some (g k)) ks ->
  check_ring_lines (A ++ map g ks ++ ls2 ++ B) i (rev ks) = ok tt.
Proof.
  intros HB. revert ls2 i. induction ks as [|k ks IH] using rev_ind; intros ls2 i Hi Hks;
    [reflexivity|].
  apply Forall_app in Hks. destruct Hks as [Hks Hk]. inversion Hk as [|? ? Hgk _].
  rewrite rev_app_distr. cbn [rev app check_ring_lines].
  rewrite map_app, <- app_assoc. cbn [map app].
  assert (Hlen : length (A ++ map g ks ++ g k :: ls2 ++ B)
                 = (length A + length ks + 1 + i + 4)%nat).
  { repeat first [rewrite length_app | rewrite length_cons | rewrite length_map]. lia. }
  rewrite Hlen.
  replace (length A + length ks + 1 + i + 4 <? 5 + i)%nat with false
    by (symmetry; apply Nat.ltb_ge; lia).
  rewrite Hgk. rewrite app_assoc.
  rewrite (nth_app_plus _ _ _ 0) by (rewrite length_app, length_map; lia).
  cbn [nth]. rewrite bytes_eqb_refl, <- app_assoc.
  apply (IH (g k :: ls2) (S i)); [cbn [length]; lia | exact Hks].
Qed.

Lemma flat_map_split_on_no_sep (l : list bytes) :
  Forall (fun x => forallb (fun b => negb (Byte.eqb b newline)) x = true) l ->
  flat_map (split_on newline) l = l.
Proof.
  induction l as [|x l IH]; intros Hl; [reflexivity|]. inversion Hl as [|? ? Hx Hrest].
  cbn [flat_map]. rewrite (split_on_no_sep _ _ Hx), (IH Hrest). reflexivity.
Qed.

Section SignedMessageText.
Context `{Primitives} `{!RistrettoLaws} `{!CodecLaws}.

(** The formatted text of a signed message, as the lines the parser sees. *)
Lemma signed_message_text_lines (msg z : bytes) (ids : list bytes) :
  Forall (fun x => forallb (fun b => negb (Byte.eqb b newline)) x = true) ids ->
  forallb (fun b => negb (Byte.eqb b newline)) z = true ->
  let str := join [newline]
       ([SIGNED_MESSAGE_FIRST_LINE; SIGNED_MESSAGE_SECOND_LINE; msg;
         SIGNED_MESSAGE_INFIX_FIRST_LINE; SIGNED_MESSAGE_INFIX_SECOND_LINE;
         SIGNED_MESSAGE_INFIX_THIRD_LINE; SIGNED_MESSAGE_INFIX_FOURTH_LINE]
        ++ ids ++ [[]; z; SIGNED_MESSAGE_SUFFIX_FIRST_LINE; SIGNED_MESSAGE_SUFFIX_SECOND_LINE]) in
  trim str = str
  /\ split_on newline str
     = (SIGNED_MESSAGE_FIRST_LINE :: SIGNED_MESSAGE_SECOND_LINE :: split_on newline msg
        ++ [SIGNED_MESSAGE_INFIX_FIRST_LINE; SIGNED_MESSAGE_INFIX_SECOND_LINE;
            SIGNED_MESSAGE_INFIX_THIRD_LINE; SIGNED_MESSAGE_INFIX_FOURTH_LINE])
       ++ ids ++ [[]; z; SIGNED_MESSAGE_SUFFIX_FIRST_LINE; SIGNED_MESSAGE_SUFFIX_SECOND_LINE].
Proof.
  intros Hids Hz str. split.
  - apply trim_id.
    + unfold str. cbn [app].
      destruct (join_cons_prefix [newline] SIGNED_MESSAGE_FIRST_LINE
        (SIGNED_MESSAGE_SECOND_LINE :: msg :: SIGNED_MESSAGE_INFIX_FIRST_LINE
         :: SIGNED_MESSAGE_INFIX_SECOND_LINE :: SIGNED_MESSAGE_INFIX_THIRD_LINE
         :: SIGNED_MESSAGE_INFIX_FOURTH_LINE
         :: ids ++ [[]; z; SIGNED_MESSAGE_SUFFIX_FIRST_LINE; SIGNED_MESSAGE_SUFFIX_SECOND_LINE]))
        as [r Hr].
      rewrite Hr, ws_prefix_len_app by (vm_compute; lia). vm_compute. reflexivity.
    + unfold str.
      replace ([SIGNED_MESSAGE_FIRST_LINE; SIGNED_MESSAGE_SECOND_LINE; msg;
         SIGNED_MESSAGE_INFIX_FIRST_LINE; SIGNED_MESSAGE_INFIX_SECOND_LINE;
         SIGNED_MESSAGE_INFIX_THIRD_LINE; SIGNED_MESSAGE_INFIX_FOURTH_LINE]
        ++ ids ++ [[]; z; SIGNED_MESSAGE_SUFFIX_FIRST_LINE; SIGNED_MESSAGE_SUFFIX_SECOND_LINE])
        with (([SIGNED_MESSAGE_FIRST_LINE; SIGNED_MESSAGE_SECOND_LINE; msg;
         SIGNED_MESSAGE_INFIX_FIRST_LINE; SIGNED_MESSAGE_INFIX_SECOND_LINE;
         SIGNED_MESSAGE_INFIX_THIRD_LINE; SIGNED_MESSAGE_INFIX_FOURTH_LINE]
        ++ ids ++ [[]; z; SIGNED_MESSAGE_SUFFIX_FIRST_LINE]) ++ [SIGNED_MESSAGE_SUFFIX_SECOND_LINE])
        by (rewrite <- !app_assoc; reflexivity).
      destruct (join_snoc_suffix [newline]
        ([SIGNED_MESSAGE_FIRST_LINE; SIGNED_MESSAGE_SECOND_LINE; msg;
          SIGNED_MESSAGE_INFIX_FIRST_LINE; SIGNED_MESSAGE_INFIX_SECOND_LINE;
          SIGNED_MESSAGE_INFIX_THIRD_LINE; SIGNED_MESSAGE_INFIX_FOURTH_LINE]
         ++ ids ++ [[]; z; SIGNED_MESSAGE_SUFFIX_FIRST_LINE]) SIGNED_MESSAGE_SUFFIX_SECOND_LINE)
        as [r Hr].
      rewrite Hr, ws_suffix_len_app by (vm_compute; lia). vm_compute. reflexivity.
  - unfold str. rewrite split_on_join by discriminate. cbn [app flat_map].
    rewrite flat_map_app, (flat_map_split_on_no_sep ids Hids). cbn [flat_map].
    rewrite (split_on_no_sep _ z Hz).
    change (split_on newline SIGNED_MESSAGE_FIRST_LINE) with [SIGNED_MESSAGE_FIRST_LINE].
    change (split_on newline SIGNED_MESSAGE_SECOND_LINE) with [SIGNED_MESSAGE_SECOND_LINE].
    change (split_on newline SIGNED_MESSAGE_INFIX_FIRST_LINE) with [SIGNED_MESSAGE_INFIX_FIRST_LINE].
    change (split_on newline SIGNED_MESSAGE_INFIX_SECOND_LINE) with [SIGNED_MESSAGE_INFIX_SECOND_LINE].
    rewrite (split_on_no_sep newline SIGNED_MESSAGE_INFIX_THIRD_LINE) by (vm_compute; reflexivity).
    change (split_on newline SIGNED_MESSAGE_INFIX_FOURTH_LINE) with [SIGNED_MESSAGE_INFIX_FOURTH_LINE].
    change (split_on newline SIGNED_MESSAGE_SUFFIX_FIRST_LINE) with [SIGNED_MESSAGE_SUFFIX_FIRST_LINE].
    rewrite (split_on_no_sep newline SIGNED_MESSAGE_SUFFIX_SECOND_LINE) by (vm_compute; reflexivity).
    change (split_on newline []) with [@nil byte].
    cbn [app]. rewrite <- !app_assoc. reflexivity.
Qed.

End SignedMessageText.

Section SignedMessageRoundTrip.
Context `{Primitives} `{!RistrettoLaws} `{!CodecLaws}.

(** A signed message with a nonempty ring of well-formed keys and canonical scalars comes
    back from its text. *)
Lemma signed_message_text_roundtrip (m : SignedMessage.t) :
  SignedMessage.ring m <> [] ->
  (0 <= SignedMessage.challenge m < ell)%Z ->
  Forall (fun ks => public_key_wf (fst ks) /\ (0 <= snd ks < ell)%Z) (SignedMessage.ring m) ->
  (Z.of_nat (length (SignedMessage.ring m)) <= U32_MAX)%Z ->
  exists str, signed_message_to_string m = Some str /\ signed_message_from_str str = ok m.
Proof.
  destruct m as [msg c ring]. cbn [SignedMessage.ring SignedMessage.challenge].
  intros Hne Hc Hw Hl.
  set (g := fun k => match ring_line k with Some l => l | None => [] end).
  assert (Hg : Forall (fun k => ring_line k = Some (g k)
                                /\ forallb (fun b => negb (Byte.eqb b newline)) (g k) = true)
                 (map fst ring)).
  { apply Forall_forall. intros k Hk. apply in_map_iff in Hk. destruct Hk as [[k' s] [<- Hin]].
    rewrite Forall_forall in Hw. destruct (Hw _ Hin) as [Hk _]. cbn [fst] in *.
    destruct (ring_line_ok k' Hk) as [l [E Hn]]. unfold g. rewrite E. auto. }
  assert (Hrl : ring_lines ring = Some (map g (map fst ring))).
  { apply ring_lines_map. apply Forall_forall. intros k Hk.
    rewrite Forall_forall in Hg. apply (Hg k Hk). }
  assert (Hids : Forall (fun x => forallb (fun b => negb (Byte.eqb b newline)) x = true)
                   (map g (map fst ring))).
  { apply Forall_forall. intros x Hx. apply in_map_iff in Hx. destruct Hx as [k [<- Hk]].
    rewrite Forall_forall in Hg. apply (Hg k Hk). }
  assert (Hser : ser_signed_payload c ring = w_ok (signed_payload_bytes c ring)).
  { apply ser_signed_payload_ok; [|exact Hl].
    apply Forall_forall. intros ks Hks. rewrite Forall_forall in Hw. apply (Hw ks Hks). }
  assert (Hz : forallb (fun b => negb (Byte.eqb b newline))
                 (z85_encode (signed_payload_bytes c ring)) = true)
    by (apply printable_no_newline, z85_encode_printable).
  pose proof (signed_message_text_lines msg (z85_encode (signed_payload_bytes c ring))
                (map g (map fst ring)) Hids Hz) as Hlines.
  cbv zeta in Hlines. destruct Hlines as [Htrim Hsplit].
  eexists. split.
  { unfold signed_message_to_string. cbn [SignedMessage.ring SignedMessage.challenge
      SignedMessage.message]. rewrite Hrl, Hser. unfold w_ok. reflexivity. }
  unfold signed_message_from_str. cbv beta zeta. rewrite Htrim, Hsplit.
  set (P := split_on newline msg).
  set (B := [[]; z85_encode (signed_payload_bytes c ring); SIGNED_MESSAGE_SUFFIX_FIRST_LINE;
             SIGNED_MESSAGE_SUFFIX_SECOND_LINE]).
  set (A0 := SIGNED_MESSAGE_FIRST_LINE :: SIGNED_MESSAGE_SECOND_LINE :: P
               ++ [SIGNED_MESSAGE_INFIX_FIRST_LINE; SIGNED_MESSAGE_INFIX_SECOND_LINE;
                   SIGNED_MESSAGE_INFIX_THIRD_LINE; SIGNED_MESSAGE_INFIX_FOURTH_LINE]).
  set (ids := map g (map fst ring)).
  assert (HM : (1 <= length P)%nat).
  { pose proof (split_on_nonempty newline msg) as E. fold P in E.
    destruct P; [contradiction | cbn [length]; lia]. }
  assert (HN : (1 <= length ring)%nat) by (destruct ring; [contradiction | cbn [length]; lia]).
  assert (Hlen : length (A0 ++ ids ++ B) = (length P + length ring + 10)%nat).
  { unfold A0, ids, B. repeat first [rewrite length_app | rewrite length_cons | rewrite length_map].
    cbn [length]. lia. }
  assert (Hend : forall k, (k < 4)%nat ->
            nth (length P + length ring + 10 - (4 - k)) (A0 ++ ids ++ B) [] = nth k B []).
  { intros k Hk. rewrite app_assoc. apply nth_app_plus.
    unfold A0, ids. repeat first [rewrite length_app | rewrite length_cons | rewrite length_map].
    cbn [length]. lia. }
  assert (Hinfix : forall k, (k < 4)%nat ->
            nth (length P + 2 + k) (A0 ++ ids ++ B) []
            = nth k [SIGNED_MESSAGE_INFIX_FIRST_LINE; SIGNED_MESSAGE_INFIX_SECOND_LINE;
                     SIGNED_MESSAGE_INFIX_THIRD_LINE; SIGNED_MESSAGE_INFIX_FOURTH_LINE] []).
  { intros k Hk. unfold A0.
    change (SIGNED_MESSAGE_FIRST_LINE :: SIGNED_MESSAGE_SECOND_LINE :: P
              ++ [SIGNED_MESSAGE_INFIX_FIRST_LINE; SIGNED_MESSAGE_INFIX_SECOND_LINE;
                  SIGNED_MESSAGE_INFIX_THIRD_LINE; SIGNED_MESSAGE_INFIX_FOURTH_LINE])
      with ((SIGNED_MESSAGE_FIRST_LINE :: SIGNED_MESSAGE_SECOND_LINE :: P)
              ++ [SIGNED_MESSAGE_INFIX_FIRST_LINE; SIGNED_MESSAGE_INFIX_SECOND_LINE;
                  SIGNED_MESSAGE_INFIX_THIRD_LINE; SIGNED_MESSAGE_INFIX_FOURTH_LINE]).
    rewrite <- app_assoc, (nth_app_plus _ _ _ k) by (cbn [length]; lia).
    destruct k as [|[|[|[|k]]]]; try reflexivity; lia. }
  rewrite Hlen.
  replace (length P + length ring + 10 - 1)%nat with (length P + length ring + 10 - (4 - 3))%nat
    by lia.
  replace (length P + length ring + 10 - 2)%nat with (length P + length ring + 10 - (4 - 2))%nat
    by lia.
  replace (length P + length ring + 10 - 3)%nat with (length P + length ring + 10 - (4 - 1))%nat
    by lia.
  replace (length P + length ring + 10 - 4)%nat with (length P + length ring + 10 - (4 - 0))%nat
    by lia.
  rewrite !Hend by lia. cbn [nth B].
  change (nth 0 (A0 ++ ids ++ B) []) with SIGNED_MESSAGE_FIRST_LINE.
  change (nth 1 (A0 ++ ids ++ B) []) with SIGNED_MESSAGE_SECOND_LINE.
  rewrite !bytes_eqb_refl. cbn [negb orb].
  rewrite z85_decode_encode.
  pose proof (p_signed_payload_ok c ring [] Hc Hw Hl) as Hp. rewrite app_nil_r in Hp.
  rewrite Hp.
  pose proof (check_ring_lines_ok g A0 (map fst ring) [] B 0 eq_refl eq_refl) as Hck.
  rewrite app_nil_l in Hck. fold ids in Hck. rewrite Hck.
  2: { apply Forall_forall. intros k Hk. rewrite Forall_forall in Hg. apply (Hg k Hk). }
  replace (length P + length ring + 10 - 5 - length ring)%nat with (length P + 2 + 3)%nat by lia.
  replace (length P + 2 + 3 - 1)%nat with (length P + 2 + 2)%nat by lia.
  replace (length P + 2 + 3 - 2)%nat with (length P + 2 + 1)%nat by lia.
  replace (length P + 2 + 3 - 3)%nat with (length P + 2 + 0)%nat by lia.
  rewrite !Hinfix by lia. cbn [nth]. rewrite !bytes_eqb_refl. cbn [negb].
  repeat rewrite (proj2 (Nat.ltb_ge _ _)) by lia.
  replace (length P + 2 + 0 - 2)%nat with (length P) by lia.
  change (skipn 2 (A0 ++ ids ++ B))
    with ((P ++ [SIGNED_MESSAGE_INFIX_FIRST_LINE; SIGNED_MESSAGE_INFIX_SECOND_LINE;
                 SIGNED_MESSAGE_INFIX_THIRD_LINE; SIGNED_MESSAGE_INFIX_FOURTH_LINE])
          ++ ids ++ B).
  rewrite <- app_assoc, firstn_app_length by reflexivity.
  unfold P. rewrite join_split. reflexivity.
Qed.

End SignedMessageRoundTrip.

Section SignedWellFormed.
Context `{Primitives}.

Lemma signature_sign_length msg k others rng s :
  signature_sign msg k others rng = Some s -> length (ring_responses s) = (length others + 1)%nat.
Proof.
  intros Hs. destruct (signature_sign_some msg k others rng) as [s' [Hs' Hfst]].
  rewrite Hs in Hs'. injection Hs' as <-.
  rewrite <- (length_map fst), Hfst, make_ring_length. reflexivity.
Qed.

(** The public half of a key made by [PrivateKey::new] is well formed. *)
Lemma private_key_new_wf id rng pk :
  identity_wf id -> private_key_new id rng = Some pk -> public_key_wf (public pk).
Proof.
  intros Hid. unfold private_key_new.
  destruct (signature_sign _ _ [] _) as [att|] eqn:Hs; [|discriminate].
  intros E. injection E as <-. unfold public_key_wf, public.
  cbn [holder keypoint holder_attestation PrivateKey.holder PrivateKey.key
    PrivateKey.holder_attestation].
  split; [exact Hid|]. split; [apply mul_base_range|]. split.
  - apply (signature_sign_range _ _ [] _ _ (Forall_nil _) Hs).
  - rewrite (signature_sign_length _ _ _ _ _ Hs). cbn. unfold U32_MAX. lia.
Qed.

Lemma in_signed_ring (rr : list (RistrettoPoint * Scalar)) (keys : list PublicKey) k s :
  In (k, s) (map (fun '((_, s), p) => (p, s)) (combine rr keys)) ->
  In k keys /\ exists p, In (p, s) rr.
Proof.
  intros Hin. apply in_map_iff in Hin. destruct Hin as [[[p s'] k'] [E Hin]].
  injection E as -> ->. split; [apply (in_combine_r _ _ _ _ Hin)|].
  exists p. apply (in_combine_l _ _ _ _ Hin).
Qed.

(** A message made by [SignedMessage::sign] from well-formed keys has a nonempty ring of
    well-formed keys and canonical scalars. *)
Lemma signed_message_sign_wf m pk others rng sm :
  public_key_wf (public pk) -> Forall public_key_wf others ->
  signed_message_sign m pk others rng = Some sm ->
  SignedMessage.ring sm <> []
  /\ (0 <= SignedMessage.challenge sm < ell)%Z
  /\ Forall (fun ks => public_key_wf (fst ks) /\ (0 <= snd ks < ell)%Z) (SignedMessage.ring sm)
  /\ length (SignedMessage.ring sm) = (length (filter (fun k => negb (PublicKey_eqb k (public pk))) others) + 1)%nat.
Proof.
  intros Hpk Hothers Hsm.
  destruct (signed_message_sign_spec m pk others rng) as (sig & Hs & Hfst & E).
  rewrite Hsm in E. injection E as ->. cbn [SignedMessage.ring SignedMessage.challenge].
  set (others' := filter (fun k => negb (PublicKey_eqb k (public pk))) others) in *.
  assert (Hw' : Forall public_key_wf (others' ++ [public pk])).
  { apply Forall_app. split; [|constructor; [exact Hpk | constructor]].
    apply Forall_forall. intros k Hk. apply filter_In in Hk. destruct Hk as [Hk _].
    rewrite Forall_forall in Hothers. apply Hothers, Hk. }
  assert (Hrange : signature_in_range sig).
  { apply (signature_sign_range m (PrivateKey.key pk) (map keypoint others') rng); [|exact Hs].
    apply Forall_forall. intros p Hp. apply in_map_iff in Hp. destruct Hp as [k [<- Hk]].
    rewrite Forall_forall in Hw'. apply Hw', in_or_app. left. exact Hk. }
  assert (Hlen : length (map (fun '((_, s), p) => (p, s))
                   (combine (ring_responses sig) (make_ring (public pk) others' keypoint)))
                 = (length others' + 1)%nat).
  { rewrite length_map, length_combine, (signature_sign_length _ _ _ _ _ Hs), length_map,
      make_ring_length. lia. }
  split; [|split; [|split]].
  - intros E. rewrite E in Hlen. cbn in Hlen. lia.
  - apply Hrange.
  - apply Forall_forall. intros [k s] Hin. apply in_signed_ring in Hin.
    destruct Hin as [Hk [p Hp]]. cbn [fst snd]. split.
    + apply (Permutation_in _ (make_ring_perm _ _ _)) in Hk.
      rewrite Forall_forall in Hw'. apply Hw', Hk.
    + destruct Hrange as [_ Hrr]. rewrite Forall_forall in Hrr. apply (Hrr _ Hp).
  - exact Hlen.
Qed.

End SignedWellFormed.

(** ** Paths *)

Lemma bytes_eqb_false a b : a <> b -> bytes_eqb a b = false.
Proof. unfold bytes_eqb. destruct (list_eq_dec _ a b); [contradiction | reflexivity]. Qed.

Lemma split_last_dot_none s : ~ In dot s -> split_last_dot s = None.
Proof.
  induction s as [|c s IH]; intros Hs; [reflexivity|]. cbn [split_last_dot].
  rewrite IH by (intros Hin; apply Hs; right; exact Hin).
  destruct (Byte.eqb c dot) eqn:E; [|reflexivity].
  apply Byte.byte_dec_bl in E. subst c. exfalso. apply Hs. left. reflexivity.
Qed.

Lemma split_last_dot_app stem ext :
  ~ In dot ext -> split_last_dot (stem ++ dot :: ext) = Some (stem, ext).
Proof.
  intros He. induction stem as [|c stem IH].
  - cbn [app split_last_dot]. rewrite (split_last_dot_none _ He). reflexivity.
  - cbn [app split_last_dot]. rewrite IH. reflexivity.
Qed.

Lemma with_extension_last (dir : Path) (file stem : bytes) ext :
  match rsplit_file_at_dot file with
  | (Some before, _) => Some before
  | (None, after) => after
  end = Some stem ->
  with_extension (dir ++ [file]) ext
  = dir ++ [stem ++ (if bytes_eqb ext [] then [] else dot :: ext)].
Proof.
  intros Hs. unfold with_extension, file_stem, file_name.
  rewrite rev_app_distr. cbn [rev app]. rewrite Hs, removelast_last. reflexivity.
Qed.

Lemma lockfile_path_ext (dir : Path) (stem ext : bytes) :
  stem <> [] -> ~ In dot ext -> stem ++ dot :: ext <> [dot; dot] ->
  lockfile_path (dir ++ [stem ++ dot :: ext]) = dir ++ [stem ++ bs ".lock"].
Proof.
  intros Hs He Hd. unfold lockfile_path. rewrite (with_extension_last dir _ stem); [reflexivity|].
  unfold rsplit_file_at_dot. rewrite (bytes_eqb_false _ _ Hd), (split_last_dot_app _ _ He).
  rewrite (bytes_eqb_false _ _ Hs). reflexivity.
Qed.

Lemma lockfile_path_noext (dir : Path) (file : bytes) :
  ~ In dot file -> lockfile_path (dir ++ [file]) = dir ++ [file ++ bs ".lock"].
Proof.
  intros Hf. unfold lockfile_path. rewrite (with_extension_last dir _ file); [reflexivity|].
  unfold rsplit_file_at_dot. rewrite (bytes_eqb_false file [dot; dot]).
  - rewrite (split_last_dot_none _ Hf). reflexivity.
  - intros E. apply Hf. rewrite E. left. reflexivity.
Qed.

(** ** The world and the handle *)

Lemma io_bind_ok {A B} (m : IO A) (k : A -> IO B) w b w'' :
  io_bind m k w = (Ok b, w'') -> exists a w', m w = (Ok a, w') /\ k a w' = (Ok b, w'').
Proof. unfold io_bind. destruct (m w) as [[a| |] w']; [eauto | discriminate | discriminate]. Qed.

Lemma syscall_locked w r w' : syscall w = (r, w') -> locked w' = locked w.
Proof. unfold syscall. destruct (io_fails w (io_calls w)); intros E; injection E as _ <-; reflexivity. Qed.

Lemma syscall_db_file w r w' : syscall w = (r, w') -> db_file w' = db_file w.
Proof. unfold syscall. destruct (io_fails w (io_calls w)); intros E; injection E as _ <-; reflexivity. Qed.

(** [get_contents] reads the stored contents and changes neither the file nor the locks. *)
Lemma get_contents_spec w r w' :
  get_contents w = (r, w') ->
  db_file w' = db_file w /\ locked w' = locked w
  /\ (forall c pw, r = Ok (c, pw) -> c = stored_contents w).
Proof.
  unfold get_contents, get_or_create_db_key, stored_contents, io_bind, syscall, read_db_file,
    io_ret.
  cbn. destruct (db_file w) as [c0|];
    repeat (match goal with |- context [io_fails ?w ?n] => destruct (io_fails w n) end; cbn);
    intros E; injection E as <- <-; cbn; repeat split; intros c pw E;
    first [discriminate E | injection E as <- _; reflexivity].
Qed.

Lemma try_lock_exclusive_ok p w w' :
  try_lock_exclusive p w = (Ok tt, w') -> locked w' = p :: locked w.
Proof.
  unfold try_lock_exclusive, io_bind, syscall. cbn.
  destruct (io_fails w (io_calls w)); [discriminate|]. cbn.
  destruct (existsb (path_eqb p) (locked w)); [discriminate|].
  intros E. injection E as <-. reflexivity.
Qed.

(** A handle opened by [Database::new] holds the lock on [lockfile_path path]. *)
Lemma database_new_locked path w d w' :
  database_new path w = (Ok d, w') -> In (lockfile_path path) (locked w').
Proof.
  unfold database_new. intros E.
  apply io_bind_ok in E. destruct E as (u1 & w1 & E1 & E).
  apply io_bind_ok in E. destruct E as (u2 & w2 & E2 & E).
  apply io_bind_ok in E. destruct E as (u3 & w3 & E3 & E).
  apply io_bind_ok in E. destruct E as (c & w4 & E4 & E).
  unfold io_ret in E. injection E as _ <-.
  destruct (get_contents_spec _ _ _ E4) as (_ & -> & _).
  destruct u3. rewrite (try_lock_exclusive_ok _ _ _ E3). left. reflexivity.
Qed.

Lemma st_bind_lift {A B} (m : IO A) (k : A -> St B) d w :
  st_bind (lift m) k (d, w)
  = match m w with
    | (Ok a, w') => k a (d, w')
    | (Err, w') => (Err, (d, w'))
    | (Panic, w') => (Panic, (d, w'))
    end.
Proof. unfold st_bind, lift. cbn [fst snd]. destruct (m w) as [[a| |] w']; reflexivity. Qed.

(** [write_contents] replaces the view only once the file holds the new contents; on an error
    the handle is untouched. *)
Lemma write_contents_spec c pw d w :
  match write_contents c pw (d, w) with
  | (Ok _, (d', w')) => db_file w' = Some c /\ visible_contents d' = get_visible c
  | (Err, (d', _)) => d' = d
  | (Panic, _) => False
  end.
Proof.
  unfold write_contents, persist, set_visible, st_bind, lift, io_bind, syscall, write_db_file.
  cbn.
  repeat (match goal with |- context [io_fails ?w ?n] => destruct (io_fails w n) end; cbn);
    auto.
Qed.

(** ** Association lists *)

Lemma PublicKey_eqb_eq a b : PublicKey_eqb a b = true <-> a = b.
Proof. unfold PublicKey_eqb. destruct (PublicKey_eq_dec a b); split; congruence. Qed.

Lemma map_get_remove {V} k x (m : list (PublicKey * V)) :
  map_get k (map_remove x m) = if PublicKey_eqb x k then None else map_get k m.
Proof.
  unfold map_get, map_remove. induction m as [|[k' v] m IH]; cbn [filter find fst].
  - destruct (PublicKey_eqb x k); reflexivity.
  - destruct (PublicKey_eqb k' x) eqn:Ex; cbn [negb].
    + apply PublicKey_eqb_eq in Ex. subst k'. rewrite IH.
      destruct (PublicKey_eqb x k); reflexivity.
    + cbn [find fst]. destruct (PublicKey_eqb k' k) eqn:Ek.
      * apply PublicKey_eqb_eq in Ek. subst k'.
        destruct (PublicKey_eqb x k) eqn:Exk; [|reflexivity].
        apply PublicKey_eqb_eq in Exk. subst x.
        unfold PublicKey_eqb in Ex. destruct (PublicKey_eq_dec k k); [discriminate | contradiction].
      * rewrite IH. reflexivity.
Qed.

Lemma map_get_insert {V} k x (v : V) m :
  map_get k (map_insert x v m) = if PublicKey_eqb x k then Some v else map_get k m.
Proof.
  unfold map_insert. unfold map_get at 1. cbn [find fst].
  destruct (PublicKey_eqb x k) eqn:E; [reflexivity|].
  fold (map_get k (map_remove x m)). rewrite map_get_remove, E. reflexivity.
Qed.

Lemma map_get_extend {V} k (v : V) ks m :
  map_get k (map_extend m (map (fun k' => (k', v)) ks))
  = if existsb (fun x => PublicKey_eqb x k) ks then Some v else map_get k m.
Proof.
  revert m. induction ks as [|x ks IH]; intros m; [reflexivity|].
  change (map_extend m (map (fun k' => (k', v)) (x :: ks)))
    with (map_extend (map_insert x v m) (map (fun k' => (k', v)) ks)).
  rewrite IH, map_get_insert. cbn [existsb].
  destruct (PublicKey_eqb x k), (existsb (fun x => PublicKey_eqb x k) ks); reflexivity.
Qed.

Lemma existsb_eqb_In k ks : existsb (fun x => PublicKey_eqb x k) ks = true <-> In k ks.
Proof.
  rewrite existsb_exists. split.
  - intros [x [Hx E]]. apply PublicKey_eqb_eq in E. subst x. exact Hx.
  - intros Hk. exists k. split; [exact Hk | apply PublicKey_eqb_eq; reflexivity].
Qed.

(** ** Runs of the storage code *)

(** [get_contents] keeps the clock and the failure oracle, and never panics. *)
Lemma get_contents_env w r w' :
  get_contents w = (r, w') ->
  clock w' = clock w /\ io_fails w' = io_fails w /\ r <> Panic.
Proof.
  unfold get_contents, get_or_create_db_key, io_bind, syscall, read_db_file, io_ret.
  cbn. destruct (db_file w) as [c0|];
    repeat (match goal with |- context [io_fails ?w ?n] => destruct (io_fails w n) end; cbn);
    intros E; injection E as <- <-; cbn; repeat split; discriminate.
Qed.

(** Without failing system calls, [get_contents] returns the stored contents and the
    keychain's passphrase. *)
Lemma get_contents_nofail w :
  (forall n, io_fails w n = false) ->
  exists w', get_contents w = (Ok (stored_contents w, keychain w), w')
    /\ db_file w' = db_file w /\ locked w' = locked w /\ io_fails w' = io_fails w.
Proof.
  intros Hno.
  unfold get_contents, get_or_create_db_key, stored_contents, io_bind, syscall, read_db_file,
    io_ret.
  cbn. destruct (db_file w) as [c0|]; cbn;
    repeat (match goal with |- context [io_fails w ?n] => rewrite (Hno n) end; cbn);
    eexists; (split; [reflexivity | cbn; repeat split]).
Qed.

(** Without failing system calls, [write_contents] stores the contents and sets the view. *)
Lemma write_contents_nofail c pw d w :
  (forall n, io_fails w n = false) ->
  exists w', write_contents c pw (d, w)
             = (Ok tt, ({| db_path := db_path d; visible_contents := get_visible c |}, w'))
    /\ db_file w' = Some c /\ locked w' = locked w /\ io_fails w' = io_fails w.
Proof.
  intros Hno.
  unfold write_contents, persist, set_visible, st_bind, lift, io_bind, syscall, write_db_file.
  cbn. repeat (match goal with |- context [io_fails w ?n] => rewrite (Hno n) end; cbn).
  eexists; (split; [reflexivity | cbn; repeat split]).
Qed.

(** [write_contents] keeps the path of the handle and the locks. *)
Lemma write_contents_frame c pw d w :
  let '(_, (d', w')) := write_contents c pw (d, w) in
  db_path d' = db_path d /\ locked w' = locked w.
Proof.
  unfold write_contents, persist, set_visible, st_bind, lift, io_bind, syscall, write_db_file.
  cbn.
  repeat (match goal with |- context [io_fails ?w ?n] => destruct (io_fails w n) end; cbn);
    auto.
Qed.

Lemma stored_contents_db_file w w' :
  db_file w' = db_file w -> stored_contents w' = stored_contents w.
Proof. unfold stored_contents. intros ->. reflexivity. Qed.

(** The methods that read the contents, change them by [f] and write them back. *)
Lemma rewrite_method_ok (f : DatabaseContentsV0 -> DatabaseContentsV0) d w d' w' :
  st_bind (lift get_contents)
    (fun cp => let '(c, pw) := cp in write_contents (f c) pw) (d, w) = (Ok tt, (d', w')) ->
  db_file w' = Some (f (stored_contents w))
  /\ visible_contents d' = get_visible (f (stored_contents w)).
Proof.
  rewrite st_bind_lift.
  destruct (get_contents w) as [[[c pw]| |] w1] eqn:Eg; [|discriminate|discriminate].
  destruct (get_contents_spec _ _ _ Eg) as (_ & _ & Hc).
  specialize (Hc c pw eq_refl). subst c. intros E.
  pose proof (write_contents_spec (f (stored_contents w)) pw d w1) as Hs.
  rewrite E in Hs. exact Hs.
Qed.

Lemma rewrite_method_nofail (f : DatabaseContentsV0 -> DatabaseContentsV0) d w :
  (forall n, io_fails w n = false) ->
  exists d' w', st_bind (lift get_contents)
    (fun cp => let '(c, pw) := cp in write_contents (f c) pw) (d, w) = (Ok tt, (d', w'))
    /\ db_file w' = Some (f (stored_contents w)) /\ io_fails w' = io_fails w.
Proof.
  intros Hno. rewrite st_bind_lift.
  destruct (get_contents_nofail w Hno) as (w1 & E1 & _ & _ & Hf1). rewrite E1.
  assert (Hno1 : forall n, io_fails w1 n = false) by (intros n; rewrite Hf1; apply Hno).
  destruct (write_contents_nofail (f (stored_contents w)) (keychain w) d w1 Hno1)
    as (w2 & E2 & Hd2 & _ & Hf2).
  do 2 eexists. split; [exact E2|]. split; [exact Hd2 | congruence].
Qed.

Lemma io_bind_err {A B} (m : IO A) (k : A -> IO B) w :
  fst (m w) <> Panic ->
  (forall a w', m w = (Ok a, w') -> fst (k a w') = Err) ->
  fst (io_bind m k w) = Err.
Proof.
  unfold io_bind. destruct (m w) as [[a| |] w']; cbn; intros Hp Hk;
    [exact (Hk a w' eq_refl) | reflexivity | contradiction Hp; reflexivity].
Qed.

Lemma io_bind_first_err {A B} (m : IO A) (k : A -> IO B) w :
  fst (m w) = Err -> fst (io_bind m k w) = Err.
Proof. unfold io_bind. destruct (m w) as [[a| |] w']; cbn; congruence. Qed.

Lemma syscall_no_panic w : fst (syscall w) <> Panic.
Proof. unfold syscall. cbn. destruct (io_fails w (io_calls w)); discriminate. Qed.

Lemma existsb_path_eqb_In p l : In p l -> existsb (path_eqb p) l = true.
Proof.
  intros Hin. apply existsb_exists. exists p. split; [exact Hin|].
  unfold path_eqb. destruct (list_eq_dec (list_eq_dec Byte.byte_eq_dec) p p);
    [reflexivity | contradiction].
Qed.

(** A lock that is held cannot be taken again. *)
Lemma try_lock_exclusive_held p w : In p (locked w) -> fst (try_lock_exclusive p w) = Err.
Proof.
  intros Hin. unfold try_lock_exclusive, io_bind, syscall. cbn.
  destruct (io_fails w (io_calls w)); [reflexivity|]. cbn.
  rewrite (existsb_path_eqb_In _ _ Hin). reflexivity.
Qed.

Lemma try_lock_exclusive_db_file p w r w' :
  try_lock_exclusive p w = (r, w') -> db_file w' = db_file w.
Proof.
  unfold try_lock_exclusive, io_bind, syscall. cbn.
  destruct (io_fails w (io_calls w)); cbn; [intros E; injection E as _ <-; reflexivity|].
  destruct (existsb _ _); intros E; injection E as _ <-; reflexivity.
Qed.

(** [Database::new] fails while the lock on [lockfile_path path] is held. *)
Lemma database_new_held path w :
  In (lockfile_path path) (locked w) -> fst (database_new path w) = Err.
Proof.
  intros Hin. unfold database_new. apply io_bind_err.
  - destruct path; [discriminate | apply syscall_no_panic].
  - intros u1 w1 E1.
    assert (L1 : locked w1 = locked w).
    { destruct path; [unfold io_ret in E1; injection E1; intros; subst; reflexivity
                     | exact (syscall_locked _ _ _ E1)]. }
    apply io_bind_err; [apply syscall_no_panic|].
    intros u2 w2 E2. pose proof (syscall_locked _ _ _ E2) as L2.
    apply io_bind_first_err, try_lock_exclusive_held. congruence.
Qed.

(** A handle made by [Database::new] has the given path and the view of the stored contents;
    the file is not changed. *)
Lemma database_new_spec path w d w' :
  database_new path w = (Ok d, w') ->
  db_path d = path /\ visible_contents d = get_visible (stored_contents w)
  /\ db_file w' = db_file w.
Proof.
  unfold database_new. intros E.
  apply io_bind_ok in E. destruct E as (u1 & w1 & E1 & E).
  apply io_bind_ok in E. destruct E as (u2 & w2 & E2 & E).
  apply io_bind_ok in E. destruct E as (u3 & w3 & E3 & E).
  apply io_bind_ok in E. destruct E as ([c pw] & w4 & E4 & E).
  unfold io_ret in E. injection E as <- <-.
  assert (D1 : db_file w1 = db_file w).
  { destruct path; [unfold io_ret in E1; injection E1; intros; subst; reflexivity
                   | exact (syscall_db_file _ _ _ E1)]. }
  pose proof (syscall_db_file _ _ _ E2) as D2.
  pose proof (try_lock_exclusive_db_file _ _ _ _ E3) as D3.
  destruct (get_contents_spec _ _ _ E4) as (D4 & _ & Hc).
  rewrite (Hc c pw eq_refl). cbn [db_path visible_contents fst].
  rewrite (stored_contents_db_file w3 w) by congruence.
  repeat split; congruence.
Qed.

Lemma private_key_new_holder `{Primitives} id rng pk :
  private_key_new id rng = Some pk -> PrivateKey.holder pk = id.
Proof.
  unfold private_key_new. destruct (signature_sign _ _ _ _); [|discriminate].
  intros E. injection E as <-. reflexivity.
Qed.

(** [import_private_key] stores the key under its public key. *)
Lemma import_private_key_ok `{Primitives} key d w d' w' :
  import_private_key key (d, w) = (Ok tt, (d', w')) ->
  exists c', db_file w' = Some c' /\ visible_contents d' = get_visible c'
    /\ private_keys c' = map_insert (public key) key (private_keys (stored_contents w))
    /\ public_keys c' = public_keys (stored_contents w).
Proof.
  unfold import_private_key. intros E.
  apply (rewrite_method_ok (fun c => {| private_keys := map_insert (public key) key (private_keys c);
                                        public_keys := public_keys c |})) in E.
  destruct E as [Hf Hv]. eexists. split; [exact Hf|]. split; [exact Hv|]. split; reflexivity.
Qed.

Lemma map_get_insert_same {V} k (v : V) m : map_get k (map_insert k v m) = Some v.
Proof. rewrite map_get_insert. destruct (PublicKey_eqb k k) eqn:E; [reflexivity|].
  unfold PublicKey_eqb in E. destruct (PublicKey_eq_dec k k); [discriminate | contradiction]. Qed.

Lemma map_get_insert_other {V} k x (v : V) m : k <> x -> map_get k (map_insert x v m) = map_get k m.
Proof. intros Hne. rewrite map_get_insert. destruct (PublicKey_eqb x k) eqn:E; [|reflexivity].
  apply PublicKey_eqb_eq in E. congruence. Qed.

Lemma map_get_remove_same {V} k (m : list (PublicKey * V)) : map_get k (map_remove k m) = None.
Proof. rewrite map_get_remove. destruct (PublicKey_eqb k k) eqn:E; [reflexivity|].
  unfold PublicKey_eqb in E. destruct (PublicKey_eq_dec k k); [discriminate | contradiction]. Qed.

Lemma map_get_remove_other {V} k x (m : list (PublicKey * V)) :
  k <> x -> map_get k (map_remove x m) = map_get k m.
Proof. intros Hne. rewrite map_get_remove. destruct (PublicKey_eqb x k) eqn:E; [|reflexivity].
  apply PublicKey_eqb_eq in E. congruence. Qed.



Lemma not_In_map_fst_remove {V} k (m : list (PublicKey * V)) : ~ In k (map fst (map_remove k m)).
Proof.
  unfold map_remove. rewrite in_map_iff. intros [[k' v] [E Hin]]. cbn [fst] in E. subst k'.
  apply filter_In in Hin. destruct Hin as [_ Hn]. cbn [fst] in Hn.
  unfold PublicKey_eqb in Hn. destruct (PublicKey_eq_dec k k); [discriminate | contradiction].
Qed.

Lemma not_in_forallb (f : byte -> bool) (l : bytes) (x : byte) :
  forallb f l = true -> f x = false -> ~ In x l.
Proof.
  intros Hl Hx Hin. rewrite forallb_forall in Hl. rewrite (Hl x Hin) in Hx. discriminate Hx.
Qed.

(** ** Claims on signing and verifying *)

(** C1 (code_bug).  [Signature::verify] has no check on the ring size: a signature whose
    [ring_responses] is empty is accepted for every message, since the reconstructed
    challenge of an empty loop is the challenge itself. *)
Theorem verify_accepts_empty_ring `{Primitives} (message : bytes) (c : Scalar) :
  signature_verify {| challenge := c; ring_responses := [] |} message = true.
Proof. unfold signature_verify. simpl. apply Z.eqb_refl. Qed.

(** C2.  For every message, every key made by [PrivateKey::new] and every list of public keys
    whose attestations validate, [SignedMessage::sign] returns a message that
    [SignedMessage::verify] accepts.  (A [RistrettoPoint] is a group element, so its
    discrete logarithm lies in [0, ell).) *)
Theorem signed_message_sign_verify `{Primitives} `{!RistrettoLaws}
  (m : bytes) (id : Identity) (rng_key rng : nat -> Z) (pk : PrivateKey.t)
  (others : list PublicKey) :
  private_key_new id rng_key = Some pk ->
  Forall (fun k => validate_attestation k = true /\ (0 <= keypoint k < ell)%Z) others ->
  exists sm, signed_message_sign m pk others rng = Some sm /\ signed_message_verify sm = true.
Proof.
  intros Hpk Hothers.
  destruct (signed_message_sign_spec m pk others rng) as [sig [Hs [Hfst Hsm]]].
  set (others' := filter (fun k => negb (PublicKey_eqb k (public pk))) others) in *.
  eexists. split; [exact Hsm|].
  unfold signed_message_verify. cbn [SignedMessage.ring SignedMessage.message].
  apply andb_true_intro. split.
  - apply forallb_forall. intros [k s] Hin.
    assert (Hk : In k (make_ring (public pk) others' keypoint)).
    { rewrite <- (signed_ring_keys (ring_responses sig) _ Hfst).
      apply in_map_iff. exists (k, s). split; [reflexivity | exact Hin]. }
    apply (Permutation_in _ (make_ring_perm _ _ _)) in Hk.
    apply in_app_or in Hk as [Hk | [<- | []]].
    + apply filter_In in Hk as [Hk _]. rewrite Forall_forall in Hothers.
      apply Hothers, Hk.
    + apply (private_key_new_valid id rng_key pk Hpk).
  - unfold signed_message_signature. cbn [SignedMessage.challenge SignedMessage.ring].
    rewrite (signed_ring_signature _ _ Hfst). destruct sig as [c rr].
    apply (signature_sign_verify m (PrivateKey.key pk) (map keypoint others') rng); [|exact Hs].
    apply Forall_map, Forall_forall. intros k Hk. apply filter_In in Hk as [Hk _].
    rewrite Forall_forall in Hothers. apply Hothers, Hk.
Qed.

(** C5.  The ring of [SignedMessage::sign] is sorted by the compressed keypoints, and the
    signer's own public key occurs in it exactly once, whatever copies of it the list of
    other keys holds. *)
Theorem signed_message_ring_sorted_once `{Primitives} (m : bytes) (pk : PrivateKey.t)
  (others : list PublicKey) (rng : nat -> Z) :
  exists sm, signed_message_sign m pk others rng = Some sm
    /\ Sorted (fun a b => key_le (compress (keypoint a)) (compress (keypoint b)))
         (map fst (SignedMessage.ring sm))
    /\ count_occ PublicKey_eq_dec (map fst (SignedMessage.ring sm)) (public pk) = 1%nat.
Proof.
  destruct (signed_message_sign_spec m pk others rng) as [sig [_ [Hfst Hsm]]].
  set (others' := filter (fun k => negb (PublicKey_eqb k (public pk))) others) in *.
  eexists. split; [exact Hsm|]. cbn [SignedMessage.ring].
  rewrite (signed_ring_keys (ring_responses sig) _ Hfst). split.
  - apply (sort_by_key_sorted (fun k => compress (keypoint k))).
  - rewrite (proj1 (Permutation_count_occ PublicKey_eq_dec _ _) (make_ring_perm _ _ _)).
    rewrite count_occ_app. unfold others'. rewrite count_occ_filter_self.
    rewrite count_occ_cons_eq by reflexivity. reflexivity.
Qed.

Lemma signed_message_sign_verify_witness :
  let alice := sample_identity "Alice" "alice@example.org" in
  let bob := sample_identity "Bob" "bob@example.org" in
  exists sm, @signed_message_sign ref_primitives (bs "Meet at noon.")
               (sample_private_key alice 1) [public (sample_private_key bob 2)]
               (fun i => Z.of_nat (3 * i + 1)) = Some sm
             /\ @signed_message_verify ref_primitives sm = true.
Proof.
  intros alice bob.
  apply (@signed_message_sign_verify ref_primitives ref_ristretto_laws _ alice
           (fun i => (1 * 1000003 + Z.of_nat i)%Z)).
  - vm_compute. reflexivity.
  - constructor; [|constructor]. split; [vm_compute; reflexivity|].
    split; [apply Z.leb_le | apply Z.ltb_lt]; vm_compute; reflexivity.
Defined.


(** ** Claims on the ASCII formats *)

(** C6 (counterexample).  The fingerprint hashes the derived serialization of [PublicKey],
    whose fields come in declaration order (identity, version, keypoint, attestation); with the
    version first, as the specification orders them, the digest and so the fingerprint differ. *)
Lemma fingerprint_field_order_counterexample :
  let k := public (sample_private_key (sample_identity "Alice" "alice@example.org") 1) in
  fingerprint k <> fingerprint_spec_order k.
Proof. vm_compute. intros H. discriminate H. Qed.

(** C6 (amended).  The fingerprint is the z85 encoding of the SHA3-256 digest of the Borsh
    serialization of the public key with its fields in declaration order (identity, version,
    keypoint, attestation), cut into four groups of 10 characters joined by single spaces: 43
    characters.  It is a function of the key, so equal keys have equal fingerprints. *)
Theorem fingerprint_spaced_groups `{Primitives} `{!CodecLaws} (k : PublicKey) :
  exists g1 g2 g3 g4,
    z85_encode (sha3_256 (fst (ser_public_key k))) = g1 ++ g2 ++ g3 ++ g4
    /\ length g1 = 10%nat /\ length g2 = 10%nat /\ length g3 = 10%nat /\ length g4 = 10%nat
    /\ fingerprint k = Some (g1 ++ space :: g2 ++ space :: g3 ++ space :: g4)
    /\ length (g1 ++ space :: g2 ++ space :: g3 ++ space :: g4) = 43%nat.
Proof. apply fingerprint_groups. Qed.

Lemma fingerprint_spaced_groups_witness :
  let k := public (sample_private_key (sample_identity "Alice" "alice@example.org") 1) in
  exists g1 g2 g3 g4,
    z85_encode (sha3_256 (fst (ser_public_key k))) = g1 ++ g2 ++ g3 ++ g4
    /\ length g1 = 10%nat /\ length g2 = 10%nat /\ length g3 = 10%nat /\ length g4 = 10%nat
    /\ fingerprint k = Some (g1 ++ space :: g2 ++ space :: g3 ++ space :: g4)
    /\ length (g1 ++ space :: g2 ++ space :: g3 ++ space :: g4) = 43%nat.
Proof.
  intros k. exact (@fingerprint_spaced_groups ref_primitives ref_codec_laws k).
Defined.

(** C9.  [SignedMessage::from_str] trims its input first, and trimming is idempotent, so the
    result for [s] is the result for [s] with its leading and trailing whitespace removed:
    the same message, the same [Err], or the same panic. *)
Theorem signed_message_from_str_trim `{Primitives} (s : bytes) :
  signed_message_from_str s = signed_message_from_str (trim s).
Proof. unfold signed_message_from_str. rewrite trim_idem. reflexivity. Qed.

(** C3.  For every valid public key (its holder an [Identity] as [Identity::new] makes them,
    its keypoint and attestation values of their types, and its attestation validating), the
    line written by [From<PublicKey> for String] exists and [PublicKey::from_str] parses it
    back to the same key. *)
Theorem public_key_string_roundtrip `{Primitives} `{!RistrettoLaws} (k : PublicKey) :
  identity_new (name (holder k)) (email (holder k)) = Some (holder k) ->
  (0 <= keypoint k < ell)%Z ->
  signature_in_range (holder_attestation k) ->
  validate_attestation k = true ->
  exists s, public_key_to_string k = Some s /\ public_key_from_str s = Some k.
Proof.
  intros Hid Hkp Hatt Hval.
  pose proof (identity_new_inv _ _ _ Hid) as (_ & Hctl & Hem).
  assert (Hone : exists p r, ring_responses (holder_attestation k) = [(p, r)]).
  { unfold validate_attestation in Hval.
    destruct (ring_responses (holder_attestation k)) as [|[p r] [|x rr]]; try discriminate.
    exists p, r. reflexivity. }
  destruct Hone as (p & r & Hrr).
  assert (Hlen : (Z.of_nat (length (ring_responses (holder_attestation k))) <= U32_MAX)%Z)
    by (rewrite Hrr; unfold U32_MAX; simpl; lia).
  unfold public_key_to_string. rewrite (ser_signature_ok _ Hlen).
  eexists. split; [reflexivity|].
  unfold public_key_from_str.
  rewrite pk_regex_format.
  2: apply contains_control_no_newline, Hctl.
  2: exact Hem.
  2: rewrite length_hex_encode_upper, compress_length; reflexivity.
  2: rewrite length_hex_encode_upper, length_signature_bytes, Hrr; reflexivity.
  2, 3: apply hex_encode_upper_upper.
  rewrite Hid, !hex_decode_encode_upper, compress_length. cbn [Nat.eqb].
  rewrite decompress_compress by exact Hkp.
  rewrite (p_signature_all _ Hatt Hlen).
  replace {| holder := holder k; version := ZebraOneBeta; keypoint := keypoint k;
             holder_attestation := holder_attestation k |} with k
    by (destruct k as [h [] kp att]; reflexivity).
  rewrite Hval. reflexivity.
Qed.

Lemma public_key_string_roundtrip_witness :
  let k := public (sample_private_key (sample_identity "Alice" "alice@example.org") 1) in
  exists s, public_key_to_string k = Some s /\ public_key_from_str s = Some k.
Proof.
  intros k. apply (@public_key_string_roundtrip ref_primitives ref_ristretto_laws k).
  - vm_compute. reflexivity.
  - split; [apply Z.leb_le | apply Z.ltb_lt]; vm_compute; reflexivity.
  - split; [split; [apply Z.leb_le | apply Z.ltb_lt]; vm_compute; reflexivity|].
    apply Forall_forall. intros pr Hpr. vm_compute in Hpr. destruct Hpr as [<-|[]].
    split; split; first [apply Z.leb_le | apply Z.ltb_lt]; vm_compute; reflexivity.
  - vm_compute. reflexivity.
Defined.

(** C4.  A message made by [SignedMessage::sign] comes back from its text: the formatter
    succeeds, and parsing its output gives the same message, challenge and ring.  The signer's
    key is made by [PrivateKey::new] from a valid identity, the other keys are valid public keys,
    and the ring length fits the u32 prefix of its serialization. *)
Theorem signed_message_ascii_roundtrip `{Primitives} `{!RistrettoLaws} `{!CodecLaws}
  (message : bytes) (id : Identity) (rng_key rng : nat -> Z) (pk : PrivateKey.t)
  (others : list PublicKey) (sm : SignedMessage.t) :
  identity_wf id ->
  private_key_new id rng_key = Some pk ->
  Forall public_key_wf others ->
  (Z.of_nat (length others + 1) <= U32_MAX)%Z ->
  signed_message_sign message pk others rng = Some sm ->
  exists str, signed_message_to_string sm = Some str /\ signed_message_from_str str = ok sm.
Proof.
  intros Hid Hpk Hothers Hl Hsm.
  pose proof (private_key_new_wf id rng_key pk Hid Hpk) as Hwf.
  destruct (signed_message_sign_wf message pk others rng sm Hwf Hothers Hsm)
    as (Hne & Hc & Hw & Hlen).
  apply signed_message_text_roundtrip; try assumption.
  rewrite Hlen. pose proof (filter_length_le (fun k => negb (PublicKey_eqb k (public pk))) others).
  lia.
Qed.

Lemma signed_message_ascii_roundtrip_witness :
  let alice := sample_identity "Alice" "alice@example.org" in
  let bob := sample_identity "Bob" "bob@example.org" in
  exists sm, @signed_message_sign ref_primitives (bs "Meet at noon.")
               (sample_private_key alice 1) [public (sample_private_key bob 2)]
               (fun i => Z.of_nat (3 * i + 1)) = Some sm
             /\ exists str, @signed_message_to_string ref_primitives sm = Some str
                            /\ @signed_message_from_str ref_primitives str = ok sm.
Proof.
  intros alice bob.
  destruct (@signed_message_sign ref_primitives (bs "Meet at noon.")
              (sample_private_key alice 1) [public (sample_private_key bob 2)]
              (fun i => Z.of_nat (3 * i + 1))) as [sm|] eqn:E;
    [|vm_compute in E; discriminate E].
  exists sm. split; [reflexivity|].
  apply (@signed_message_ascii_roundtrip ref_primitives ref_ristretto_laws ref_codec_laws
           (bs "Meet at noon.") alice (fun i => (1 * 1000003 + Z.of_nat i)%Z)
           (fun i => Z.of_nat (3 * i + 1)) (sample_private_key alice 1)
           [public (sample_private_key bob 2)] sm).
  - split; [vm_compute; reflexivity|]. split; [vm_compute; reflexivity|].
    split; apply Z.leb_le; vm_compute; reflexivity.
  - vm_compute. reflexivity.
  - constructor; [|constructor].
    split; [|split; [|split]].
    + split; [vm_compute; reflexivity|]. split; [vm_compute; reflexivity|].
      split; apply Z.leb_le; vm_compute; reflexivity.
    + split; [apply Z.leb_le | apply Z.ltb_lt]; vm_compute; reflexivity.
    + split; [split; [apply Z.leb_le | apply Z.ltb_lt]; vm_compute; reflexivity|].
      apply Forall_forall. intros pr Hpr. vm_compute in Hpr. destruct Hpr as [<-|[]].
      split; split; first [apply Z.leb_le | apply Z.ltb_lt]; vm_compute; reflexivity.
    + apply Z.leb_le. vm_compute. reflexivity.
  - apply Z.leb_le. vm_compute. reflexivity.
  - exact E.
Defined.


(** ** Claims on the storage *)

(** C7 (counterexample).  [lockfile_path] calls [Path::with_extension], which replaces the
    extension of the file name: opening the database [zebra_db.age] locks [zebra_db.lock],
    not [zebra_db.age.lock]. *)
Lemma database_new_lock_counterexample :
  let w0 := {| db_file := None; locked := []; keychain := []; clock := 0%Z;
               io_fails := fun _ => false; io_calls := 0 |} in
  match database_new [bs "zebra_db.age"] w0 with
  | (Ok _, w') => locked w' = [[bs "zebra_db.lock"]]
                  /\ ~ In (lockfile_path_spec [bs "zebra_db.age"]) (locked w')
  | _ => False
  end.
Proof. vm_compute. split; [reflexivity | intros [E|[]]; discriminate E]. Qed.

(** C7 (amended).  Opening the database at [dir/name] takes the lock on the path with the
    extension of [name] replaced by [lock]: [dir/stem.lock] when [name] is [stem.ext] with a
    nonempty [stem] and no dot in [ext], and [dir/name.lock] when [name] has no dot. *)
Theorem database_new_lock_path (dir : Path) (name : bytes) (w w' : World) (d : Database) :
  database_new (dir ++ [name]) w = (Ok d, w') ->
  (forall stem ext, name = stem ++ dot :: ext -> stem <> [] -> ~ In dot ext ->
                    name <> [dot; dot] -> In (dir ++ [stem ++ bs ".lock"]) (locked w'))
  /\ (~ In dot name -> In (dir ++ [name ++ bs ".lock"]) (locked w')).
Proof.
  intros E. pose proof (database_new_locked _ _ _ _ E) as Hl. split.
  - intros stem ext -> Hs He Hd. rewrite <- (lockfile_path_ext dir stem ext Hs He Hd). exact Hl.
  - intros Hn. rewrite <- (lockfile_path_noext dir name Hn). exact Hl.
Qed.

Lemma database_new_lock_path_witness :
  let w0 := {| db_file := None; locked := []; keychain := []; clock := 0%Z;
               io_fails := fun _ => false; io_calls := 0 |} in
  exists d w', database_new [bs "zebra_db.age"] w0 = (Ok d, w')
               /\ In [bs "zebra_db.lock"] (locked w').
Proof.
  intros w0.
  destruct (database_new [bs "zebra_db.age"] w0) as [[d| |] w'] eqn:E;
    [|vm_compute in E; discriminate E | vm_compute in E; discriminate E].
  exists d, w'. split; [reflexivity|].
  apply (proj1 (database_new_lock_path [] (bs "zebra_db.age") w0 w' d E) (bs "zebra_db") (bs "age")).
  - vm_compute. reflexivity.
  - vm_compute. discriminate.
  - vm_compute. intros [H|[H|[H|[]]]]; discriminate H.
  - vm_compute. intros H. discriminate H.
Defined.

(** C8.  Each of the seven mutations leaves the visible view as it was when it fails, and when
    it succeeds the view is the one derived from the contents now in the database file. *)
Theorem mutation_visible_view `{Primitives} (op : Mutation) (d : Database) (w : World) :
  match mutate op (d, w) with
  | (Ok _, (d', w')) => exists c, db_file w' = Some c /\ visible_contents d' = get_visible c
  | (Err, (d', _)) => visible_contents d' = visible_contents d
  | (Panic, _) => True
  end.
Proof.
  assert (Hwrite : forall c pw w0,
    match write_contents c pw (d, w0) with
    | (Ok _, (d', w')) => exists c, db_file w' = Some c /\ visible_contents d' = get_visible c
    | (Err, (d', _)) => visible_contents d' = visible_contents d
    | (Panic, _) => True
    end).
  { intros c pw w0. pose proof (write_contents_spec c pw d w0) as Hs.
    destruct (write_contents c pw (d, w0)) as [[u| |] [d' w']].
    - exists c. exact Hs.
    - rewrite Hs. reflexivity.
    - exact I. }
  assert (Hget : forall (k : DatabaseContentsV0 * bytes -> St unit),
    (forall cp w0, match k cp (d, w0) with
                   | (Ok _, (d', w')) => exists c, db_file w' = Some c
                                                   /\ visible_contents d' = get_visible c
                   | (Err, (d', _)) => visible_contents d' = visible_contents d
                   | (Panic, _) => True
                   end) ->
    match st_bind (lift get_contents) k (d, w) with
    | (Ok _, (d', w')) => exists c, db_file w' = Some c /\ visible_contents d' = get_visible c
    | (Err, (d', _)) => visible_contents d' = visible_contents d
    | (Panic, _) => True
    end).
  { intros k Hk. rewrite st_bind_lift.
    destruct (get_contents w) as [[cp| |] w1]; [apply Hk | reflexivity | exact I]. }
  destruct op as [n e rng|key|k|ks|k|k|k]; cbn [mutate].
  - unfold new_private_key. destruct (identity_new n e) as [id|]; [|reflexivity].
    destruct (private_key_new id rng) as [key|]; [|exact I].
    apply Hget. intros [c pw] w0. apply Hwrite.
  - apply Hget. intros [c pw] w0. apply Hwrite.
  - apply Hget. intros [c pw] w0. apply Hwrite.
  - apply Hget. intros [c pw] w0. apply Hwrite.
  - apply Hget. intros [c pw] w0. apply Hwrite.
  - apply Hget. intros [c pw] w0. rewrite st_bind_lift.
    destruct (now w0) as [[t| |] w1]; [apply Hwrite | reflexivity | exact I].
  - apply Hget. intros [c pw] w0. apply Hwrite.
Qed.

(** C10.  A successful [add_public_keys ks] stores every key of [ks] as unverified, whatever
    its previous verification, and keeps the other public keys and the private keys. *)
Theorem add_public_keys_resets_verification (ks : list PublicKey)
  (d d' : Database) (w w' : World) :
  add_public_keys ks (d, w) = (Ok tt, (d', w')) ->
  exists c', db_file w' = Some c'
    /\ (forall k, In k ks -> map_get k (public_keys c') = Some verification_unverified)
    /\ (forall k, ~ In k ks ->
          map_get k (public_keys c') = map_get k (public_keys (stored_contents w)))
    /\ private_keys c' = private_keys (stored_contents w).
Proof.
  unfold add_public_keys. rewrite st_bind_lift.
  destruct (get_contents w) as [[[c pw]| |] w1] eqn:Eg; [|discriminate|discriminate].
  destruct (get_contents_spec _ _ _ Eg) as (_ & _ & Hc).
  specialize (Hc c pw eq_refl). subst c.
  set (c' := {| private_keys := private_keys (stored_contents w);
                public_keys := map_extend (public_keys (stored_contents w))
                                 (map (fun k => (k, verification_unverified)) ks) |}).
  pose proof (write_contents_spec c' pw d w1) as Hs. intros E. rewrite E in Hs.
  destruct Hs as [Hf _]. exists c'. split; [exact Hf|]. split; [|split].
  - intros k Hk. cbn [public_keys c']. rewrite map_get_extend.
    apply existsb_eqb_In in Hk. rewrite Hk. reflexivity.
  - intros k Hk. cbn [public_keys c']. rewrite map_get_extend.
    destruct (existsb (fun x => PublicKey_eqb x k) ks) eqn:Ex; [|reflexivity].
    apply existsb_eqb_In in Ex. contradiction.
  - reflexivity.
Qed.

Lemma add_public_keys_resets_verification_witness :
  let bob := {| holder := sample_identity "Bob" "bob@example.org"; version := ZebraOneBeta;
                keypoint := 7%Z;
                holder_attestation := {| challenge := 0%Z; ring_responses := [] |} |} in
  let d := {| db_path := [bs "zebra_db.age"];
              visible_contents := {| my_public_keys := [];
                                     their_public_keys := [(bob, {| verified_date := Some 5%Z |})] |} |} in
  let w := {| db_file := Some {| private_keys := [];
                                 public_keys := [(bob, {| verified_date := Some 5%Z |})] |};
              locked := []; keychain := []; clock := 9%Z;
              io_fails := fun _ => false; io_calls := 0 |} in
  exists d' w', add_public_keys [bob] (d, w) = (Ok tt, (d', w'))
    /\ exists c', db_file w' = Some c'
                  /\ map_get bob (public_keys c') = Some verification_unverified.
Proof.
  intros bob d w.
  destruct (add_public_keys [bob] (d, w)) as [[[]| |] [d' w']] eqn:E;
    [|vm_compute in E; discriminate E | vm_compute in E; discriminate E].
  exists d', w'. split; [reflexivity|].
  destruct (add_public_keys_resets_verification [bob] d d' w w' E)
    as (c' & Hf & Hin & _ & _).
  exists c'. split; [exact Hf|]. apply Hin. left. reflexivity.
Defined.


(** ** Further properties of the storage *)

(** X1.  Opening the same path again, in the world the first successful opening left, fails:
    the first handle holds the lock on the lock file. *)
Theorem database_new_twice_fails (path : Path) (w w1 : World) (d : Database) :
  database_new path w = (Ok d, w1) -> fst (database_new path w1) = Err.
Proof. intros E. apply database_new_held, (database_new_locked _ _ _ _ E). Qed.

Lemma database_new_twice_fails_witness :
  exists d w1, database_new [bs "zebra_db.age"] (sample_world None) = (Ok d, w1)
               /\ fst (database_new [bs "zebra_db.age"] w1) = Err.
Proof.
  destruct (database_new [bs "zebra_db.age"] (sample_world None)) as [[d| |] w1] eqn:E;
    [|vm_compute in E; discriminate E | vm_compute in E; discriminate E].
  exists d, w1. split; [reflexivity|]. exact (database_new_twice_fails _ _ _ _ E).
Defined.

(** X2.  A successful [Database::new] gives a handle on the requested path whose view is the
    one of the stored contents (empty for an empty file), and leaves the file unchanged. *)
Theorem database_new_view (path : Path) (w w' : World) (d : Database) :
  database_new path w = (Ok d, w') ->
  db_path d = path /\ visible_contents d = get_visible (stored_contents w)
  /\ db_file w' = db_file w.
Proof. exact (database_new_spec path w d w'). Qed.

Lemma database_new_view_witness :
  exists d w', database_new [bs "zebra_db.age"] (sample_world None) = (Ok d, w')
    /\ visible_contents d = get_visible contents_default.
Proof.
  destruct (database_new [bs "zebra_db.age"] (sample_world None)) as [[d| |] w'] eqn:E;
    [|vm_compute in E; discriminate E | vm_compute in E; discriminate E].
  exists d, w'. split; [reflexivity|].
  exact (proj1 (proj2 (database_new_view _ _ _ _ E))).
Defined.


(** X4.  A database file whose extension is already [lock] is its own lock file. *)
Theorem lockfile_path_of_lock_file (dir : Path) (stem : bytes) :
  stem <> [] -> lockfile_path (dir ++ [stem ++ bs ".lock"]) = dir ++ [stem ++ bs ".lock"].
Proof.
  intros Hs. change (bs ".lock") with (dot :: bs "lock").
  apply lockfile_path_ext; [exact Hs | |].
  - vm_compute. intros [H|[H|[H|[H|[]]]]]; discriminate H.
  - intros E. apply (f_equal (@length byte)) in E. rewrite length_app in E.
    assert (L : length (bs "lock") = 4%nat) by reflexivity. cbn [length] in E. lia.
Qed.

Lemma lockfile_path_of_lock_file_witness :
  lockfile_path [bs "keys"; bs "zebra_db" ++ bs ".lock"] = [bs "keys"; bs "zebra_db" ++ bs ".lock"].
Proof.
  apply (lockfile_path_of_lock_file [bs "keys"] (bs "zebra_db")).
  vm_compute. intros H. discriminate H.
Defined.

(** X5.  With no failing system call, importing a private key succeeds, and exporting the key
    under its public key then returns the same private key. *)
Theorem import_then_export `{Primitives} (key : PrivateKey.t) (d : Database) (w : World) :
  (forall n, io_fails w n = false) ->
  exists d1 w1, import_private_key key (d, w) = (Ok tt, (d1, w1))
    /\ fst (export_private_key (public key) (d1, w1)) = Ok key.
Proof.
  intros Hno. unfold import_private_key.
  destruct (rewrite_method_nofail
              (fun c => {| private_keys := map_insert (public key) key (private_keys c);
                           public_keys := public_keys c |}) d w Hno) as (d1 & w1 & E & Hf & Hfl).
  exists d1, w1. split; [exact E|].
  unfold export_private_key. rewrite st_bind_lift.
  assert (Hno1 : forall n, io_fails w1 n = false) by (intros n; rewrite Hfl; apply Hno).
  destruct (get_contents_nofail w1 Hno1) as (w2 & E2 & _). rewrite E2.
  assert (Hs : stored_contents w1
               = {| private_keys := map_insert (public key) key (private_keys (stored_contents w));
                    public_keys := public_keys (stored_contents w) |})
    by (unfold stored_contents at 1; rewrite Hf; reflexivity).
  rewrite Hs. cbv beta iota. cbn [private_keys]. rewrite map_get_insert_same. reflexivity.
Qed.

Lemma import_then_export_witness :
  let key := sample_private_key (sample_identity "Alice" "alice@example.org") 1 in
  exists d1 w1, import_private_key key (sample_database, sample_world None) = (Ok tt, (d1, w1))
    /\ fst (export_private_key (public key) (d1, w1)) = Ok key.
Proof.
  intros key. apply (import_then_export key sample_database (sample_world None)).
  intros n. reflexivity.
Defined.

(** X6.  With no failing system call, deleting a private key succeeds, and exporting it then
    fails. *)
Theorem delete_then_export (public_key : PublicKey) (d : Database) (w : World) :
  (forall n, io_fails w n = false) ->
  exists d1 w1, delete_private_key public_key (d, w) = (Ok tt, (d1, w1))
    /\ fst (export_private_key public_key (d1, w1)) = Err.
Proof.
  intros Hno. unfold delete_private_key.
  destruct (rewrite_method_nofail
              (fun c => {| private_keys := map_remove public_key (private_keys c);
                           public_keys := public_keys c |}) d w Hno) as (d1 & w1 & E & Hf & Hfl).
  exists d1, w1. split; [exact E|].
  unfold export_private_key. rewrite st_bind_lift.
  assert (Hno1 : forall n, io_fails w1 n = false) by (intros n; rewrite Hfl; apply Hno).
  destruct (get_contents_nofail w1 Hno1) as (w2 & E2 & _). rewrite E2.
  assert (Hs : stored_contents w1
               = {| private_keys := map_remove public_key (private_keys (stored_contents w));
                    public_keys := public_keys (stored_contents w) |})
    by (unfold stored_contents at 1; rewrite Hf; reflexivity).
  rewrite Hs. cbv beta iota. cbn [private_keys]. rewrite map_get_remove_same. reflexivity.
Qed.

Lemma delete_then_export_witness :
  let key := sample_private_key (sample_identity "Alice" "alice@example.org") 1 in
  let w := sample_world (Some {| private_keys := [(public key, key)]; public_keys := [] |}) in
  exists d1 w1, delete_private_key (public key) (sample_database, w) = (Ok tt, (d1, w1))
    /\ fst (export_private_key (public key) (d1, w1)) = Err.
Proof.
  intros key w. apply (delete_then_export (public key) sample_database w).
  intros n. reflexivity.
Defined.

(** X7.  [export_private_key] changes neither the handle, the database file nor the locks; it
    never panics; a key it returns is the one stored under the requested public key, and a
    public key with no stored private key gives an error. *)
Theorem export_private_key_spec (k : PublicKey) (d : Database) (w : World) :
  let '(r, (d', w')) := export_private_key k (d, w) in
  d' = d /\ db_file w' = db_file w /\ locked w' = locked w
  /\ match r with
     | Ok key => map_get k (private_keys (stored_contents w)) = Some key
     | Err => True
     | Panic => False
     end
  /\ (map_get k (private_keys (stored_contents w)) = None -> r = Err).
Proof.
  unfold export_private_key. rewrite st_bind_lift.
  destruct (get_contents w) as [r1 w1] eqn:Eg.
  destruct (get_contents_spec _ _ _ Eg) as (D & L & Hc).
  destruct (get_contents_env _ _ _ Eg) as (_ & _ & Hp).
  destruct r1 as [[c pw]| |]; [|repeat split; auto | contradiction Hp; reflexivity].
  specialize (Hc c pw eq_refl). subst c. cbv beta iota.
  destruct (map_get k (private_keys (stored_contents w))) as [key|];
    unfold st_ret, st_err; repeat split; auto; intros H; discriminate H.
Qed.

(** X8.  [Database::sign] changes neither the handle, the database file nor the locks and never
    panics; a message it returns is [SignedMessage::sign] with the private key stored under the
    requested public key, and a public key with no stored private key gives an error. *)
Theorem database_sign_spec `{Primitives} (message : bytes) (k : PublicKey)
  (other_keys : list PublicKey) (rng : nat -> Z) (d : Database) (w : World) :
  let '(r, (d', w')) := database_sign message k other_keys rng (d, w) in
  d' = d /\ db_file w' = db_file w /\ locked w' = locked w
  /\ match r with
     | Ok m => exists key, map_get k (private_keys (stored_contents w)) = Some key
                           /\ signed_message_sign message key other_keys rng = Some m
     | Err => True
     | Panic => False
     end
  /\ (map_get k (private_keys (stored_contents w)) = None -> r = Err).
Proof.
  unfold database_sign. rewrite st_bind_lift.
  destruct (get_contents w) as [r1 w1] eqn:Eg.
  destruct (get_contents_spec _ _ _ Eg) as (D & L & Hc).
  destruct (get_contents_env _ _ _ Eg) as (_ & _ & Hp).
  destruct r1 as [[c pw]| |]; [|repeat split; auto | contradiction Hp; reflexivity].
  specialize (Hc c pw eq_refl). subst c. cbv beta iota.
  destruct (map_get k (private_keys (stored_contents w))) as [key|] eqn:Em.
  - destruct (signed_message_sign_spec message key other_keys rng) as (sig & _ & _ & Hsm).
    rewrite Hsm. unfold st_ret. repeat split; auto.
    + eexists. split; [reflexivity | exact Hsm].
    + intros Hn. discriminate Hn.
  - unfold st_err. repeat split; auto.
Qed.

(** X9.  A successful [set_verified k] stores [k] as verified at the current time of the clock,
    in the file and in the handle's view, and keeps the other public keys and the private
    keys. *)
Theorem set_verified_effect (k : PublicKey) (d d' : Database) (w w' : World) :
  set_verified k (d, w) = (Ok tt, (d', w')) ->
  exists c', db_file w' = Some c' /\ visible_contents d' = get_visible c'
    /\ (exists v, map_get k (public_keys c') = Some v /\ is_verified v = true
                  /\ verified_date v = Some (clock w))
    /\ (forall k', k' <> k ->
          map_get k' (public_keys c') = map_get k' (public_keys (stored_contents w)))
    /\ private_keys c' = private_keys (stored_contents w).
Proof.
  unfold set_verified. rewrite st_bind_lift.
  destruct (get_contents w) as [[[c pw]| |] w1] eqn:Eg; [|discriminate|discriminate].
  destruct (get_contents_spec _ _ _ Eg) as (_ & _ & Hc). specialize (Hc c pw eq_refl). subst c.
  destruct (get_contents_env _ _ _ Eg) as (Hclk & _ & _).
  cbv beta. rewrite st_bind_lift. unfold now at 1. cbv beta iota.
  set (c' := {| private_keys := private_keys (stored_contents w);
                public_keys := map_insert k {| verified_date := Some (clock w1) |}
                                 (public_keys (stored_contents w)) |}).
  intros E. pose proof (write_contents_spec c' pw d w1) as Hs. rewrite E in Hs.
  destruct Hs as [Hf Hv]. exists c'. split; [exact Hf|]. split; [exact Hv|]. split; [|split].
  - eexists. split; [apply map_get_insert_same|]. split; [reflexivity|]. cbn. rewrite Hclk.
    reflexivity.
  - intros k' Hk'. apply map_get_insert_other, Hk'.
  - reflexivity.
Qed.

Lemma set_verified_effect_witness :
  let k := public (sample_private_key (sample_identity "Bob" "bob@example.org") 2) in
  exists d' w', set_verified k (sample_database, sample_world None) = (Ok tt, (d', w'))
    /\ exists c', db_file w' = Some c'.
Proof.
  intros k.
  destruct (set_verified k (sample_database, sample_world None)) as [[[]| |] [d' w']] eqn:E;
    [|vm_compute in E; discriminate E | vm_compute in E; discriminate E].
  exists d', w'. split; [reflexivity|].
  destruct (set_verified_effect _ _ _ _ _ E) as (c' & Hf & _). exists c'. exact Hf.
Defined.

(** X10.  A successful [set_unverified k] stores [k] as unverified, in the file and in the
    handle's view, and keeps the other public keys and the private keys. *)
Theorem set_unverified_effect (k : PublicKey) (d d' : Database) (w w' : World) :
  set_unverified k (d, w) = (Ok tt, (d', w')) ->
  exists c', db_file w' = Some c' /\ visible_contents d' = get_visible c'
    /\ map_get k (public_keys c') = Some verification_unverified
    /\ is_verified verification_unverified = false
    /\ (forall k', k' <> k ->
          map_get k' (public_keys c') = map_get k' (public_keys (stored_contents w)))
    /\ private_keys c' = private_keys (stored_contents w).
Proof.
  unfold set_unverified. intros E.
  apply (rewrite_method_ok
           (fun c => {| private_keys := private_keys c;
                        public_keys := map_insert k verification_unverified (public_keys c) |}))
    in E.
  destruct E as [Hf Hv]. eexists. split; [exact Hf|]. split; [exact Hv|].
  split; [apply map_get_insert_same|]. split; [reflexivity|]. split; [|reflexivity].
  intros k' Hk'. apply map_get_insert_other, Hk'.
Qed.

Lemma set_unverified_effect_witness :
  let k := public (sample_private_key (sample_identity "Bob" "bob@example.org") 2) in
  let w := sample_world (Some {| private_keys := [];
                                 public_keys := [(k, {| verified_date := Some 5%Z |})] |}) in
  exists d' w', set_unverified k (sample_database, w) = (Ok tt, (d', w'))
    /\ exists c', db_file w' = Some c' /\ map_get k (public_keys c') = Some verification_unverified.
Proof.
  intros k w.
  destruct (set_unverified k (sample_database, w)) as [[[]| |] [d' w']] eqn:E;
    [|vm_compute in E; discriminate E | vm_compute in E; discriminate E].
  exists d', w'. split; [reflexivity|].
  destruct (set_unverified_effect _ _ _ _ _ E) as (c' & Hf & _ & Hk & _). exists c'. auto.
Defined.

(** X11.  A successful [delete_public_key k] removes [k] from the public keys of the file and
    of the handle's view, and keeps the other public keys and the private keys. *)
Theorem delete_public_key_effect (k : PublicKey) (d d' : Database) (w w' : World) :
  delete_public_key k (d, w) = (Ok tt, (d', w')) ->
  exists c', db_file w' = Some c'
    /\ map_get k (public_keys c') = None
    /\ map_get k (their_public_keys (visible_contents d')) = None
    /\ (forall k', k' <> k ->
          map_get k' (public_keys c') = map_get k' (public_keys (stored_contents w)))
    /\ private_keys c' = private_keys (stored_contents w).
Proof.
  unfold delete_public_key. intros E.
  apply (rewrite_method_ok
           (fun c => {| private_keys := private_keys c;
                        public_keys := map_remove k (public_keys c) |})) in E.
  destruct E as [Hf Hv]. eexists. split; [exact Hf|].
  split; [apply map_get_remove_same|]. split; [rewrite Hv; apply map_get_remove_same|].
  split; [|reflexivity]. intros k' Hk'. apply map_get_remove_other, Hk'.
Qed.

Lemma delete_public_key_effect_witness :
  let k := public (sample_private_key (sample_identity "Bob" "bob@example.org") 2) in
  let w := sample_world (Some {| private_keys := [];
                                 public_keys := [(k, {| verified_date := Some 5%Z |})] |}) in
  exists d' w', delete_public_key k (sample_database, w) = (Ok tt, (d', w'))
    /\ map_get k (their_public_keys (visible_contents d')) = None.
Proof.
  intros k w.
  destruct (delete_public_key k (sample_database, w)) as [[[]| |] [d' w']] eqn:E;
    [|vm_compute in E; discriminate E | vm_compute in E; discriminate E].
  exists d', w'. split; [reflexivity|].
  destruct (delete_public_key_effect _ _ _ _ _ E) as (c' & _ & _ & Hv & _). exact Hv.
Defined.

(** X12.  A successful [delete_private_key k] removes the private key stored under [k] from
    the file, and [k] from the handle's own public keys; the other private keys and the public
    keys are kept. *)
Theorem delete_private_key_effect (k : PublicKey) (d d' : Database) (w w' : World) :
  delete_private_key k (d, w) = (Ok tt, (d', w')) ->
  exists c', db_file w' = Some c'
    /\ map_get k (private_keys c') = None
    /\ ~ In k (my_public_keys (visible_contents d'))
    /\ (forall k', k' <> k ->
          map_get k' (private_keys c') = map_get k' (private_keys (stored_contents w)))
    /\ public_keys c' = public_keys (stored_contents w).
Proof.
  unfold delete_private_key. intros E.
  apply (rewrite_method_ok
           (fun c => {| private_keys := map_remove k (private_keys c);
                        public_keys := public_keys c |})) in E.
  destruct E as [Hf Hv]. eexists. split; [exact Hf|].
  split; [apply map_get_remove_same|]. split; [rewrite Hv; apply not_In_map_fst_remove|].
  split; [|reflexivity]. intros k' Hk'. apply map_get_remove_other, Hk'.
Qed.

Lemma delete_private_key_effect_witness :
  let key := sample_private_key (sample_identity "Alice" "alice@example.org") 1 in
  let w := sample_world (Some {| private_keys := [(public key, key)]; public_keys := [] |}) in
  exists d' w', delete_private_key (public key) (sample_database, w) = (Ok tt, (d', w'))
    /\ ~ In (public key) (my_public_keys (visible_contents d')).
Proof.
  intros key w.
  destruct (delete_private_key (public key) (sample_database, w)) as [[[]| |] [d' w']] eqn:E;
    [|vm_compute in E; discriminate E | vm_compute in E; discriminate E].
  exists d', w'. split; [reflexivity|].
  destruct (delete_private_key_effect _ _ _ _ _ E) as (c' & _ & _ & Hv & _). exact Hv.
Defined.

(** X13.  A successful [import_private_key key] stores [key] under its public key, in the file,
    and lists that public key among the handle's own keys; the other private keys and the
    public keys are kept. *)
Theorem import_private_key_effect `{Primitives} (key : PrivateKey.t) (d d' : Database)
  (w w' : World) :
  import_private_key key (d, w) = (Ok tt, (d', w')) ->
  exists c', db_file w' = Some c'
    /\ map_get (public key) (private_keys c') = Some key
    /\ In (public key) (my_public_keys (visible_contents d'))
    /\ (forall k', k' <> public key ->
          map_get k' (private_keys c') = map_get k' (private_keys (stored_contents w)))
    /\ public_keys c' = public_keys (stored_contents w).
Proof.
  intros E. destruct (import_private_key_ok _ _ _ _ _ E) as (c' & Hf & Hv & Hp & Hpub).
  exists c'. split; [exact Hf|]. split; [rewrite Hp; apply map_get_insert_same|].
  split; [rewrite Hv; cbn [get_visible my_public_keys]; rewrite Hp; unfold map_insert;
          cbn [map fst];
          left; reflexivity|].
  split; [|exact Hpub]. intros k' Hk'. rewrite Hp. apply map_get_insert_other, Hk'.
Qed.

Lemma import_private_key_effect_witness :
  let key := sample_private_key (sample_identity "Alice" "alice@example.org") 1 in
  exists d' w', import_private_key key (sample_database, sample_world None) = (Ok tt, (d', w'))
    /\ In (public key) (my_public_keys (visible_contents d')).
Proof.
  intros key.
  destruct (import_private_key key (sample_database, sample_world None)) as [[[]| |] [d' w']] eqn:E;
    [|vm_compute in E; discriminate E | vm_compute in E; discriminate E].
  exists d', w'. split; [reflexivity|].
  destruct (import_private_key_effect _ _ _ _ _ E) as (c' & _ & _ & Hv & _). exact Hv.
Defined.

(** X14.  A successful [new_private_key name email] stores a new private key whose holder is
    the identity [name <email>], whose public key carries a valid attestation and is listed
    among the handle's own keys; the public keys are kept. *)
Theorem new_private_key_effect `{Primitives} `{!RistrettoLaws} (nm em : bytes) (rng : nat -> Z)
  (d d' : Database) (w w' : World) :
  new_private_key nm em rng (d, w) = (Ok tt, (d', w')) ->
  exists c' pk, db_file w' = Some c'
    /\ map_get (public pk) (private_keys c') = Some pk
    /\ PrivateKey.holder pk = {| name := nm; email := em |}
    /\ validate_attestation (public pk) = true
    /\ In (public pk) (my_public_keys (visible_contents d'))
    /\ public_keys c' = public_keys (stored_contents w).
Proof.
  unfold new_private_key.
  destruct (identity_new nm em) as [id|] eqn:Ei; [|intros E; unfold st_err in E; discriminate E].
  destruct (private_key_new id rng) as [pk|] eqn:Ep;
    [|intros E; unfold st_panic in E; discriminate E].
  intros E. destruct (import_private_key_ok _ _ _ _ _ E) as (c' & Hf & Hv & Hp & Hpub).
  exists c', pk. split; [exact Hf|]. split; [rewrite Hp; apply map_get_insert_same|].
  split; [rewrite (private_key_new_holder _ _ _ Ep); exact (proj1 (identity_new_inv _ _ _ Ei))|].
  split; [exact (private_key_new_valid _ _ _ Ep)|].
  split; [rewrite Hv; cbn [get_visible my_public_keys]; rewrite Hp; unfold map_insert;
          cbn [map fst];
          left; reflexivity | exact Hpub].
Qed.

Lemma new_private_key_effect_witness :
  exists d' w', new_private_key (bs "Alice") (bs "alice@example.org") (fun i => Z.of_nat (i + 5))
                  (sample_database, sample_world None) = (Ok tt, (d', w'))
    /\ exists c', db_file w' = Some c'.
Proof.
  destruct (new_private_key (bs "Alice") (bs "alice@example.org") (fun i => Z.of_nat (i + 5))
              (sample_database, sample_world None)) as [[[]| |] [d' w']] eqn:E;
    [|vm_compute in E; discriminate E | vm_compute in E; discriminate E].
  exists d', w'. split; [reflexivity|].
  destruct (@new_private_key_effect ref_primitives ref_ristretto_laws _ _ _ _ _ _ _ E)
    as (c' & pk & Hf & _). exists c'. exact Hf.
Defined.

(** X15.  No mutation changes the path of the handle or the set of locks held. *)
Theorem mutate_keeps_path_and_locks `{Primitives} (op : Mutation) (d : Database) (w : World) :
  let '(_, (d', w')) := mutate op (d, w) in db_path d' = db_path d /\ locked w' = locked w.
Proof.
  assert (Hwrite : forall c pw w0, locked w0 = locked w ->
            let '(_, (d', w')) := write_contents c pw (d, w0) in
            db_path d' = db_path d /\ locked w' = locked w).
  { intros c pw w0 L. pose proof (write_contents_frame c pw d w0) as F.
    destruct (write_contents c pw (d, w0)) as [r [d' w']]. destruct F as [F1 F2].
    split; congruence. }
  assert (Hget : forall (k : DatabaseContentsV0 * bytes -> St unit),
            (forall cp w0, locked w0 = locked w ->
               let '(_, (d', w')) := k cp (d, w0) in
               db_path d' = db_path d /\ locked w' = locked w) ->
            let '(_, (d', w')) := st_bind (lift get_contents) k (d, w) in
            db_path d' = db_path d /\ locked w' = locked w).
  { intros k Hk. rewrite st_bind_lift. destruct (get_contents w) as [r w1] eqn:Eg.
    destruct (get_contents_spec _ _ _ Eg) as (_ & L & _).
    destruct r as [cp| |]; [apply Hk; exact L | split; [reflexivity | exact L]
                                            | split; [reflexivity | exact L]]. }
  destruct op as [n e rng|key|k|ks|k|k|k]; cbn [mutate].
  - unfold new_private_key. destruct (identity_new n e) as [id|]; [|split; reflexivity].
    destruct (private_key_new id rng) as [key|]; [|split; reflexivity].
    apply Hget. intros [c pw] w0 L. apply Hwrite, L.
  - apply Hget. intros [c pw] w0 L. apply Hwrite, L.
  - apply Hget. intros [c pw] w0 L. apply Hwrite, L.
  - apply Hget. intros [c pw] w0 L. apply Hwrite, L.
  - apply Hget. intros [c pw] w0 L. apply Hwrite, L.
  - apply Hget. intros [c pw] w0 L. cbv beta. rewrite st_bind_lift. unfold now at 1.
    cbv beta iota. apply Hwrite, L.
  - apply Hget. intros [c pw] w0 L. apply Hwrite, L.
Qed.

(** X16.  When [write_contents] fails, the handle and its view are unchanged, and the database
    file either is unchanged or already holds the new contents (the failing call came after the
    new file replaced the old one). *)
Theorem write_contents_error (c : DatabaseContentsV0) (pw : bytes) (d : Database) (w : World) :
  match write_contents c pw (d, w) with
  | (Err, (d', w')) => d' = d /\ (db_file w' = db_file w \/ db_file w' = Some c)
  | _ => True
  end.
Proof.
  unfold write_contents, persist, set_visible, st_bind, lift, io_bind, syscall, write_db_file.
  cbn.
  repeat (match goal with |- context [io_fails ?w ?n] => destruct (io_fails w n) end; cbn);
    first [exact I | split; [reflexivity | first [left; reflexivity | right; reflexivity]]].
Qed.

(** ** Further properties of keys and their encodings *)

(** X17.  The Borsh deserialization of an [Identity] enforces the invariants of
    [Identity::new]: the name is valid UTF-8 without control characters, and every byte of the
    email is in the range 33 to 126. *)
Theorem p_identity_invariants (inp : bytes) (id : Identity) (rest : bytes) :
  p_identity inp = Some (id, rest) ->
  contains_control (name id) = false /\ utf8_valid (name id) = true
  /\ forallb boring_byte (email id) = true.
Proof.
  unfold p_identity, p_bind at 1.
  destruct (p_string inp) as [[n r1]|] eqn:E1; [|discriminate].
  unfold p_bind. destruct (p_boring r1) as [[e r2]|] eqn:E2; [|discriminate].
  unfold p_lift. destruct (identity_new n e) as [id'|] eqn:Ei; [|discriminate].
  intros E. injection E as <- <-.
  destruct (identity_new_inv _ _ _ Ei) as (-> & Hc & _).
  pose proof (identity_new_boring _ _ _ Ei) as Hb. unfold boring_from_bytes in Hb.
  cbn [name email]. split; [exact Hc|]. split.
  - unfold p_string, p_bind in E1. destruct (p_bytes inp) as [[b r]|]; [|discriminate].
    destruct (utf8_valid b) eqn:Eu; [|discriminate]. unfold p_ret in E1.
    injection E1 as <- _. exact Eu.
  - destruct (forallb boring_byte e); [reflexivity | discriminate].
Qed.

Lemma p_identity_invariants_witness :
  let inp := fst (ser_identity (sample_identity "Alice" "alice@example.org")) in
  exists id rest, p_identity inp = Some (id, rest) /\ contains_control (name id) = false.
Proof.
  intros inp. destruct (p_identity inp) as [[id rest]|] eqn:E; [|vm_compute in E; discriminate E].
  exists id, rest. split; [reflexivity|]. exact (proj1 (p_identity_invariants _ _ _ E)).
Defined.

(** X18.  The Borsh encoding of a well-formed [PublicKey] parses back to the same key, leaving
    what follows it. *)
Theorem public_key_borsh_roundtrip `{Primitives} `{!RistrettoLaws} (k : PublicKey) (rest : bytes) :
  public_key_wf k -> p_public_key (public_key_bytes k ++ rest) = Some (k, rest).
Proof. apply p_public_key_ok. Qed.

Lemma public_key_borsh_roundtrip_witness :
  let k := public (sample_private_key (sample_identity "Alice" "alice@example.org") 1) in
  p_public_key (public_key_bytes k ++ []) = Some (k, []).
Proof.
  intros k. apply (@public_key_borsh_roundtrip ref_primitives ref_ristretto_laws).
  split; [|split; [|split]].
  - split; [vm_compute; reflexivity|]. split; [vm_compute; reflexivity|].
    split; apply Z.leb_le; vm_compute; reflexivity.
  - split; [apply Z.leb_le | apply Z.ltb_lt]; vm_compute; reflexivity.
  - split; [split; [apply Z.leb_le | apply Z.ltb_lt]; vm_compute; reflexivity|].
    apply Forall_forall. intros pr Hpr. vm_compute in Hpr. destruct Hpr as [<-|[]].
    split; split; first [apply Z.leb_le | apply Z.ltb_lt]; vm_compute; reflexivity.
  - apply Z.leb_le. vm_compute. reflexivity.
Defined.

(** X19.  The Borsh encoding of the payload of a signed message (the challenge and the ring of
    keys with their responses) parses back to the same payload, for well-formed keys, scalars
    below the group order and a ring length that fits in a u32. *)
Theorem signed_payload_borsh_roundtrip `{Primitives} `{!RistrettoLaws} (c : Scalar)
  (ring : list (PublicKey * Scalar)) (rest : bytes) :
  (0 <= c < ell)%Z ->
  Forall (fun ks => public_key_wf (fst ks) /\ (0 <= snd ks < ell)%Z) ring ->
  (Z.of_nat (length ring) <= U32_MAX)%Z ->
  p_signed_payload (signed_payload_bytes c ring ++ rest) = Some ((c, ring), rest).
Proof. apply p_signed_payload_ok. Qed.

Lemma signed_payload_borsh_roundtrip_witness :
  let k := public (sample_private_key (sample_identity "Alice" "alice@example.org") 1) in
  p_signed_payload (signed_payload_bytes 5%Z [(k, 3%Z)] ++ []) = Some ((5%Z, [(k, 3%Z)]), []).
Proof.
  intros k. apply (@signed_payload_borsh_roundtrip ref_primitives ref_ristretto_laws).
  - split; [apply Z.leb_le | apply Z.ltb_lt]; vm_compute; reflexivity.
  - constructor; [|constructor]. cbn [fst snd]. split.
    + split; [|split; [|split]].
      * split; [vm_compute; reflexivity|]. split; [vm_compute; reflexivity|].
        split; apply Z.leb_le; vm_compute; reflexivity.
      * split; [apply Z.leb_le | apply Z.ltb_lt]; vm_compute; reflexivity.
      * split; [split; [apply Z.leb_le | apply Z.ltb_lt]; vm_compute; reflexivity|].
        apply Forall_forall. intros pr Hpr. vm_compute in Hpr. destruct Hpr as [<-|[]].
        split; split; first [apply Z.leb_le | apply Z.ltb_lt]; vm_compute; reflexivity.
      * apply Z.leb_le. vm_compute. reflexivity.
    + split; [apply Z.leb_le | apply Z.ltb_lt]; vm_compute; reflexivity.
  - apply Z.leb_le. vm_compute. reflexivity.
Defined.

(** X20.  [PublicKey::from_str] only returns keys whose attestation is valid, with version
    [ZebraOneBeta] and a holder that satisfies the invariants of [Identity::new]. *)
Theorem public_key_from_str_valid `{Primitives} (s : bytes) (k : PublicKey) :
  public_key_from_str s = Some k ->
  validate_attestation k = true /\ version k = ZebraOneBeta
  /\ contains_control (name (holder k)) = false /\ forallb boring_byte (email (holder k)) = true.
Proof.
  unfold public_key_from_str.
  destruct (pk_regex s) as [[[[nm em] kh] ah]|]; [|discriminate].
  destruct (identity_new nm em) as [id|] eqn:Ei; [|discriminate].
  destruct (hex_decode kh) as [kp|]; [|discriminate].
  destruct (hex_decode ah) as [att|]; [|discriminate].
  destruct (length kp =? 32)%nat; [|discriminate].
  destruct (decompress kp) as [p|]; [|discriminate].
  destruct (p_signature att) as [[sg r]|]; [|discriminate].
  match goal with |- (if validate_attestation ?x then _ else _) = _ -> _ =>
    destruct (validate_attestation x) eqn:Ev end; [|discriminate].
  intros E. injection E as <-. cbn [version holder].
  destruct (identity_new_inv _ _ _ Ei) as (-> & Hc & _).
  pose proof (identity_new_boring _ _ _ Ei) as Hb. unfold boring_from_bytes in Hb.
  split; [exact Ev|]. split; [reflexivity|]. split; [exact Hc|].
  cbn [email]. destruct (forallb boring_byte em); [reflexivity | discriminate].
Qed.

Lemma public_key_from_str_valid_witness :
  let s := match public_key_to_string
                   (public (sample_private_key (sample_identity "Alice" "alice@example.org") 1))
           with Some s => s | None => [] end in
  exists k, public_key_from_str s = Some k /\ validate_attestation k = true.
Proof.
  intros s. destruct (public_key_from_str s) as [k|] eqn:E; [|vm_compute in E; discriminate E].
  exists k. split; [reflexivity|]. exact (proj1 (public_key_from_str_valid _ _ E)).
Defined.

(** X21.  [PrivateKey::new] always succeeds, keeps the given holder, and its public key
    carries a valid attestation. *)
Theorem private_key_new_attested `{Primitives} `{!RistrettoLaws} (id : Identity) (rng : nat -> Z) :
  exists pk, private_key_new id rng = Some pk
    /\ PrivateKey.holder pk = id /\ holder (public pk) = id
    /\ validate_attestation (public pk) = true.
Proof.
  destruct (private_key_new id rng) as [pk|] eqn:E.
  - exists pk. split; [reflexivity|].
    pose proof (private_key_new_holder _ _ _ E) as Hh.
    split; [exact Hh|]. split; [exact Hh | exact (private_key_new_valid _ _ _ E)].
  - exfalso. unfold private_key_new in E. cbv zeta in E.
    destruct (signature_sign_some (bytes_for_attestation id (mul_base (scalar_random (rng O))))
                (scalar_random (rng O)) [] (fun i => rng (S i))) as [att [Hs _]].
    rewrite Hs in E. discriminate E.
Qed.

(** X22.  The text of a public key whose holder satisfies the invariants of [Identity::new]
    is a single line: it contains no newline, so lists of keys can be written one per line. *)
Theorem public_key_to_string_one_line `{Primitives} (k : PublicKey) (s : bytes) :
  contains_control (name (holder k)) = false ->
  forallb boring_byte (email (holder k)) = true ->
  public_key_to_string k = Some s -> ~ In newline s.
Proof.
  intros Hc He. pose proof (contains_control_no_newline _ Hc) as Hn.
  unfold public_key_to_string.
  destruct (ser_signature (holder_attestation k)) as [buf [|]]; [|discriminate].
  intros E. injection E as <-. intros Hin.
  repeat match type of Hin with
         | In _ (_ :: _) => destruct Hin as [Hin|Hin]; [discriminate Hin|]
         | In _ (_ ++ _) => apply in_app_iff in Hin; destruct Hin as [Hin|Hin]
         end;
    first [ exact (not_in_forallb _ _ newline Hn eq_refl Hin)
          | exact (not_in_forallb _ _ newline He eq_refl Hin)
          | exact (not_in_forallb _ _ newline (hex_encode_upper_upper _) eq_refl Hin)
          | vm_compute in Hin; destruct Hin as [Hin|[]]; discriminate Hin ].
Qed.

Lemma public_key_to_string_one_line_witness :
  let k := public (sample_private_key (sample_identity "Alice" "alice@example.org") 1) in
  exists s, public_key_to_string k = Some s /\ ~ In newline s.
Proof.
  intros k. destruct (public_key_to_string k) as [s|] eqn:E; [|vm_compute in E; discriminate E].
  exists s. split; [reflexivity|].
  apply (public_key_to_string_one_line k s); [vm_compute; reflexivity | vm_compute; reflexivity | exact E].
Defined.


Lemma private_key_new_attested_witness :
  exists pk, private_key_new (sample_identity "Alice" "alice@example.org")
               (fun i => Z.of_nat (i + 5)) = Some pk
    /\ validate_attestation (public pk) = true.
Proof.
  destruct (@private_key_new_attested ref_primitives ref_ristretto_laws
              (sample_identity "Alice" "alice@example.org") (fun i => Z.of_nat (i + 5)))
    as (pk & E & _ & _ & Hv).
  exists pk. split; [exact E | exact Hv].
Defined.
